(** * GoCallTracer: the recursive dependency traversal of [internal/tracer]

    A shallow embedding of [internal/tracer/tracer.go] and
    [internal/tracer/types.go].  The Go libraries the tracer calls
    ([go/ast], [go/types], [go/token], [golang.org/x/tools/go/packages])
    are represented by the data they expose to the tracer:

    - a syntax tree is a rose tree whose leaves of interest are identifiers;
    - a [types.Object] is a function, a type name, or something else;
    - a loaded package carries its path, its [*types.Package], its parsed
      files and the identifier resolution of its [TypesInfo].

    Go maps are [gmap]s; a Go [int] or [token.Pos] is a [Z]; a nil pointer
    is [None]; a run-time panic is the outcome [Panic]. *)

From Stdlib Require Import ZArith.
From stdpp Require Import gmap strings list fin_maps pretty sorting.

Set Warnings "-clear-no-such-hyp".

Local Open Scope string_scope.
Local Open Scope list_scope.
Local Open Scope nat_scope.

(** ** Outcomes of Go code *)

(** A call either returns, panics, or (for the work-list loop, which is
    run with a step budget) exhausts its budget. *)
Inductive outcome (A : Type) : Type :=
| Done (a : A)
| Panic (msg : string)
| OutOfFuel.
Arguments Done {A} a.
Arguments Panic {A} msg.
Arguments OutOfFuel {A}.

#[global] Instance outcome_ret : MRet outcome := @Done.
#[global] Instance outcome_bind : MBind outcome := λ A B k m,
  match m with
  | Done a => k a
  | Panic msg => Panic msg
  | OutOfFuel => OutOfFuel
  end.

(** A [for _, x := range xs] loop whose body may panic. *)
Fixpoint foldM {A B : Type} (f : B → A → outcome B) (xs : list A) (b : B)
  : outcome B :=
  match xs with
  | [] => Done b
  | x :: xs' => b' ← f b x; foldM f xs' b'
  end.

(** The message of the Go runtime for a nil pointer dereference. *)
Definition nil_deref : string :=
  "runtime error: invalid memory address or nil pointer dereference".

(** A Go [error] value: [None] is [nil], [Some msg] an error whose
    [Error()] text is [msg]. *)
Definition error : Type := option string.

(** ** [go/ast] *)

(** [*ast.Ident]: its name and the position of its name token. *)
Record Ident : Type := { IdentName : string; NamePos : Z }.

(** A syntax node.  [ast.Walk] visits a node and then its children, in
    source order; only identifiers matter to the tracer's visitor, so all
    other node kinds are one constructor carrying the children. *)
#[warnings="-register-all"]
Inductive Node : Type :=
| NIdent (id : Ident)
| NOther (children : list Node).

(** [*ast.FuncDecl]: [Body] is the statement list of the [*ast.BlockStmt],
    or [None] when the declaration has no body ([Body == nil]). *)
Record FuncDecl : Type := { Name : Ident; Body : option (list Node) }.

(** [*ast.TypeSpec] inside a [type] declaration. *)
Record TypeSpec : Type := { SpecName : Ident }.

(** A top-level declaration of a file: a function, a [type] declaration
    (an [*ast.GenDecl] with [Tok == token.TYPE], possibly a group), or
    anything else. *)
Inductive Decl : Type :=
| DFunc (fn : FuncDecl)
| DType (specs : list TypeSpec)
| DOther.

(** [*ast.File] with its extent [Pos()], [End()]. *)
Record File : Type := { FilePos : Z; FileEnd : Z; Decls : list Decl }.

(** ** [go/types] *)

(** A [types.Package] pointer (its address is its identity, and the key
    of [typePkgMap]) to a package with a path. *)
Record TypesPackage : Type := { pkg_addr : positive; pkg_path : string }.

(** The receiver of a method as [FullName] prints it: a named type of the
    method's package, possibly behind a pointer, or an interface literal. *)
Inductive Receiver : Type :=
| RecvNamed (ptr : bool) (tname : string)
| RecvInterface.

(** [*types.Func]. [Pkg()] is nil for the methods of universe types. *)
Record Func : Type := {
  func_pkg : option TypesPackage;
  func_name : string;
  func_recv : option Receiver;
  func_pos : Z
}.

(** [*types.TypeName]. *)
Record TypeName : Type := {
  type_pkg : option TypesPackage;
  type_name : string;
  type_pos : Z
}.

(** [types.Object], by dynamic type. *)
Inductive Object : Type :=
| ObjFunc (f : Func)
| ObjTypeName (t : TypeName)
| ObjOther (pkg : option TypesPackage).

Definition Object_Pkg (obj : Object) : option TypesPackage :=
  match obj with
  | ObjFunc f => func_pkg f
  | ObjTypeName t => type_pkg t
  | ObjOther pkg => pkg
  end.

(** The method [Path] of a [types.Package] pointer dereferences its
    receiver. *)
Definition Path (pkg : option TypesPackage) : outcome string :=
  match pkg with
  | Some p => Done (pkg_path p)
  | None => Panic nil_deref
  end.

(** The method [FullName] of a [types.Func]: [path.name] for a
    package-level function; [path.T] in parentheses, with a star in front
    for a pointer receiver, then [.name], for a method of a named type;
    and [(interface).name] for a method of an interface literal. *)
Definition qualifier (pkg : option TypesPackage) : string :=
  match pkg with
  | Some p => pkg_path p +:+ "."
  | None => ""
  end.

Definition FullName (f : Func) : string :=
  match func_recv f with
  | None => qualifier (func_pkg f) +:+ func_name f
  | Some (RecvNamed ptr tname) =>
      "(" +:+ ((if ptr then "*" else "") +:+
               (qualifier (func_pkg f) +:+ (tname +:+ (")." +:+ func_name f))))
  | Some RecvInterface => "(interface)." +:+ func_name f
  end.

(** ** [golang.org/x/tools/go/packages] *)

(** [*packages.Package]: [ObjectOf] is [TypesInfo.ObjectOf] ([None] for a
    nil object); [FileNameAt pos] is [Fset.File(pos).Name()], which the
    tracer only asks for positions at which it has just found a
    declaration in [Syntax]; [formatFuncDecl] and [formatGenDecl] are
    [format.Node] with the package's [Fset], on a function declaration and
    on a [type] declaration: the printed text, or the message of the
    error. *)
Record Package : Type := {
  PkgPath : string;
  Types : option TypesPackage;
  Syntax : list File;
  ObjectOf : Ident → option Object;
  FileNameAt : Z → string;
  formatFuncDecl : FuncDecl → string + string;
  formatGenDecl : list TypeSpec → string + string
}.

(** ** [internal/tracer/types.go] *)

Record AnalysisTarget : Type := { Pkg : Package; Fn : FuncDecl }.

Record AnalysisTask : Type := { Target : AnalysisTarget; Depth : Z }.

(** [Snippet] is never written by the tracer and stays the empty string. *)
Record TypeInfo : Type := {
  TypeInfo_Name : string;
  Definition_ : TypeName;
  Snippet : string
}.

(** ** The visitor ([resultCollector]) *)

(** The two slices the visitor appends to; [Info] and [ProjectPackages]
    never change during a walk and are passed alongside. *)
Record resultCollector : Type := {
  CalledFuncs : list Func;
  ReferencedTypes : list TypeName
}.

(** Reading a Go [map[string]bool]: a missing key reads [false]. *)
Definition flag (m : gmap string bool) (k : string) : bool :=
  default false (m !! k).

(** [Visit] on a non-nil node.  (The calls [Visit(nil)] that [ast.Walk]
    makes after the children of a node return at the first test and leave
    the collector as it is.) *)
Definition Visit (info : Ident → option Object)
    (ProjectPackages : gmap string bool)
    (v : resultCollector) (node : Node) : resultCollector :=
  match node with
  | NOther _ => v
  | NIdent ident =>
      match info ident with
      | None => v
      | Some obj =>
          match Object_Pkg obj with
          | None => v
          | Some pkg =>
              if negb (flag ProjectPackages (pkg_path pkg)) then v
              else
                match obj with
                | ObjFunc f =>
                    {| CalledFuncs := CalledFuncs v ++ [f];
                       ReferencedTypes := ReferencedTypes v |}
                | ObjTypeName t =>
                    {| CalledFuncs := CalledFuncs v;
                       ReferencedTypes := ReferencedTypes v ++ [t] |}
                | ObjOther _ => v
                end
          end
      end
  end.

(** [ast.Walk] below a non-nil node: the node, then its children. *)
Fixpoint Walk (info : Ident → option Object)
    (ProjectPackages : gmap string bool)
    (v : resultCollector) (node : Node) : resultCollector :=
  let v' := Visit info ProjectPackages v node in
  match node with
  | NIdent _ => v'
  | NOther children =>
      fold_left (λ acc child, Walk info ProjectPackages acc child) children v'
  end.

(** [ast.Walk(collector, fn.Body)].  [fn.Body] has static type
    [*ast.BlockStmt]; when it is nil the interface value handed to [Walk]
    is a non-nil [ast.Node] holding a nil pointer, so [Visit] does not take
    its [node == nil] exit, and [Walk] then reads [n.List] through the nil
    pointer. *)
Definition Walk_Body (info : Ident → option Object)
    (ProjectPackages : gmap string bool)
    (v : resultCollector) (body : option (list Node))
  : outcome resultCollector :=
  match body with
  | None => Panic nil_deref
  | Some stmts => Done (Walk info ProjectPackages v (NOther stmts))
  end.

Definition empty_collector : resultCollector :=
  {| CalledFuncs := []; ReferencedTypes := [] |}.

(** ** The source locator for functions *)

(** The [ast.Inspect] of [findFuncDeclAt] over one file.  Function
    declarations occur only at top level.  The callback returns [false] at
    a match, which prunes that declaration's subtree but not the later
    declarations, so the last declaration whose name is at [pos] is the
    one left in [foundNode]. *)
Definition inspectFuncDecl (pos : Z) (decls : list Decl) : option FuncDecl :=
  fold_left
    (λ foundNode d,
       match d with
       | DFunc fn => if (NamePos (Name fn) =? pos)%Z then Some fn else foundNode
       | _ => foundNode
       end)
    decls None.

Fixpoint findFuncDeclIn (files : list File) (pos : Z) : option FuncDecl :=
  match files with
  | [] => None
  | fileAST :: rest =>
      if ((FilePos fileAST <=? pos)%Z && (pos <? FileEnd fileAST)%Z)%bool then
        match inspectFuncDecl pos (Decls fileAST) with
        | Some fn => Some fn
        | None => findFuncDeclIn rest pos
        end
      else findFuncDeclIn rest pos
  end.

Definition findFuncDeclAt (pkg : Package) (pos : Z) : option FuncDecl :=
  findFuncDeclIn (Syntax pkg) pos.

(** ** The traversal ([performRecursiveAnalysis]) *)

Record analysisResult : Type := {
  res_CalledFuncs : gmap string Func;
  res_ReferencedTypes : gmap string TypeInfo
}.

(** The first loop of [performRecursiveAnalysis]: the set of package paths
    of the project and the packages by [types.Package] pointer. *)
Definition projectPackagesOf (pkgs : list Package) : gmap string bool :=
  fold_left (λ m p, <[PkgPath p := true]> m) pkgs ∅.

Definition typePkgMapOf (pkgs : list Package) : gmap positive Package :=
  fold_left
    (λ m p, match Types p with
            | Some tp => <[pkg_addr tp := p]> m
            | None => m
            end)
    pkgs ∅.

(** [typePkgMap[pkg]] for a possibly nil key: a nil key is never stored. *)
Definition lookupPkg (typePkgMap : gmap positive Package)
    (pkg : option TypesPackage) : option Package :=
  match pkg with
  | Some p => typePkgMap !! pkg_addr p
  | None => None
  end.

(** The variables of the work-list loop. *)
Record state : Type := {
  queue : list AnalysisTask;
  processedFuncs : gmap string bool;
  allCalledFuncs : gmap string Func;
  allReferencedTypes : gmap string TypeInfo
}.

Section Traversal.
Variable depth : Z.
Variable projectPackages : gmap string bool.
Variable typePkgMap : gmap positive Package.

(** One iteration of [for _, fun := range collector.CalledFuncs], at a
    task of depth [d]; the accumulator is [allCalledFuncs] and [queue]. *)
Definition recordFunc (d : Z)
    (acc : gmap string Func * list AnalysisTask) (fun_ : Func)
  : outcome (gmap string Func * list AnalysisTask) :=
  let '(called, q) := acc in
  let funKey := FullName fun_ in
  match called !! funKey with
  | Some _ => Done (called, q)
  | None =>
      let called' := <[funKey := fun_]> called in
      if (d <? depth)%Z then
        path ← Path (func_pkg fun_);
        if flag projectPackages path then
          match lookupPkg typePkgMap (func_pkg fun_) with
          | None => Done (called', q)
          | Some defPkg =>
              match findFuncDeclAt defPkg (func_pos fun_) with
              | Some defNode =>
                  Done (called',
                        (q ++ [{| Target := {| Pkg := defPkg; Fn := defNode |};
                                  Depth := d + 1 |}])%list)
              | None => Done (called', q)
              end
          end
        else Done (called', q)
      else Done (called', q)
  end.

(** [fmt.Sprintf("%s.%s", typeObj.Pkg().Path(), typeObj.Name())]. *)
Definition typeKeyOf (typeObj : TypeName) : outcome string :=
  path ← Path (type_pkg typeObj);
  Done (path +:+ ("." +:+ type_name typeObj)).

(** One iteration of [for _, typeObj := range collector.ReferencedTypes]. *)
Definition recordType (types : gmap string TypeInfo) (typeObj : TypeName)
  : outcome (gmap string TypeInfo) :=
  typeKey ← typeKeyOf typeObj;
  match types !! typeKey with
  | Some _ => Done types
  | None =>
      Done (<[typeKey := {| TypeInfo_Name := typeKey;
                            Definition_ := typeObj;
                            Snippet := "" |}]> types)
  end.

(** The part of the loop body after the visited test: walk the body,
    then the two [range] loops. *)
Definition expand (currentTask : AnalysisTask) (fnKey : string)
    (rest : list AnalysisTask) (st : state) : outcome state :=
  let info := ObjectOf (Pkg (Target currentTask)) in
  collector ← Walk_Body info projectPackages empty_collector
                (Body (Fn (Target currentTask)));
  '(called, q) ← foldM (recordFunc (Depth currentTask))
                   (CalledFuncs collector) (allCalledFuncs st, rest);
  types ← foldM recordType (ReferencedTypes collector)
            (allReferencedTypes st);
  Done {| queue := q;
          processedFuncs := <[fnKey := true]> (processedFuncs st);
          allCalledFuncs := called;
          allReferencedTypes := types |}.

(** The loop body, for a queue [currentTask :: rest].  The type assertion
    of [fnObj] to [*types.Func] has no [ok] result and panics on any
    other object. *)
Definition step (currentTask : AnalysisTask) (rest : list AnalysisTask)
    (st : state) : outcome state :=
  let popped := {| queue := rest;
                   processedFuncs := processedFuncs st;
                   allCalledFuncs := allCalledFuncs st;
                   allReferencedTypes := allReferencedTypes st |} in
  match ObjectOf (Pkg (Target currentTask)) (Name (Fn (Target currentTask))) with
  | None => Done popped
  | Some (ObjFunc fnObj) =>
      let fnKey := FullName fnObj in
      if flag (processedFuncs st) fnKey then Done popped
      else expand currentTask fnKey rest st
  | Some _ =>
      Panic "interface conversion: types.Object is not *types.Func"
  end.

(** [for len(queue) > 0 { ... }], run for at most [fuel] iterations. *)
Fixpoint loop (fuel : nat) (st : state) : outcome state :=
  match queue st with
  | [] => Done st
  | currentTask :: rest =>
      match fuel with
      | O => OutOfFuel
      | S fuel' => st' ← step currentTask rest st; loop fuel' st'
      end
  end.
End Traversal.

Definition initial_state (initialTarget : AnalysisTarget) : state :=
  {| queue := [{| Target := initialTarget; Depth := 0 |}];
     processedFuncs := ∅;
     allCalledFuncs := ∅;
     allReferencedTypes := ∅ |}.

(** [performRecursiveAnalysis] with the loop bounded by [fuel]. *)
Definition performRecursiveAnalysisFuel (fuel : nat)
    (initialTarget : AnalysisTarget) (depth : Z) (pkgs : list Package)
  : outcome (analysisResult * error) :=
  st ← loop depth (projectPackagesOf pkgs) (typePkgMapOf pkgs) fuel
         (initial_state initialTarget);
  Done ({| res_CalledFuncs := allCalledFuncs st;
           res_ReferencedTypes := allReferencedTypes st |}, None).

(** The function declarations of a package, in file order. *)
Definition funcDeclsOf (decls : list Decl) : list FuncDecl :=
  d ← decls; match d with DFunc fn => [fn] | _ => [] end.

Definition funcDecls (p : Package) : list FuncDecl :=
  f ← Syntax p; funcDeclsOf (Decls f).

(** The callables the visitor reports for the body of a target. *)
Definition bodyFuncs (proj : gmap string bool) (t : AnalysisTarget)
  : list Func :=
  match Body (Fn t) with
  | None => []
  | Some stmts =>
      CalledFuncs (Walk (ObjectOf (Pkg t)) proj empty_collector (NOther stmts))
  end.

(** Every target the loop can meet besides the initial one: a function
    declaration of a project package, paired with that package. *)
Definition projectTargets (pkgs : list Package) : list AnalysisTarget :=
  p ← pkgs; fn ← funcDecls p; [{| Pkg := p; Fn := fn |}].

(** The identities of all callables that any of these bodies mentions. *)
Definition candidateKeys (initialTarget : AnalysisTarget)
    (pkgs : list Package) : gset string :=
  list_to_set
    (FullName <$>
       (t ← initialTarget :: projectTargets pkgs;
        bodyFuncs (projectPackagesOf pkgs) t)).

(** The source loop has no iteration bound.  The embedding runs it with
    this budget, which is never exhausted ([loop_terminates] below): a
    task is queued only when a new identity enters [allCalledFuncs]. *)
Definition traversalBound (initialTarget : AnalysisTarget)
    (pkgs : list Package) : nat :=
  S (size (candidateKeys initialTarget pkgs)).

Definition performRecursiveAnalysis (initialTarget : AnalysisTarget)
    (depth : Z) (pkgs : list Package) : outcome (analysisResult * error) :=
  performRecursiveAnalysisFuel (traversalBound initialTarget pkgs)
    initialTarget depth pkgs.

(** ** Snippets ([getFuncSourceSnippet], [getTypeSourceSnippet]) *)

Definition getFuncSourceSnippet (pkg : Package) (pos : Z) : string * error :=
  match findFuncDeclAt pkg pos with
  | None =>
      ("", Some ("could not find FuncDecl node at position " +:+ pretty pos))
  | Some node =>
      match formatFuncDecl pkg node with
      | inr err => ("", Some err)
      | inl text => (text, None)
      end
  end.

(** The [ast.Inspect] of [getTypeSourceSnippet] over one file, followed by
    the search for the enclosing [type] declaration: the result is the
    declaration (the whole group) that holds the last type spec whose name
    is at [pos]. *)
Definition inspectTypeSpec (pos : Z) (decls : list Decl)
  : option (list TypeSpec) :=
  fold_left
    (λ foundNode d,
       match d with
       | DType specs =>
           if existsb (λ ts, (NamePos (SpecName ts) =? pos)%Z) specs
           then Some specs else foundNode
       | _ => foundNode
       end)
    decls None.

Fixpoint getTypeSourceSnippetIn (pkg : Package) (files : list File) (pos : Z)
  : string * error :=
  match files with
  | [] =>
      ("", Some ("could not find TypeSpec node at position " +:+ pretty pos))
  | fileAST :: rest =>
      if ((FilePos fileAST <=? pos)%Z && (pos <? FileEnd fileAST)%Z)%bool then
        match inspectTypeSpec pos (Decls fileAST) with
        | Some parentNode =>
            match formatGenDecl pkg parentNode with
            | inr err => ("", Some err)
            | inl text => (text, None)
            end
        | None => getTypeSourceSnippetIn pkg rest pos
        end
      else getTypeSourceSnippetIn pkg rest pos
  end.

(** The package argument may be nil here: [Analyze] passes
    [typePkgMap[...]] without testing the lookup, and the first thing the
    function does is to read [pkg.Syntax]. *)
Definition getTypeSourceSnippet (pkg : option Package) (pos : Z)
  : outcome (string * error) :=
  match pkg with
  | None => Panic nil_deref
  | Some p => Done (getTypeSourceSnippetIn p (Syntax p) pos)
  end.

(** [GetFuncCode]. *)
Definition GetFuncCode (target : AnalysisTarget) : string * error :=
  getFuncSourceSnippet (Pkg target) (NamePos (Name (Fn target))).

(** ** Iterating over a Go map *)

(** [for k, v := range m] visits every entry of [m] exactly once, in an
    order that the language leaves unspecified and that differs from one
    loop to the next.  [range_order m kvs] says that [kvs] is one of the
    orders in which a [range] loop may visit [m]. *)
Definition range_order {V : Type} (m : gmap string V)
    (kvs : list (string * V)) : Prop :=
  kvs ≡ₚ map_to_list m.

(** ** The name lists ([ExtractTypes], [ExtractCalledFuncs]) *)

(** Both functions are relations between the arguments and a value the
    call may return: the list depends on the order of the [range] loop. *)
Definition ExtractTypes (target : AnalysisTarget) (depth : Z)
    (pkgs : list Package) (ret : list string * error) : Prop :=
  match performRecursiveAnalysis target depth pkgs with
  | Done (results, Some err) => ret = ([], Some err)
  | Done (results, None) =>
      ∃ kvs, range_order (res_ReferencedTypes results) kvs ∧
             ret = (kvs.*1, None)
  | _ => False
  end.

Definition ExtractCalledFuncs (target : AnalysisTarget) (depth : Z)
    (pkgs : list Package) (ret : list string * error) : Prop :=
  match performRecursiveAnalysis target depth pkgs with
  | Done (results, Some err) => ret = ([], Some err)
  | Done (results, None) =>
      ∃ kvs, range_order (res_CalledFuncs results) kvs ∧
             ret = (kvs.*1, None)
  | _ => False
  end.

(** ** The report ([Analyze]) *)

(** The line feed. *)
Definition nl : string :=
  String (Ascii.Ascii false true false true false false false false) "".

(** One dependency block of the report. *)
Record Block : Type := {
  blockName : string;
  blockFile : string;
  blockSnippet : string
}.

(** What [Analyze] writes, part by part. *)
Record Report : Type := {
  reportName : string;
  reportDepth : Z;
  reportFile : string;
  targetSnippet : string * error;
  summaryFuncs : list string;
  summaryTypes : list string;
  funcBlocks : list Block;
  typeBlocks : list Block
}.

Definition concat_strings (parts : list string) : string :=
  foldr String.append "" parts.

Definition renderSummary (names : list string) : string :=
  match names with
  | [] => "- None" +:+ nl
  | _ => concat_strings ((λ name, "- " +:+ name +:+ nl) <$> names)
  end.

Definition renderBlock (b : Block) : string :=
  concat_strings
    [nl +:+ "// Source for: " +:+ blockName b +:+ nl;
     "// Defined in: " +:+ blockFile b +:+ nl;
     "// --------------------------------------------------" +:+ nl;
     blockSnippet b +:+ nl].

Definition renderReport (r : Report) : string :=
  concat_strings
    ([ "Analysis for Function: " +:+ reportName r +:+
         " (depth=" +:+ pretty (reportDepth r) +:+ ")" +:+ nl;
       "Defined in: " +:+ reportFile r +:+ nl;
       nl +:+ "--- Target Function Source Code ---" +:+ nl;
       match targetSnippet r with
       | (_, Some err) => "// Error getting source: " +:+ err +:+ nl
       | (initialSnippet, None) => initialSnippet +:+ nl
       end;
       nl +:+ "--- Summary of Dependencies ---" +:+ nl;
       "Called Functions/Methods:" +:+ nl;
       renderSummary (summaryFuncs r);
       nl +:+ "Referenced Types:" +:+ nl;
       renderSummary (summaryTypes r);
       nl +:+ "--- Code Snippets of Dependencies ---" +:+ nl ]
     ++ (renderBlock <$> funcBlocks r)
     ++ (renderBlock <$> typeBlocks r)).

(** The body of the loop over [results.CalledFuncs] in the snippet
    section: no block when the package is not indexed ([continue]) or when
    the snippet is not available ([err != nil]). *)
Definition funcBlock (typePkgMap : gmap positive Package)
    (entry : string * Func) : list Block :=
  let '(name, fun_) := entry in
  match lookupPkg typePkgMap (func_pkg fun_) with
  | None => []
  | Some defPkg =>
      match getFuncSourceSnippet defPkg (func_pos fun_) with
      | (snippet, None) =>
          [{| blockName := name;
              blockFile := FileNameAt defPkg (func_pos fun_);
              blockSnippet := snippet |}]
      | (_, Some _) => []
      end
  end.

(** The body of the loop over [results.ReferencedTypes]: the lookup in
    [typePkgMap] is not tested. *)
Definition typeBlock (typePkgMap : gmap positive Package)
    (blocks : list Block) (entry : string * TypeInfo)
  : outcome (list Block) :=
  let '(name, info) := entry in
  let defPkg := lookupPkg typePkgMap (type_pkg (Definition_ info)) in
  res ← getTypeSourceSnippet defPkg (type_pos (Definition_ info));
  match res, defPkg with
  | (snippet, None), Some p =>
      Done (blocks ++
            [{| blockName := name;
                blockFile := FileNameAt p (type_pos (Definition_ info));
                blockSnippet := snippet |}])
  | _, _ => Done blocks
  end.

(** The report for given visiting orders of the four [range] loops. *)
Definition buildReport (initialTarget : AnalysisTarget) (initialFile : string)
    (depth : Z) (pkgs : list Package)
    (sumFuncs : list (string * Func)) (sumTypes : list (string * TypeInfo))
    (blkFuncs : list (string * Func)) (blkTypes : list (string * TypeInfo))
  : outcome Report :=
  let typePkgMap := typePkgMapOf pkgs in
  tblocks ← foldM (typeBlock typePkgMap) blkTypes [];
  Done {| reportName := IdentName (Name (Fn initialTarget));
          reportDepth := depth;
          reportFile := initialFile;
          targetSnippet :=
            getFuncSourceSnippet (Pkg initialTarget)
              (NamePos (Name (Fn initialTarget)));
          summaryFuncs := sumFuncs.*1;
          summaryTypes := sumTypes.*1;
          funcBlocks := blkFuncs ≫= funcBlock typePkgMap;
          typeBlocks := tblocks |}.

(** The reports [Analyze] may write when the traversal returns
    [results]. *)
Definition AnalyzeReport (initialTarget : AnalysisTarget)
    (initialFile : string) (depth : Z) (pkgs : list Package)
    (results : analysisResult) (rep : Report) : Prop :=
  ∃ sumFuncs sumTypes blkFuncs blkTypes,
    range_order (res_CalledFuncs results) sumFuncs ∧
    range_order (res_ReferencedTypes results) sumTypes ∧
    range_order (res_CalledFuncs results) blkFuncs ∧
    range_order (res_ReferencedTypes results) blkTypes ∧
    buildReport initialTarget initialFile depth pkgs
      sumFuncs sumTypes blkFuncs blkTypes = Done rep.

(** [Analyze], as a relation between the arguments and a value the call
    may return. *)
Definition Analyze (initialTarget : AnalysisTarget) (initialFile : string)
    (depth : Z) (pkgs : list Package) (ret : string * error) : Prop :=
  match performRecursiveAnalysis initialTarget depth pkgs with
  | Done (results, Some err) => ret = ("", Some err)
  | Done (results, None) =>
      ∃ rep, AnalyzeReport initialTarget initialFile depth pkgs results rep ∧
             ret = (renderReport rep, None)
  | _ => False
  end.

(** * Auxiliary notions for the statements *)

(** A symbol is in scope when it has a package whose path is flagged in
    the project's package set. *)
Definition in_scope (proj : gmap string bool) (pkg : option TypesPackage)
  : Prop :=
  ∃ p, pkg = Some p ∧ flag proj (pkg_path p) = true.

Definition scoped (proj : gmap string bool) (v : resultCollector) : Prop :=
  Forall (λ f, in_scope proj (func_pkg f)) (CalledFuncs v) ∧
  Forall (λ t, in_scope proj (type_pkg t)) (ReferencedTypes v).

(** The state after popping a task without expanding it. *)
Definition popped (rest : list AnalysisTask) (st : state) : state :=
  {| queue := rest;
     processedFuncs := processedFuncs st;
     allCalledFuncs := allCalledFuncs st;
     allReferencedTypes := allReferencedTypes st |}.

(** The object the name of a task's declaration resolves to. *)
Definition resolved (t : AnalysisTask) : option Object :=
  ObjectOf (Pkg (Target t)) (Name (Fn (Target t))).

(** A popped task that does not panic is discarded (unresolved name, or
    identity already visited) or expanded. *)
Inductive step_case (depth : Z) (pkgs : list Package) (t : AnalysisTask)
    (rest : list AnalysisTask) (st st' : state) : Prop :=
| step_discard :
    resolved t = None ∨
    (∃ f, resolved t = Some (ObjFunc f) ∧
          flag (processedFuncs st) (FullName f) = true) →
    st' = popped rest st →
    step_case depth pkgs t rest st st'
| step_expand f c called q types :
    resolved t = Some (ObjFunc f) →
    flag (processedFuncs st) (FullName f) = false →
    Walk_Body (ObjectOf (Pkg (Target t))) (projectPackagesOf pkgs)
      empty_collector (Body (Fn (Target t))) = Done c →
    foldM (recordFunc depth (projectPackagesOf pkgs) (typePkgMapOf pkgs)
             (Depth t))
      (CalledFuncs c) (allCalledFuncs st, rest) = Done (called, q) →
    foldM recordType (ReferencedTypes c) (allReferencedTypes st)
      = Done types →
    st' = {| queue := q;
             processedFuncs := <[FullName f := true]> (processedFuncs st);
             allCalledFuncs := called;
             allReferencedTypes := types |} →
    step_case depth pkgs t rest st st'.

(** The identity under which a popped task is expanded, if it is. *)
Definition expandedKey (t : AnalysisTask) (st : state) : option string :=
  match resolved t with
  | Some (ObjFunc f) =>
      if flag (processedFuncs st) (FullName f) then None
      else Some (FullName f)
  | _ => None
  end.

(** The expansions of a run of the loop, in order: the identity marked
    visited and the task whose body was walked. *)
Fixpoint expansions (depth : Z) (proj : gmap string bool)
    (tpm : gmap positive Package) (fuel : nat) (st : state)
  : list (string * AnalysisTask) :=
  match queue st with
  | [] => []
  | t :: rest =>
      match fuel with
      | O => []
      | S fuel' =>
          match step depth proj tpm t rest st with
          | Done st' =>
              match expandedKey t st with
              | Some k => [(k, t)]
              | None => []
              end ++ expansions depth proj tpm fuel' st'
          | _ => []
          end
      end
  end.

(** Where the targets of queued tasks come from. *)
Definition known_task (initialTarget : AnalysisTarget) (pkgs : list Package)
    (t : AnalysisTask) : Prop :=
  Target t ∈ initialTarget :: projectTargets pkgs.

(** Identities still missing from [allCalledFuncs], plus pending tasks. *)
Definition missing_measure (initialTarget : AnalysisTarget)
    (pkgs : list Package) (st : state) : nat :=
  length (queue st)
  + size (candidateKeys initialTarget pkgs ∖ dom (allCalledFuncs st)).

(** [typeKey] of a type with a package, as a string. *)
Definition typeKey (t : TypeName) : string :=
  match type_pkg t with
  | Some p => pkg_path p +:+ ("." +:+ type_name t)
  | None => ""
  end.

(** The named types the visitor reports for the body of a target. *)
Definition bodyTypes (proj : gmap string bool) (t : AnalysisTarget)
  : list TypeName :=
  match Body (Fn t) with
  | None => []
  | Some stmts =>
      ReferencedTypes
        (Walk (ObjectOf (Pkg t)) proj empty_collector (NOther stmts))
  end.

(** One state extends another: nothing visited or recorded is lost. *)
Definition extends (st st' : state) : Prop :=
  (∀ k, flag (processedFuncs st) k = true →
        flag (processedFuncs st') k = true) ∧
  allCalledFuncs st ⊆ allCalledFuncs st' ∧
  allReferencedTypes st ⊆ allReferencedTypes st'.

(** Every recorded callable is stored under its own identity and is in
    scope; likewise every recorded type. *)
Definition called_ok (proj : gmap string bool) (m : gmap string Func) : Prop :=
  ∀ k f, m !! k = Some f → FullName f = k ∧ in_scope proj (func_pkg f).

Definition types_ok (proj : gmap string bool) (m : gmap string TypeInfo)
  : Prop :=
  ∀ k ti, m !! k = Some ti →
    TypeInfo_Name ti = k ∧ typeKey (Definition_ ti) = k ∧
    in_scope proj (type_pkg (Definition_ ti)).

(** A task was queued for a recorded callable: its package is the one
    indexed under the callable's package and its declaration is the one
    the locator finds at the callable's position. *)
Definition queued_for (pkgs : list Package) (called : gmap string Func)
    (t : AnalysisTask) : Prop :=
  ∃ f, called !! FullName f = Some f ∧
       in_scope (projectPackagesOf pkgs) (func_pkg f) ∧
       lookupPkg (typePkgMapOf pkgs) (func_pkg f) = Some (Pkg (Target t)) ∧
       findFuncDeclAt (Pkg (Target t)) (func_pos f) = Some (Fn (Target t)).

Definition origin_ok (initialTarget : AnalysisTarget) (pkgs : list Package)
    (called : gmap string Func) (t : AnalysisTask) : Prop :=
  t = {| Target := initialTarget; Depth := 0 |} ∨ queued_for pkgs called t.

(** The owning package of a symbol is one of the project's packages. *)
Definition in_project (pkgs : list Package) (pkg : option TypesPackage)
  : Prop :=
  ∃ p q, pkg = Some p ∧ q ∈ pkgs ∧ PkgPath q = pkg_path p.

(** The initial task. *)
Definition initial_task (initialTarget : AnalysisTarget) : AnalysisTask :=
  {| Target := initialTarget; Depth := 0 |}.

(** States that differ at most in the recorded types. *)
Definition same_but_types (st1 st2 : state) : Prop :=
  queue st1 = queue st2 ∧ processedFuncs st1 = processedFuncs st2 ∧
  allCalledFuncs st1 = allCalledFuncs st2.

(** Retrieving the snippet of a callable, or of a type, fails. *)
Definition funcSnippetFails (pkgs : list Package) (f : Func) : Prop :=
  ∀ defPkg, lookupPkg (typePkgMapOf pkgs) (func_pkg f) = Some defPkg →
    (getFuncSourceSnippet defPkg (func_pos f)).2 ≠ None.

Definition typeSnippetFails (pkgs : list Package) (t : TypeName) : Prop :=
  ∀ defPkg, lookupPkg (typePkgMapOf pkgs) (type_pkg t) = Some defPkg →
    (getTypeSourceSnippetIn defPkg (Syntax defPkg) (type_pos t)).2 ≠ None.

(** The package of every recorded type is in the package index. *)
Definition typesIndexed (pkgs : list Package) (m : gmap string TypeInfo)
  : Prop :=
  ∀ k ti, m !! k = Some ti →
    is_Some (lookupPkg (typePkgMapOf pkgs) (type_pkg (Definition_ ti))).

(** * Example projects *)

(** One package [proj] with functions [A], [B], [C], [D] and types [T],
    [U]: [A] calls [B] and [C] and mentions [T]; [B] calls [D] and
    mentions [U]. *)
Module Scenario.
Definition tp : TypesPackage := {| pkg_addr := 1; pkg_path := "proj" |}.

Definition mkFunc (name : string) (pos : Z) : Func :=
  {| func_pkg := Some tp; func_name := name; func_recv := None;
     func_pos := pos |}.

Definition mkType (name : string) (pos : Z) : TypeName :=
  {| type_pkg := Some tp; type_name := name; type_pos := pos |}.

Definition fA : Func := mkFunc "A" 10.
Definition fB : Func := mkFunc "B" 20.
Definition fC : Func := mkFunc "C" 30.
Definition fD : Func := mkFunc "D" 40.
Definition tT : TypeName := mkType "T" 50.
Definition tU : TypeName := mkType "U" 60.

Definition objects (id : Ident) : option Object :=
  if decide (IdentName id = "A") then Some (ObjFunc fA)
  else if decide (IdentName id = "B") then Some (ObjFunc fB)
  else if decide (IdentName id = "C") then Some (ObjFunc fC)
  else if decide (IdentName id = "D") then Some (ObjFunc fD)
  else if decide (IdentName id = "T") then Some (ObjTypeName tT)
  else if decide (IdentName id = "U") then Some (ObjTypeName tU)
  else None.

Definition use (name : string) (pos : Z) : Node :=
  NIdent {| IdentName := name; NamePos := pos |}.

Definition mkDecl (name : string) (pos : Z) (body : option (list Node))
  : FuncDecl :=
  {| Name := {| IdentName := name; NamePos := pos |}; Body := body |}.

Definition declA : FuncDecl :=
  mkDecl "A" 10
    (Some [NOther [use "B" 11; use "x" 12]; NOther [use "C" 13]; use "T" 14]).
Definition declB : FuncDecl :=
  mkDecl "B" 20 (Some [NOther [use "D" 21]; use "U" 22]).
Definition declC : FuncDecl := mkDecl "C" 30 (Some []).
Definition declD : FuncDecl := mkDecl "D" 40 (Some []).

Definition mkSpec (name : string) (pos : Z) : TypeSpec :=
  {| SpecName := {| IdentName := name; NamePos := pos |} |}.

Definition file : File :=
  {| FilePos := 1; FileEnd := 100;
     Decls := [DFunc declA; DFunc declB; DFunc declC; DFunc declD;
               DType [mkSpec "T" 50]; DType [mkSpec "U" 60]] |}.

Definition printFunc (fn : FuncDecl) : string + string :=
  inl ("func " +:+ IdentName (Name fn) +:+ "()").

Definition printType (specs : list TypeSpec) : string + string :=
  inl ("type " +:+
       concat_strings ((λ ts, IdentName (SpecName ts)) <$> specs)).

Definition pkg : Package :=
  {| PkgPath := "proj"; Types := Some tp; Syntax := [file];
     ObjectOf := objects; FileNameAt := λ _, "proj/a.go";
     formatFuncDecl := printFunc; formatGenDecl := printType |}.

Definition target : AnalysisTarget := {| Pkg := pkg; Fn := declA |}.
End Scenario.

(** [A] calls itself. *)
Module SelfCall.
Import Scenario.
Definition objects (id : Ident) : option Object :=
  if decide (IdentName id = "A") then Some (ObjFunc fA) else None.
Definition declA : FuncDecl := mkDecl "A" 10 (Some [NOther [use "A" 11]]).
Definition file : File :=
  {| FilePos := 1; FileEnd := 100; Decls := [DFunc declA] |}.
Definition pkg : Package :=
  {| PkgPath := "proj"; Types := Some tp; Syntax := [file];
     ObjectOf := objects; FileNameAt := λ _, "proj/a.go";
     formatFuncDecl := printFunc; formatGenDecl := printType |}.
Definition target : AnalysisTarget := {| Pkg := pkg; Fn := declA |}.
End SelfCall.

(** [A] calls [B] and [B] calls [A]. *)
Module TwoCycle.
Import Scenario.
Definition objects (id : Ident) : option Object :=
  if decide (IdentName id = "A") then Some (ObjFunc fA)
  else if decide (IdentName id = "B") then Some (ObjFunc fB)
  else None.
Definition declA : FuncDecl := mkDecl "A" 10 (Some [NOther [use "B" 11]]).
Definition declB : FuncDecl := mkDecl "B" 20 (Some [NOther [use "A" 21]]).
Definition file : File :=
  {| FilePos := 1; FileEnd := 100; Decls := [DFunc declA; DFunc declB] |}.
Definition pkg : Package :=
  {| PkgPath := "proj"; Types := Some tp; Syntax := [file];
     ObjectOf := objects; FileNameAt := λ _, "proj/a.go";
     formatFuncDecl := printFunc; formatGenDecl := printType |}.
Definition target : AnalysisTarget := {| Pkg := pkg; Fn := declA |}.
End TwoCycle.

(** Two packages [app/a] and [app/b], each with a function [Run] and a
    type [Config]; [Main] in [app/a] mentions all four. *)
Module Collision.
Definition tpa : TypesPackage := {| pkg_addr := 1; pkg_path := "app/a" |}.
Definition tpb : TypesPackage := {| pkg_addr := 2; pkg_path := "app/b" |}.

Definition fMain : Func :=
  {| func_pkg := Some tpa; func_name := "Main"; func_recv := None;
     func_pos := 10 |}.
Definition fRunA : Func :=
  {| func_pkg := Some tpa; func_name := "Run"; func_recv := None;
     func_pos := 20 |}.
Definition fRunB : Func :=
  {| func_pkg := Some tpb; func_name := "Run"; func_recv := None;
     func_pos := 120 |}.
Definition tConfigA : TypeName :=
  {| type_pkg := Some tpa; type_name := "Config"; type_pos := 30 |}.
Definition tConfigB : TypeName :=
  {| type_pkg := Some tpb; type_name := "Config"; type_pos := 130 |}.

(** Resolution in [app/a], by position: [Run()], [b.Run()], [Config],
    [b.Config]; the qualifier [b] is a package name. *)
Definition objectsA (id : Ident) : option Object :=
  if decide (NamePos id = 10%Z) then Some (ObjFunc fMain)
  else if decide (NamePos id = 11%Z) then Some (ObjFunc fRunA)
  else if decide (NamePos id = 12%Z) then Some (ObjOther (Some tpa))
  else if decide (NamePos id = 13%Z) then Some (ObjFunc fRunB)
  else if decide (NamePos id = 14%Z) then Some (ObjTypeName tConfigA)
  else if decide (NamePos id = 15%Z) then Some (ObjOther (Some tpa))
  else if decide (NamePos id = 16%Z) then Some (ObjTypeName tConfigB)
  else if decide (NamePos id = 20%Z) then Some (ObjFunc fRunA)
  else None.

Definition objectsB (id : Ident) : option Object :=
  if decide (NamePos id = 120%Z) then Some (ObjFunc fRunB) else None.

Definition declMain : FuncDecl :=
  Scenario.mkDecl "Main" 10
    (Some [NOther [Scenario.use "Run" 11];
           NOther [Scenario.use "b" 12; Scenario.use "Run" 13];
           Scenario.use "Config" 14;
           NOther [Scenario.use "b" 15; Scenario.use "Config" 16]]).
Definition declRunA : FuncDecl := Scenario.mkDecl "Run" 20 (Some []).
Definition declRunB : FuncDecl := Scenario.mkDecl "Run" 120 (Some []).

Definition pkgA : Package :=
  {| PkgPath := "app/a"; Types := Some tpa;
     Syntax := [{| FilePos := 1; FileEnd := 100;
                   Decls := [DFunc declMain; DFunc declRunA;
                             DType [Scenario.mkSpec "Config" 30]] |}];
     ObjectOf := objectsA; FileNameAt := λ _, "app/a/a.go";
     formatFuncDecl := Scenario.printFunc;
     formatGenDecl := Scenario.printType |}.

Definition pkgB : Package :=
  {| PkgPath := "app/b"; Types := Some tpb;
     Syntax := [{| FilePos := 101; FileEnd := 200;
                   Decls := [DFunc declRunB;
                             DType [Scenario.mkSpec "Config" 130]] |}];
     ObjectOf := objectsB; FileNameAt := λ _, "app/b/b.go";
     formatFuncDecl := Scenario.printFunc;
     formatGenDecl := Scenario.printType |}.

Definition target : AnalysisTarget := {| Pkg := pkgA; Fn := declMain |}.
End Collision.

(** A function [Asm] declared without a body (implemented outside Go),
    and a function [A] that calls it. *)
Module NoBody.
Import Scenario.
Definition fAsm : Func := mkFunc "Asm" 20.
Definition objects (id : Ident) : option Object :=
  if decide (IdentName id = "A") then Some (ObjFunc fA)
  else if decide (IdentName id = "Asm") then Some (ObjFunc fAsm)
  else None.
Definition declA : FuncDecl := mkDecl "A" 10 (Some [NOther [use "Asm" 11]]).
Definition declAsm : FuncDecl := mkDecl "Asm" 20 None.
Definition file : File :=
  {| FilePos := 1; FileEnd := 100; Decls := [DFunc declA; DFunc declAsm] |}.
Definition pkg : Package :=
  {| PkgPath := "proj"; Types := Some tp; Syntax := [file];
     ObjectOf := objects; FileNameAt := λ _, "proj/a.go";
     formatFuncDecl := printFunc; formatGenDecl := printType |}.
Definition targetAsm : AnalysisTarget := {| Pkg := pkg; Fn := declAsm |}.
Definition targetA : AnalysisTarget := {| Pkg := pkg; Fn := declA |}.
End NoBody.

(** [A] calls the method [Save] of the interface [Store] and declares a
    variable of the struct type [Config].  The position of [Save] is that
    of a method in the interface type: no function declaration is there. *)
Module InterfaceCall.
Import Scenario.
Definition fSave : Func :=
  {| func_pkg := Some tp; func_name := "Save";
     func_recv := Some (RecvNamed false "Store"); func_pos := 55 |}.
Definition tConfig : TypeName := mkType "Config" 60.
Definition objects (id : Ident) : option Object :=
  if decide (IdentName id = "A") then Some (ObjFunc fA)
  else if decide (IdentName id = "s") then Some (ObjOther (Some tp))
  else if decide (IdentName id = "Save") then Some (ObjFunc fSave)
  else if decide (IdentName id = "Config") then Some (ObjTypeName tConfig)
  else None.
Definition declA : FuncDecl :=
  mkDecl "A" 10
    (Some [NOther [use "c" 11; use "Config" 12];
           NOther [use "s" 13; use "Save" 14]]).
Definition file : File :=
  {| FilePos := 1; FileEnd := 100;
     Decls := [DFunc declA; DType [mkSpec "Store" 50];
               DType [mkSpec "Config" 60]] |}.
Definition pkg : Package :=
  {| PkgPath := "proj"; Types := Some tp; Syntax := [file];
     ObjectOf := objects; FileNameAt := λ _, "proj/a.go";
     formatFuncDecl := printFunc; formatGenDecl := printType |}.
Definition target : AnalysisTarget := {| Pkg := pkg; Fn := declA |}.
End InterfaceCall.

(** The report of [Analyze] on [InterfaceCall], at depth 1. *)
Definition interface_call_report : Report :=
  {| reportName := "A";
     reportDepth := 1;
     reportFile := "proj/a.go";
     targetSnippet := ("func A()", None);
     summaryFuncs := ["(proj.Store).Save"];
     summaryTypes := ["proj.Config"];
     funcBlocks := [];
     typeBlocks := [{| blockName := "proj.Config";
                       blockFile := "proj/a.go";
                       blockSnippet := "type Config" |}] |}.

Definition interface_call_text : string :=
"Analysis for Function: A (depth=1)
Defined in: proj/a.go

--- Target Function Source Code ---
func A()

--- Summary of Dependencies ---
Called Functions/Methods:
- (proj.Store).Save

Referenced Types:
- proj.Config

--- Code Snippets of Dependencies ---

// Source for: proj.Config
// Defined in: proj/a.go
// --------------------------------------------------
type Config
".

(** * Further notions: the visitor, the locator, the target search *)

(** The identifiers below a node, in the order [ast.Walk] meets them. *)
Fixpoint identsOf (n : Node) : list Ident :=
  match n with
  | NIdent id => [id]
  | NOther children => concat (map identsOf children)
  end.

(** What the visitor keeps of one identifier: the object it resolves to,
    when that object has a package whose path is in the project. *)
Definition keptObject (info : Ident → option Object)
    (ProjectPackages : gmap string bool) (id : Ident) : option Object :=
  match info id with
  | Some obj =>
      match Object_Pkg obj with
      | Some pkg => if flag ProjectPackages (pkg_path pkg) then Some obj else None
      | None => None
      end
  | None => None
  end.

Definition keptFunc (info : Ident → option Object)
    (ProjectPackages : gmap string bool) (id : Ident) : option Func :=
  match keptObject info ProjectPackages id with
  | Some (ObjFunc f) => Some f
  | _ => None
  end.

Definition keptType (info : Ident → option Object)
    (ProjectPackages : gmap string bool) (id : Ident) : option TypeName :=
  match keptObject info ProjectPackages id with
  | Some (ObjTypeName t) => Some t
  | _ => None
  end.

(** A file of the package whose extent contains the position. *)
Definition fileAt (p : Package) (pos : Z) (f : File) : Prop :=
  f ∈ Syntax p ∧ (FilePos f ≤ pos)%Z ∧ (pos < FileEnd f)%Z.

(** A task is well formed when its declaration has a body and its name
    resolves to a function or to nothing. *)
Definition runnable (t : AnalysisTarget) : Prop :=
  is_Some (Body (Fn t)) ∧
  (ObjectOf (Pkg t) (Name (Fn t)) = None ∨
   ∃ f, ObjectOf (Pkg t) (Name (Fn t)) = Some (ObjFunc f)).

(** The depth of a task lies between 0 and the bound. *)
Definition depth_in_bound (depth : Z) (t : AnalysisTask) : Prop :=
  (0 ≤ Depth t)%Z ∧ (Depth t ≤ Z.max 0 depth)%Z.

(** ** [FindTarget] *)

(** The first function declaration with the given name. *)
Fixpoint findDeclNamed (funcName : string) (decls : list Decl)
  : option FuncDecl :=
  match decls with
  | [] => None
  | DFunc fn :: rest =>
      if decide (IdentName (Name fn) = funcName) then Some fn
      else findDeclNamed funcName rest
  | _ :: rest => findDeclNamed funcName rest
  end.

(** The loop over [p.GoFiles] from index [i] on.  [p.Syntax[i]] is read
    only for a file whose path is [filePath], and panics when [Syntax] has
    no element [i]. *)
Fixpoint findInFiles (p : Package) (filePath funcName : string) (i : nat)
    (goFiles : list string) : outcome (option FuncDecl) :=
  match goFiles with
  | [] => Done None
  | file :: rest =>
      if decide (file = filePath) then
        match Syntax p !! i with
        | None => Panic "runtime error: index out of range"
        | Some fileAST =>
            match findDeclNamed funcName (Decls fileAST) with
            | Some fn => Done (Some fn)
            | None => findInFiles p filePath funcName (S i) rest
            end
        end
      else findInFiles p filePath funcName (S i) rest
  end.

(** [FindTarget].  A package is given with its [GoFiles], the one field
    that only this function reads.  The result is the target and a nil
    error, or the zero target ([None]) and the error. *)
Fixpoint FindTarget (pkgs : list (list string * Package))
    (filePath funcName : string) : outcome (option AnalysisTarget * error) :=
  match pkgs with
  | [] =>
      Done (None,
            Some ("function '" +:+ funcName +:+ "' not found in file '"
                  +:+ filePath +:+ "'"))
  | (goFiles, p) :: rest =>
      found ← findInFiles p filePath funcName 0 goFiles;
      match found with
      | Some fn => Done (Some {| Pkg := p; Fn := fn |}, None)
      | None => FindTarget rest filePath funcName
      end
  end.

(** ** The order of the queue *)

Definition by_depth (a b : AnalysisTask) : Prop := (Depth a ≤ Depth b)%Z.

(** The queue of a breadth-first traversal: depths never decrease along
    the queue and exceed the depth of the front task by at most one. *)
Definition bfs_window (q : list AnalysisTask) : Prop :=
  StronglySorted by_depth q ∧
  ∀ h t, head q = Some h → t ∈ q → (Depth t ≤ Depth h + 1)%Z.

(** ** The blocks of the report, entry by entry *)

(** The block the loop over the types writes for one entry whose package
    is indexed: none when the snippet is not available. *)
Definition typeBlockOf (typePkgMap : gmap positive Package)
    (entry : string * TypeInfo) : list Block :=
  match lookupPkg typePkgMap (type_pkg (Definition_ entry.2)) with
  | None => []
  | Some p =>
      match getTypeSourceSnippetIn p (Syntax p)
              (type_pos (Definition_ entry.2)) with
      | (snippet, None) =>
          [{| blockName := entry.1;
              blockFile := FileNameAt p (type_pos (Definition_ entry.2));
              blockSnippet := snippet |}]
      | (_, Some _) => []
      end
  end.

(** ** Comparing runs with different bounds *)

(** Two states with the same visited set and the same result sets. *)
Definition same_maps (st1 st2 : state) : Prop :=
  processedFuncs st1 = processedFuncs st2 ∧
  allCalledFuncs st1 = allCalledFuncs st2 ∧
  allReferencedTypes st1 = allReferencedTypes st2.

(** The run with the larger bound is ahead of the run with the bound
    [depth1]: same maps, and the same queue followed by tasks that only
    the larger bound queues; there are such tasks only once the smaller
    run has reached its bound. *)
Definition ahead (depth1 : Z) (st1 st2 : state) : Prop :=
  same_maps st1 st2 ∧
  ∃ extra, queue st2 = queue st1 ++ extra ∧
           (extra ≠ [] → Forall (λ t, (depth1 ≤ Depth t)%Z) (queue st1)).

(** * Reasoning principles *)

Lemma bind_Done {A B : Type} (m : outcome A) (k : A → outcome B) (b : B) :
  m ≫= k = Done b ↔ ∃ a, m = Done a ∧ k a = Done b.
Proof.
  destruct m as [a| |]; simpl; split; try discriminate.
  - intros H. by exists a.
  - by intros (a' & [= ->] & H).
  - by intros (? & [=] & _).
  - by intros (? & [=] & _).
Qed.

Lemma bind_not_OutOfFuel {A B : Type} (m : outcome A) (k : A → outcome B) :
  m ≠ OutOfFuel → (∀ a, m = Done a → k a ≠ OutOfFuel) → m ≫= k ≠ OutOfFuel.
Proof. destruct m; simpl; intros; [auto | discriminate | done]. Qed.

Lemma foldM_cons {A B : Type} (f : B → A → outcome B) (x : A) (xs : list A)
    (b : B) :
  foldM f (x :: xs) b = f b x ≫= foldM f xs.
Proof. reflexivity. Qed.

(** A [range] loop keeps whatever each of its iterations keeps. *)
Lemma foldM_invariant {A B : Type} (f : B → A → outcome B)
    (Q : A → Prop) (P : B → Prop) (xs : list A) :
  (∀ b x b', Q x → P b → f b x = Done b' → P b') →
  Forall Q xs → ∀ b b', P b → foldM f xs b = Done b' → P b'.
Proof.
  intros Hf HQ. induction HQ as [|x xs Hx _ IH]; intros b b' Hb; simpl.
  - by intros [= <-].
  - rewrite bind_Done. intros (b1 & H1 & H2). eauto.
Qed.

Lemma foldM_not_OutOfFuel {A B : Type} (f : B → A → outcome B) (xs : list A) :
  (∀ b x, f b x ≠ OutOfFuel) → ∀ b, foldM f xs b ≠ OutOfFuel.
Proof.
  intros Hf. induction xs as [|x xs IH]; intros b; simpl; [done|].
  apply bind_not_OutOfFuel; auto.
Qed.

(** When no iteration panics the loop returns. *)
Lemma foldM_total {A B : Type} (f : B → A → outcome B)
    (Q : A → Prop) (xs : list A) :
  (∀ b x, Q x → ∃ b', f b x = Done b') →
  Forall Q xs → ∀ b, ∃ b', foldM f xs b = Done b'.
Proof.
  intros Hf HQ. induction HQ as [|x xs Hx _ IH]; intros b; simpl; [eauto|].
  destruct (Hf b x Hx) as [b1 ->]. simpl. apply IH.
Qed.

(** ** The visitor *)

(** [ast.Walk] keeps every property of the collector that [Visit] keeps. *)
Lemma Walk_invariant (info : Ident → option Object) (proj : gmap string bool)
    (P : resultCollector → Prop) :
  (∀ v n, P v → P (Visit info proj v n)) →
  ∀ n v, P v → P (Walk info proj v n).
Proof.
  intros HV. fix IH 1. intros [id|children] v Hv; simpl.
  - apply (HV v (NIdent id) Hv).
  - pose proof (HV v (NOther children) Hv) as Hv'. simpl in Hv'.
    clear Hv. revert v Hv'.
    induction children as [|c cs IHcs]; intros v Hv; simpl; [done|].
    apply IHcs, IH, Hv.
Qed.

Lemma Visit_scoped info proj v n : scoped proj v → scoped proj (Visit info proj v n).
Proof.
  intros [Hf Ht]. destruct n as [id|cs]; simpl; [|done].
  destruct (info id) as [obj|]; [|done].
  destruct (Object_Pkg obj) as [p|] eqn:Hp; [|done].
  destruct (flag proj (pkg_path p)) eqn:Hfl; simpl; [|done].
  destruct obj as [f|t|o]; simpl in *; split; simpl; try done.
  - apply Forall_app; split; [done|]. constructor; [|done]. by exists p.
  - apply Forall_app; split; [done|]. constructor; [|done]. by exists p.
Qed.

Lemma Walk_Body_scoped info proj body c :
  Walk_Body info proj empty_collector body = Done c → scoped proj c.
Proof.
  unfold Walk_Body. destruct body as [stmts|]; [|done]. intros [= <-].
  change (scoped proj (Walk info proj empty_collector (NOther stmts))).
  apply (Walk_invariant info proj (scoped proj)); [apply Visit_scoped|].
  by split.
Qed.

(** ** The project's package set and the package index *)

Lemma projectPackagesOf_flag (pkgs : list Package) (path : string) :
  flag (projectPackagesOf pkgs) path = true ↔ ∃ p, p ∈ pkgs ∧ PkgPath p = path.
Proof.
  unfold projectPackagesOf.
  assert (∀ (m : gmap string bool),
    flag (fold_left (λ m p, <[PkgPath p := true]> m) pkgs m) path = true ↔
    flag m path = true ∨ ∃ p, p ∈ pkgs ∧ PkgPath p = path) as H.
  { induction pkgs as [|p pkgs IH]; intros m; simpl.
    - split; [auto|]. intros [H|(p & Hp & _)]; [done|]. by apply elem_of_nil in Hp.
    - rewrite IH. unfold flag at 1. rewrite lookup_insert. case_decide as Hd; simpl.
      + split; [|auto]. intros _. right. exists p. split; [left|done].
      + split.
        * intros [H|(p' & Hp' & He)]; [by left|]. right. exists p'. split; [by right|done].
        * intros [H|(p' & Hp' & He)]; [by left|].
          apply elem_of_cons in Hp' as [->|Hp']; [done|]. right. by exists p'. }
  rewrite H. unfold flag. rewrite lookup_empty. simpl.
  split; [by intros [?|?]|auto].
Qed.

Lemma typePkgMapOf_elem (pkgs : list Package) (a : positive) (p : Package) :
  typePkgMapOf pkgs !! a = Some p → p ∈ pkgs.
Proof.
  unfold typePkgMapOf.
  assert (∀ (m : gmap positive Package),
    fold_left (λ m p, match Types p with
                      | Some tp => <[pkg_addr tp := p]> m
                      | None => m
                      end) pkgs m !! a = Some p →
    m !! a = Some p ∨ p ∈ pkgs) as H.
  { induction pkgs as [|q pkgs IH]; intros m; simpl; [auto|].
    intros Hl. apply IH in Hl as [Hl|Hl]; [|right; by right].
    destruct (Types q) as [tp|]; [|by left].
    rewrite lookup_insert in Hl. case_decide; [|by left].
    injection Hl as ->. right. left. }
  intros Hl. apply H in Hl as [Hl|Hl]; [|done]. by rewrite lookup_empty in Hl.
Qed.

(** ** The locator *)

Lemma inspectFuncDecl_elem pos decls fn :
  inspectFuncDecl pos decls = Some fn →
  DFunc fn ∈ decls ∧ NamePos (Name fn) = pos.
Proof.
  unfold inspectFuncDecl.
  assert (∀ acc,
    fold_left (λ foundNode d,
       match d with
       | DFunc fn => if (NamePos (Name fn) =? pos)%Z then Some fn else foundNode
       | _ => foundNode
       end) decls acc = Some fn →
    acc = Some fn ∨ (DFunc fn ∈ decls ∧ NamePos (Name fn) = pos)) as H.
  { induction decls as [|d ds IH]; intros acc; simpl; [auto|].
    intros Hf. apply IH in Hf as [Hf|[Hf Hp]]; [|right; split; [by right|done]].
    destruct d as [fn'| |]; try by left.
    destruct (Z.eqb_spec (NamePos (Name fn')) pos) as [He|]; [|by left].
    injection Hf as ->. right. split; [left|done]. }
  intros Hf. by apply H in Hf as [Hf|Hf].
Qed.

Lemma findFuncDeclAt_elem p pos fn :
  findFuncDeclAt p pos = Some fn →
  fn ∈ funcDecls p ∧ NamePos (Name fn) = pos.
Proof.
  unfold findFuncDeclAt, funcDecls.
  induction (Syntax p) as [|f fs IH]; [done|].
  rewrite bind_cons, elem_of_app. simpl. intros Hf.
  destruct ((FilePos f <=? pos)%Z && (pos <? FileEnd f)%Z)%bool;
    [|apply IH in Hf as [? ?]; auto].
  destruct (inspectFuncDecl pos (Decls f)) as [fn'|] eqn:Hi;
    [|apply IH in Hf as [? ?]; auto].
  injection Hf as ->. apply inspectFuncDecl_elem in Hi as [Hi ?]. split; [|done].
  left. apply list_elem_of_bind. exists (DFunc fn). split; [|done]. by left.
Qed.

(** ** The loop body, case by case *)

Section TraversalFacts.
Variable depth : Z.
Variable pkgs : list Package.

Abbreviation proj := (projectPackagesOf pkgs).
Abbreviation tpm := (typePkgMapOf pkgs).

(** What one iteration over a candidate callable does. *)
Lemma recordFunc_spec d called q f called' q' :
  recordFunc depth proj tpm d (called, q) f = Done (called', q') →
  (is_Some (called !! FullName f) ∧ called' = called ∧ q' = q) ∨
  (called !! FullName f = None ∧ called' = <[FullName f := f]> called ∧
   (q' = q ∨
    ((d < depth)%Z ∧ in_scope proj (func_pkg f) ∧ ∃ defPkg defNode,
       lookupPkg tpm (func_pkg f) = Some defPkg ∧
       findFuncDeclAt defPkg (func_pos f) = Some defNode ∧
       q' = q ++ [{| Target := {| Pkg := defPkg; Fn := defNode |};
                     Depth := d + 1 |}]))).
Proof.
  unfold recordFunc.
  destruct (called !! FullName f) as [g|] eqn:Hl.
  { intros [= <- <-]. left. eauto. }
  intros H. right. split; [done|]. revert H.
  destruct (Z.ltb_spec d depth) as [Hd|Hd]; [|intros [= <- <-]; auto].
  destruct (func_pkg f) as [p|]; simpl; [|done].
  destruct (flag proj (pkg_path p)) eqn:Hfl; [|intros [= <- <-]; auto].
  destruct (tpm !! pkg_addr p) as [defPkg|] eqn:Hp; [|intros [= <- <-]; auto].
  destruct (findFuncDeclAt defPkg (func_pos f)) as [defNode|] eqn:Hn;
    intros [= <- <-]; [|auto].
  split; [done|]. right. split; [done|]. split; [by exists p|].
  by exists defPkg, defNode.
Qed.

(** What one iteration over a candidate type does. *)
Lemma recordType_spec types t types' :
  recordType types t = Done types' →
  ∃ key, typeKeyOf t = Done key ∧
    ((is_Some (types !! key) ∧ types' = types) ∨
     (types !! key = None ∧
      types' = <[key := {| TypeInfo_Name := key; Definition_ := t;
                           Snippet := "" |}]> types)).
Proof.
  unfold recordType. rewrite bind_Done. intros (key & Hk & H).
  exists key. split; [done|].
  destruct (types !! key) eqn:Hl; injection H as <-; [left|right]; eauto.
Qed.

Lemma step_spec t rest st st' :
  step depth proj tpm t rest st = Done st' → step_case depth pkgs t rest st st'.
Proof.
  unfold step. fold (resolved t). fold (popped rest st).
  destruct (resolved t) as [[f|ty|o]|] eqn:Hr; try done.
  - destruct (flag (processedFuncs st) (FullName f)) eqn:Hp.
    + intros [= <-]. apply step_discard; [|done]. right. by exists f.
    + unfold expand. rewrite bind_Done. intros (c & Hc & H).
      apply bind_Done in H as ([called q] & Hq & H).
      apply bind_Done in H as (types & Ht & H). injection H as <-.
      by eapply step_expand.
  - intros [= <-]. apply step_discard; [by left|done].
Qed.

Lemma step_not_OutOfFuel t rest st :
  step depth proj tpm t rest st ≠ OutOfFuel.
Proof.
  unfold step. destruct (ObjectOf _ _) as [[f|ty|o]|]; try done.
  destruct (flag _ _); [done|]. unfold expand.
  apply bind_not_OutOfFuel.
  { unfold Walk_Body. by destruct (Body _). }
  intros c _. apply bind_not_OutOfFuel.
  { apply foldM_not_OutOfFuel. intros [called q] f'. unfold recordFunc.
    destruct (called !! _); [done|]. destruct (_ <? _)%Z; [|done].
    destruct (func_pkg f'); simpl; [|done].
    destruct (flag _ _); [|done]. destruct (tpm !! _); [|done].
    by destruct (findFuncDeclAt _ _). }
  intros [called q] _. apply bind_not_OutOfFuel; [|done].
  apply foldM_not_OutOfFuel. intros types ty. unfold recordType, typeKeyOf.
  destruct (type_pkg ty); simpl; [|done]. by destruct (types !! _).
Qed.

(** The loop keeps whatever its body keeps. *)
Lemma loop_invariant (I : state → Prop) :
  (∀ t rest st st',
      queue st = t :: rest → I st → step_case depth pkgs t rest st st' → I st') →
  ∀ fuel st st', I st → loop depth proj tpm fuel st = Done st' → I st'.
Proof.
  intros Hstep. induction fuel as [|fuel IH]; intros st st' HI; simpl.
  - destruct (queue st); [by intros [= <-]|done].
  - destruct (queue st) as [|t rest] eqn:Hq; [by intros [= <-]|].
    rewrite bind_Done. intros (st1 & H1 & H2).
    eapply IH; [|done]. eapply Hstep; [done|done|]. by apply step_spec.
Qed.

Lemma loop_queue_empty fuel st st' :
  loop depth proj tpm fuel st = Done st' → queue st' = [].
Proof.
  revert st. induction fuel as [|fuel IH]; intros st; simpl.
  - destruct (queue st) eqn:Hq; [by intros [= <-]|done].
  - destruct (queue st) as [|t rest] eqn:Hq; [by intros [= <-]|].
    rewrite bind_Done. intros (st1 & _ & H2). eauto.
Qed.
End TraversalFacts.

(** ** Termination of the work-list loop *)

Section Termination.
Variable depth : Z.
Variable pkgs : list Package.
Variable initialTarget : AnalysisTarget.

Abbreviation proj := (projectPackagesOf pkgs).
Abbreviation tpm := (typePkgMapOf pkgs).
Abbreviation U := (candidateKeys initialTarget pkgs).

Abbreviation known := (known_task initialTarget pkgs).
Abbreviation measure := (missing_measure initialTarget pkgs).

Lemma known_candidates t c :
  known t →
  Walk_Body (ObjectOf (Pkg (Target t))) proj empty_collector
    (Body (Fn (Target t))) = Done c →
  Forall (λ f, FullName f ∈ U) (CalledFuncs c).
Proof.
  intros Hk Hw. apply Forall_forall. intros f Hf.
  unfold candidateKeys. apply elem_of_list_to_set, list_elem_of_fmap.
  exists f. split; [done|]. apply list_elem_of_bind. exists (Target t).
  split; [|done]. unfold bodyFuncs, Walk_Body in *.
  destruct (Body (Fn (Target t))); [|done]. by injection Hw as <-.
Qed.

Lemma located_known f defPkg defNode d :
  lookupPkg tpm (func_pkg f) = Some defPkg →
  findFuncDeclAt defPkg (func_pos f) = Some defNode →
  known {| Target := {| Pkg := defPkg; Fn := defNode |}; Depth := d |}.
Proof.
  intros Hp Hn. unfold known_task. simpl. right.
  unfold lookupPkg in Hp. destruct (func_pkg f) as [p|]; [|done].
  apply typePkgMapOf_elem in Hp. apply findFuncDeclAt_elem in Hn as [Hn _].
  unfold projectTargets. apply list_elem_of_bind. exists defPkg. split; [|done].
  apply list_elem_of_bind. exists defNode. split; [left|done].
Qed.

Lemma size_missing_insert (k : string) (D : gset string) :
  k ∈ U → k ∉ D → size (U ∖ D) = S (size (U ∖ ({[k]} ∪ D))).
Proof.
  intros HU HD.
  assert (U ∖ D = {[k]} ∪ U ∖ ({[k]} ∪ D)) as ->.
  { apply set_eq. intros x. destruct (decide (x = k)) as [->|]; set_solver. }
  rewrite size_union; [|set_solver]. by rewrite size_singleton.
Qed.

Lemma recordFunc_measure d called q f called' q' :
  FullName f ∈ U →
  recordFunc depth proj tpm d (called, q) f = Done (called', q') →
  length q' + size (U ∖ dom called') ≤ length q + size (U ∖ dom called).
Proof.
  intros HU H. apply recordFunc_spec in H as [(_ & -> & ->)|(Hn & -> & Hq)];
    [done|].
  rewrite dom_insert_L.
  rewrite (size_missing_insert (FullName f) (dom called));
    [|done|by apply not_elem_of_dom].
  destruct Hq as [->|(_ & _ & defPkg & defNode & _ & _ & ->)]; [lia|].
  rewrite length_app. simpl. lia.
Qed.

Lemma recordFunc_known d called q f called' q' :
  Forall known q →
  recordFunc depth proj tpm d (called, q) f = Done (called', q') →
  Forall known q'.
Proof.
  intros Hk H. apply recordFunc_spec in H as [(_ & _ & ->)|(_ & _ & Hq)];
    [done|].
  destruct Hq as [->|(_ & _ & defPkg & defNode & Hp & Hn & ->)]; [done|].
  apply Forall_app. split; [done|]. constructor; [|done].
  by eapply located_known.
Qed.

(** One iteration of the loop keeps the queue within the known targets
    and lowers the measure. *)
Lemma step_case_measure t rest st st' :
  queue st = t :: rest → Forall known (queue st) →
  step_case depth pkgs t rest st st' →
  Forall known (queue st') ∧ measure st' < measure st.
Proof.
  intros Hq Hk Hs. rewrite Hq in Hk. apply Forall_cons in Hk as [Ht Hrest].
  unfold missing_measure. rewrite Hq. simpl.
  destruct Hs as [_ ->|f c called q types _ _ Hw Hf _ ->]; simpl.
  { split; [done|lia]. }
  pose proof (known_candidates t c Ht Hw) as Hc.
  assert (Forall known q ∧
          length q + size (U ∖ dom called)
            ≤ length rest + size (U ∖ dom (allCalledFuncs st))) as [Hk' Hm'].
  { refine (foldM_invariant (recordFunc depth proj tpm (Depth t))
      (λ f, FullName f ∈ U)
      (λ acc, Forall known acc.2 ∧
              length acc.2 + size (U ∖ dom acc.1)
                ≤ length rest + size (U ∖ dom (allCalledFuncs st)))
      (CalledFuncs c) _ Hc (allCalledFuncs st, rest) (called, q) _ Hf).
    - intros [c1 q1] f1 [c2 q2] HU [Hk1 Hm1] Hr. simpl in *. split.
      + by eapply recordFunc_known.
      + pose proof (recordFunc_measure _ _ _ _ _ _ HU Hr). lia.
    - simpl. split; [done|lia]. }
  split; [done|lia].
Qed.

(** With a budget of at least the measure the loop does not run out. *)
Lemma loop_enough_fuel fuel st :
  Forall known (queue st) → measure st ≤ fuel →
  loop depth proj tpm fuel st ≠ OutOfFuel.
Proof.
  revert st. induction fuel as [|fuel IH]; intros st Hk Hm; simpl.
  - destruct (queue st) eqn:Hq; [done|]. unfold missing_measure in Hm.
    rewrite Hq in Hm. simpl in Hm. lia.
  - destruct (queue st) as [|t rest] eqn:Hq; [done|].
    apply bind_not_OutOfFuel; [apply step_not_OutOfFuel|].
    intros st1 H1. apply step_spec in H1. rewrite <- Hq in Hk.
    destruct (step_case_measure t rest st st1 Hq Hk H1) as [Hk1 Hm1].
    apply IH; [done|lia].
Qed.

(** Once the loop returns or panics, a larger budget changes nothing. *)
Lemma loop_fuel_mono fuel fuel' st :
  fuel ≤ fuel' → loop depth proj tpm fuel st ≠ OutOfFuel →
  loop depth proj tpm fuel' st = loop depth proj tpm fuel st.
Proof.
  revert fuel' st. induction fuel as [|fuel IH]; intros fuel' st Hle; simpl.
  - destruct (queue st) eqn:Hq; [|done]. intros _.
    destruct fuel'; simpl; by rewrite Hq.
  - destruct (queue st) as [|t rest] eqn:Hq.
    { intros _. destruct fuel'; simpl; by rewrite Hq. }
    destruct fuel' as [|fuel']; [lia|]. simpl. rewrite Hq.
    destruct (step depth proj tpm t rest st) as [st1| |]; simpl; [|done|done].
    intros H. apply IH; [lia|done].
Qed.

Lemma initial_measure :
  measure (initial_state initialTarget) = traversalBound initialTarget pkgs.
Proof.
  unfold missing_measure, traversalBound, initial_state. simpl.
  rewrite dom_empty_L. by rewrite difference_empty_L.
Qed.

Lemma initial_known : Forall known (queue (initial_state initialTarget)).
Proof. constructor; [|done]. unfold known_task. simpl. left. Qed.

Lemma loop_terminates fuel :
  traversalBound initialTarget pkgs ≤ fuel →
  loop depth proj tpm fuel (initial_state initialTarget) ≠ OutOfFuel.
Proof.
  intros Hle. apply loop_enough_fuel; [apply initial_known|].
  by rewrite initial_measure.
Qed.
End Termination.

(** ** What the loop keeps *)

Section Invariants.
Variable depth : Z.
Variable pkgs : list Package.

Abbreviation proj := (projectPackagesOf pkgs).
Abbreviation tpm := (typePkgMapOf pkgs).

Lemma flag_insert_true (m : gmap string bool) (k k' : string) :
  flag m k' = true → flag (<[k := true]> m) k' = true.
Proof.
  unfold flag. rewrite lookup_insert. by case_decide.
Qed.

Lemma extends_refl st : extends st st.
Proof. by split. Qed.

Lemma extends_trans st1 st2 st3 :
  extends st1 st2 → extends st2 st3 → extends st1 st3.
Proof.
  intros (Hp & Hc & Ht) (Hp' & Hc' & Ht'). split; [auto|].
  split; etrans; done.
Qed.

Lemma recordFunc_subseteq d called q f called' q' :
  recordFunc depth proj tpm d (called, q) f = Done (called', q') →
  called ⊆ called'.
Proof.
  intros H. apply recordFunc_spec in H as [(_ & -> & _)|(Hn & -> & _)];
    [done|]. by apply insert_subseteq.
Qed.

Lemma recordFunc_dom d called q f called' q' :
  recordFunc depth proj tpm d (called, q) f = Done (called', q') →
  dom called' = {[FullName f]} ∪ dom called.
Proof.
  intros H. apply recordFunc_spec in H as [(Hs & -> & _)|(Hn & -> & _)].
  - apply elem_of_dom in Hs. set_solver.
  - by rewrite dom_insert_L.
Qed.

Lemma recordFuncs_subseteq d fs called q called' q' :
  foldM (recordFunc depth proj tpm d) fs (called, q) = Done (called', q') →
  called ⊆ called'.
Proof.
  intros H.
  refine (foldM_invariant (recordFunc depth proj tpm d) (λ _, True)
    (λ acc, called ⊆ acc.1) fs _ _ (called, q) (called', q') _ H);
    [|by apply Forall_true|done].
  intros [c1 q1] f [c2 q2] _ Hc Hr. simpl in *.
  etrans; [done|]. by eapply recordFunc_subseteq.
Qed.

Lemma recordFuncs_dom d fs called q called' q' :
  foldM (recordFunc depth proj tpm d) fs (called, q) = Done (called', q') →
  dom called' = list_to_set (FullName <$> fs) ∪ dom called.
Proof.
  revert called q. induction fs as [|f fs IH]; intros called q; simpl.
  - intros [= <- <-]. set_solver.
  - rewrite bind_Done. intros ([c1 q1] & H1 & H2).
    apply IH in H2. apply recordFunc_dom in H1. set_solver.
Qed.

Lemma recordType_key t key : typeKeyOf t = Done key → key = typeKey t.
Proof.
  unfold typeKeyOf, typeKey, Path. destruct (type_pkg t); simpl; [|done].
  by intros [= <-].
Qed.

Lemma recordType_subseteq types t types' :
  recordType types t = Done types' → types ⊆ types'.
Proof.
  intros H. apply recordType_spec in H as (key & _ & [(_ & ->)|(Hn & ->)]);
    [done|]. by apply insert_subseteq.
Qed.

Lemma recordType_dom types t types' :
  recordType types t = Done types' →
  dom types' = {[typeKey t]} ∪ dom types.
Proof.
  intros H. apply recordType_spec in H as (key & Hk & [(Hs & ->)|(Hn & ->)]);
    apply recordType_key in Hk as ->.
  - apply elem_of_dom in Hs. set_solver.
  - by rewrite dom_insert_L.
Qed.

Lemma recordTypes_subseteq ts types types' :
  foldM recordType ts types = Done types' → types ⊆ types'.
Proof.
  intros H.
  refine (foldM_invariant recordType (λ _, True) (λ acc, types ⊆ acc) ts
    _ _ types types' _ H); [|by apply Forall_true|done].
  intros t1 t t2 _ Hc Hr. etrans; [done|]. by eapply recordType_subseteq.
Qed.

Lemma recordTypes_dom ts types types' :
  foldM recordType ts types = Done types' →
  dom types' = list_to_set (typeKey <$> ts) ∪ dom types.
Proof.
  revert types. induction ts as [|t ts IH]; intros types; simpl.
  - intros [= <-]. set_solver.
  - rewrite bind_Done. intros (t1 & H1 & H2).
    apply IH in H2. apply recordType_dom in H1. set_solver.
Qed.

(** Nothing visited or recorded is ever lost. *)
Lemma step_case_extends t rest st st' :
  step_case depth pkgs t rest st st' → extends st st'.
Proof.
  intros [_ ->|f c called q types _ _ _ Hf Ht ->]; [by split|].
  split; [|split]; simpl.
  - intros k. apply flag_insert_true.
  - by eapply recordFuncs_subseteq.
  - by eapply recordTypes_subseteq.
Qed.

Lemma loop_extends fuel st st' :
  loop depth proj tpm fuel st = Done st' → extends st st'.
Proof.
  apply (loop_invariant depth pkgs (λ s, extends st s)); [|apply extends_refl].
  intros t rest s s' _ He Hs. eapply extends_trans; [done|].
  by eapply step_case_extends.
Qed.

(** Recorded callables and types are in scope, under their own names. *)
Lemma recordFunc_called_ok d called q f called' q' :
  in_scope proj (func_pkg f) → called_ok proj called →
  recordFunc depth proj tpm d (called, q) f = Done (called', q') →
  called_ok proj called'.
Proof.
  intros Hs Hok H. apply recordFunc_spec in H as [(_ & -> & _)|(Hn & -> & _)];
    [done|].
  intros k g. rewrite lookup_insert. case_decide as Hk; [|apply Hok].
  by intros [= <-].
Qed.

Lemma recordType_types_ok types t types' :
  in_scope proj (type_pkg t) → types_ok proj types →
  recordType types t = Done types' → types_ok proj types'.
Proof.
  intros Hs Hok H.
  apply recordType_spec in H as (key & Hk & [(_ & ->)|(Hn & ->)]); [done|].
  apply recordType_key in Hk as ->.
  intros k ti. rewrite lookup_insert. case_decide as Hk; [|apply Hok].
  by intros [= <-].
Qed.

Lemma step_case_results_ok t rest st st' :
  step_case depth pkgs t rest st st' →
  called_ok proj (allCalledFuncs st) ∧ types_ok proj (allReferencedTypes st) →
  called_ok proj (allCalledFuncs st') ∧ types_ok proj (allReferencedTypes st').
Proof.
  intros [_ ->|f c called q types _ _ Hw Hf Ht ->] [Hc Hty]; [done|]. simpl.
  apply Walk_Body_scoped in Hw as [Hsf Hst]. split.
  - refine (foldM_invariant (recordFunc depth proj tpm (Depth t)) _
      (λ acc, called_ok proj acc.1) (CalledFuncs c) _ Hsf
      (allCalledFuncs st, rest) (called, q) Hc Hf).
    intros [c1 q1] g [c2 q2] Hg Hc1 Hr. by eapply recordFunc_called_ok.
  - refine (foldM_invariant recordType _ (types_ok proj) (ReferencedTypes c)
      _ Hst (allReferencedTypes st) types Hty Ht).
    intros t1 ty t2 Hg Hc1 Hr. by eapply recordType_types_ok.
Qed.

Lemma loop_results_ok fuel st st' :
  called_ok proj (allCalledFuncs st) → types_ok proj (allReferencedTypes st) →
  loop depth proj tpm fuel st = Done st' →
  called_ok proj (allCalledFuncs st') ∧ types_ok proj (allReferencedTypes st').
Proof.
  intros Hc Ht.
  apply (loop_invariant depth pkgs
    (λ s, called_ok proj (allCalledFuncs s) ∧
          types_ok proj (allReferencedTypes s))); [|done].
  intros t rest s s' _ Hs Hstep. by eapply step_case_results_ok.
Qed.
End Invariants.

(** ** The expansions of a run *)

Section Expansions.
Variable depth : Z.
Variable pkgs : list Package.
Variable initialTarget : AnalysisTarget.

Abbreviation proj := (projectPackagesOf pkgs).
Abbreviation tpm := (typePkgMapOf pkgs).
Abbreviation origin := (origin_ok initialTarget pkgs).

Lemma expansions_step fuel st t rest st1 :
  queue st = t :: rest → step depth proj tpm t rest st = Done st1 →
  expansions depth proj tpm (S fuel) st =
    match expandedKey t st with Some k => [(k, t)] | None => [] end
    ++ expansions depth proj tpm fuel st1.
Proof. intros Hq Hs. simpl. by rewrite Hq, Hs. Qed.

Lemma expansions_elem fuel st e :
  e ∈ expansions depth proj tpm (S fuel) st →
  ∃ t rest st1, queue st = t :: rest ∧
    step depth proj tpm t rest st = Done st1 ∧
    ((expandedKey t st = Some e.1 ∧ e.2 = t) ∨
     e ∈ expansions depth proj tpm fuel st1).
Proof.
  intros He. simpl in He.
  destruct (queue st) as [|t rest] eqn:Hq; [by apply elem_of_nil in He|].
  destruct (step depth proj tpm t rest st) as [st1| |] eqn:Hs;
    [|by apply elem_of_nil in He..].
  exists t, rest, st1. split; [done|]. split; [done|].
  apply elem_of_app in He as [He|He]; [left|by right].
  destruct (expandedKey t st) as [k|]; [|by apply elem_of_nil in He].
  apply list_elem_of_singleton in He as ->. done.
Qed.

(** An expansion marks its identity visited. *)
Lemma step_case_expandedKey t rest st st' k :
  step_case depth pkgs t rest st st' → expandedKey t st = Some k →
  flag (processedFuncs st') k = true ∧
  ∃ f, resolved t = Some (ObjFunc f) ∧ k = FullName f.
Proof.
  unfold expandedKey.
  intros [[Hr|(f & Hr & Hfl)] ->|f c called q types Hr Hfl _ _ _ ->];
    rewrite Hr; [done|by rewrite Hfl|]. rewrite Hfl. intros [= <-]. simpl.
  split; [|by exists f]. unfold flag. by rewrite lookup_insert_eq.
Qed.

(** Every identity in the log was not yet visited when the run began. *)
Lemma expansions_unvisited fuel st e :
  e ∈ expansions depth proj tpm fuel st →
  flag (processedFuncs st) e.1 = false.
Proof.
  revert st. induction fuel as [|fuel IH]; intros st.
  { simpl. destruct (queue st); by intros ?%elem_of_nil. }
  intros (t & rest & st1 & Hq & Hs & [[Hk _]|He])%expansions_elem.
  - unfold expandedKey in Hk. destruct (resolved t) as [[f| |]|]; try done.
    destruct (flag (processedFuncs st) (FullName f)) eqn:Hfl; [done|].
    by injection Hk as <-.
  - apply IH in He. apply step_spec, step_case_extends in Hs as [Hp _].
    destruct (flag (processedFuncs st) e.1) eqn:Hfl; [|done].
    apply Hp in Hfl. congruence.
Qed.

(** No identity is expanded twice. *)
Lemma expansions_NoDup fuel st :
  NoDup (expansions depth proj tpm fuel st).*1.
Proof.
  revert st. induction fuel as [|fuel IH]; intros st.
  { simpl. destruct (queue st); constructor. }
  destruct (queue st) as [|t rest] eqn:Hq; [simpl; rewrite Hq; constructor|].
  destruct (step depth proj tpm t rest st) as [st1| |] eqn:Hs;
    [|simpl; rewrite Hq, Hs; constructor..].
  rewrite (expansions_step fuel st t rest st1 Hq Hs).
  destruct (expandedKey t st) as [k|] eqn:Hk; simpl; [|apply IH].
  constructor; [|apply IH]. intros (e & -> & He)%list_elem_of_fmap.
  apply expansions_unvisited in He.
  apply step_spec in Hs.
  destruct (step_case_expandedKey t rest st st1 e.1 Hs Hk) as [Hfl _].
  congruence.
Qed.

(** Every logged identity is visited in the final state, and belongs to
    the callable the task's declaration resolves to. *)
Lemma expansions_marked fuel st st' e :
  loop depth proj tpm fuel st = Done st' →
  e ∈ expansions depth proj tpm fuel st →
  flag (processedFuncs st') e.1 = true ∧
  ∃ f, resolved e.2 = Some (ObjFunc f) ∧ e.1 = FullName f.
Proof.
  revert st. induction fuel as [|fuel IH]; intros st.
  { simpl. destruct (queue st); by intros _ ?%elem_of_nil. }
  intros Hl (t & rest & st1 & Hq & Hs & He)%expansions_elem.
  simpl in Hl. rewrite Hq, Hs in Hl. simpl in Hl.
  destruct He as [[Hk ->]|He]; [|by eapply IH].
  apply step_spec in Hs.
  destruct (step_case_expandedKey t rest st st1 e.1 Hs Hk) as [Hfl Hf].
  split; [|done]. apply loop_extends in Hl as [Hp _]. by apply Hp.
Qed.

Lemma origin_weaken called called' t :
  called ⊆ called' → origin called t → origin called' t.
Proof.
  intros Hsub [->|(f & Hf & Hrest)]; [by left|]. right. exists f.
  split; [|done]. by eapply lookup_weaken.
Qed.

Lemma recordFunc_origin d called q f called' q' :
  Forall (origin called) q →
  recordFunc depth proj tpm d (called, q) f = Done (called', q') →
  Forall (origin called') q'.
Proof.
  intros Hq H. pose proof (recordFunc_subseteq _ _ _ _ _ _ _ _ H) as Hsub.
  assert (Forall (origin called') q) as Hq'.
  { eapply Forall_impl; [done|]. intros t. by apply origin_weaken. }
  apply recordFunc_spec in H as [(_ & _ & ->)|(_ & -> & Hcase)]; [done|].
  destruct Hcase as [->|(_ & Hsc & defPkg & defNode & Hp & Hn & ->)]; [done|].
  apply Forall_app. split; [done|]. constructor; [|done]. right.
  exists f. simpl. split; [by rewrite lookup_insert_eq|done].
Qed.

(** Every queued task is the initial one or was queued for a recorded
    callable. *)
Lemma step_case_origin t rest st st' :
  queue st = t :: rest →
  Forall (origin (allCalledFuncs st)) (queue st) →
  step_case depth pkgs t rest st st' →
  Forall (origin (allCalledFuncs st')) (queue st').
Proof.
  intros Hq Ho Hs. rewrite Hq in Ho. apply Forall_cons in Ho as [_ Ho].
  destruct Hs as [_ ->|f c called q types _ _ _ Hf _ ->]; [done|]. simpl.
  refine (foldM_invariant (recordFunc depth proj tpm (Depth t)) (λ _, True)
    (λ acc, Forall (origin acc.1) acc.2) (CalledFuncs c) _ _
    (allCalledFuncs st, rest) (called, q) Ho Hf); [|by apply Forall_true].
  intros [c1 q1] g [c2 q2] _ Hc1 Hr. by eapply recordFunc_origin.
Qed.

Lemma expansions_origin fuel st st' e :
  Forall (origin (allCalledFuncs st)) (queue st) →
  loop depth proj tpm fuel st = Done st' →
  e ∈ expansions depth proj tpm fuel st →
  origin (allCalledFuncs st') e.2.
Proof.
  revert st. induction fuel as [|fuel IH]; intros st.
  { simpl. destruct (queue st); by intros _ _ ?%elem_of_nil. }
  intros Ho Hl (t & rest & st1 & Hq & Hs & He)%expansions_elem.
  simpl in Hl. rewrite Hq, Hs in Hl. simpl in Hl. apply step_spec in Hs.
  destruct He as [[Hk ->]|He].
  - rewrite Hq in Ho. apply Forall_cons in Ho as [Ho _].
    eapply origin_weaken; [|done].
    etrans; [eapply step_case_extends, Hs|]. by eapply loop_extends.
  - eapply IH; [|done|done]. by eapply step_case_origin.
Qed.

Lemma queued_for_in_project called t :
  queued_for pkgs called t →
  Pkg (Target t) ∈ pkgs ∧ flag proj (PkgPath (Pkg (Target t))) = true.
Proof.
  intros (f & _ & _ & Hp & _). unfold lookupPkg in Hp.
  destruct (func_pkg f) as [p|]; [|done].
  apply typePkgMapOf_elem in Hp. split; [done|].
  apply projectPackagesOf_flag. eauto.
Qed.
End Expansions.

(** * The properties of the traversal *)

Lemma performRecursiveAnalysisFuel_Done fuel initialTarget depth pkgs r e :
  performRecursiveAnalysisFuel fuel initialTarget depth pkgs = Done (r, e) →
  e = None ∧
  ∃ st', loop depth (projectPackagesOf pkgs) (typePkgMapOf pkgs) fuel
           (initial_state initialTarget) = Done st' ∧
         queue st' = [] ∧
         res_CalledFuncs r = allCalledFuncs st' ∧
         res_ReferencedTypes r = allReferencedTypes st'.
Proof.
  unfold performRecursiveAnalysisFuel. rewrite bind_Done.
  intros (st' & Hl & [= <- <-]). split; [done|]. exists st'.
  split; [done|]. split; [by eapply loop_queue_empty|done].
Qed.

Lemma performRecursiveAnalysis_enough_fuel fuel initialTarget depth pkgs :
  traversalBound initialTarget pkgs ≤ fuel →
  performRecursiveAnalysisFuel fuel initialTarget depth pkgs
  = performRecursiveAnalysis initialTarget depth pkgs.
Proof.
  intros Hle. unfold performRecursiveAnalysis, performRecursiveAnalysisFuel.
  rewrite (loop_fuel_mono depth pkgs (traversalBound initialTarget pkgs) fuel);
    [done|done|]. by apply loop_terminates.
Qed.

Lemma performRecursiveAnalysis_not_OutOfFuel initialTarget depth pkgs :
  performRecursiveAnalysis initialTarget depth pkgs ≠ OutOfFuel.
Proof.
  unfold performRecursiveAnalysis, performRecursiveAnalysisFuel.
  apply bind_not_OutOfFuel; [|done]. by apply loop_terminates.
Qed.

(** ** Visiting orders of a map *)

Lemma range_order_names {V : Type} (m : gmap string V) kvs :
  range_order m kvs → kvs.*1 ≡ₚ (map_to_list m).*1.
Proof. unfold range_order. by intros ->. Qed.

Lemma range_order_NoDup {V : Type} (m : gmap string V) kvs :
  range_order m kvs → NoDup kvs.*1.
Proof.
  intros ->%range_order_names. apply NoDup_fst_map_to_list.
Qed.

Lemma range_order_elem {V : Type} (m : gmap string V) kvs k :
  range_order m kvs → k ∈ kvs.*1 ↔ k ∈ dom m.
Proof.
  intros ->%range_order_names. rewrite elem_of_dom, list_elem_of_fmap.
  split.
  - intros ([k' v] & -> & Hkv). apply elem_of_map_to_list in Hkv. eauto.
  - intros [v Hv]. exists (k, v). split; [done|]. by apply elem_of_map_to_list.
Qed.

Lemma range_order_exists {V : Type} (m : gmap string V) :
  range_order m (map_to_list m).
Proof. unfold range_order. reflexivity. Qed.

Lemma ExtractCalledFuncs_inv target depth pkgs names e :
  ExtractCalledFuncs target depth pkgs (names, e) →
  e = None ∧
  ∃ r kvs, performRecursiveAnalysis target depth pkgs = Done (r, None) ∧
           range_order (res_CalledFuncs r) kvs ∧ names = kvs.*1.
Proof.
  unfold ExtractCalledFuncs.
  destruct (performRecursiveAnalysis target depth pkgs) as [[r e']| |] eqn:Hp;
    [|done..].
  destruct (performRecursiveAnalysisFuel_Done _ _ _ _ _ _ Hp) as [-> _].
  intros (kvs & Ho & [= -> ->]). split; [done|]. by exists r, kvs.
Qed.

Lemma ExtractTypes_inv target depth pkgs names e :
  ExtractTypes target depth pkgs (names, e) →
  e = None ∧
  ∃ r kvs, performRecursiveAnalysis target depth pkgs = Done (r, None) ∧
           range_order (res_ReferencedTypes r) kvs ∧ names = kvs.*1.
Proof.
  unfold ExtractTypes.
  destruct (performRecursiveAnalysis target depth pkgs) as [[r e']| |] eqn:Hp;
    [|done..].
  destruct (performRecursiveAnalysisFuel_Done _ _ _ _ _ _ Hp) as [-> _].
  intros (kvs & Ho & [= -> ->]). split; [done|]. by exists r, kvs.
Qed.

(** ** Termination and cycles *)

Lemma step_visited_discarded depth pkgs t rest st f :
  resolved t = Some (ObjFunc f) →
  flag (processedFuncs st) (FullName f) = true →
  step depth (projectPackagesOf pkgs) (typePkgMapOf pkgs) t rest st
  = Done (popped rest st).
Proof. unfold step, resolved. by intros -> ->. Qed.

(** C4. Termination and cycle safety.  For every project, target and depth
    bound the traversal ends (it returns or panics; the budget is never
    exhausted, and any larger budget gives the same outcome).  No callable
    identity is expanded twice in a run, whatever the call graph: a popped
    task whose identity is already visited is discarded without any other
    change, and the visited set only grows.  Every name in the list of
    called functions occurs once. *)
Theorem termination_and_cycle_safety
    (initialTarget : AnalysisTarget) (depth : Z) (pkgs : list Package) :
  performRecursiveAnalysis initialTarget depth pkgs ≠ OutOfFuel ∧
  (∀ fuel, traversalBound initialTarget pkgs ≤ fuel →
     performRecursiveAnalysisFuel fuel initialTarget depth pkgs
     = performRecursiveAnalysis initialTarget depth pkgs) ∧
  (∀ fuel,
     NoDup (expansions depth (projectPackagesOf pkgs) (typePkgMapOf pkgs)
              fuel (initial_state initialTarget)).*1) ∧
  (∀ t rest st f,
     resolved t = Some (ObjFunc f) →
     flag (processedFuncs st) (FullName f) = true →
     step depth (projectPackagesOf pkgs) (typePkgMapOf pkgs) t rest st
     = Done (popped rest st)) ∧
  (∀ fuel st st' k,
     loop depth (projectPackagesOf pkgs) (typePkgMapOf pkgs) fuel st
     = Done st' →
     flag (processedFuncs st) k = true → flag (processedFuncs st') k = true) ∧
  (∀ names e,
     ExtractCalledFuncs initialTarget depth pkgs (names, e) → NoDup names).
Proof.
  split; [apply performRecursiveAnalysis_not_OutOfFuel|].
  split; [intros fuel; apply performRecursiveAnalysis_enough_fuel|].
  split; [intros fuel; apply expansions_NoDup|].
  split; [intros t rest st f; apply step_visited_discarded|].
  split.
  - intros fuel st st' k Hl. apply loop_extends in Hl as [Hp _]. apply Hp.
  - intros names e (_ & r & kvs & _ & Ho & ->)%ExtractCalledFuncs_inv.
    by eapply range_order_NoDup.
Qed.

(** A function that calls itself: one expansion, one entry. *)
Example self_call_once :
  (expansions 3 (projectPackagesOf [SelfCall.pkg])
     (typePkgMapOf [SelfCall.pkg]) 5 (initial_state SelfCall.target)).*1
  = ["proj.A"] ∧
  ExtractCalledFuncs SelfCall.target 3 [SelfCall.pkg] (["proj.A"], None).
Proof.
  split; [by vm_compute|]. unfold ExtractCalledFuncs.
  assert (performRecursiveAnalysis SelfCall.target 3 [SelfCall.pkg]
          = Done ({| res_CalledFuncs := {["proj.A" := Scenario.fA]};
                     res_ReferencedTypes := ∅ |}, None)) as ->
    by by vm_compute.
  eexists. split; [apply range_order_exists|].
  simpl. by rewrite map_to_list_singleton.
Qed.

(** The cycle [A → B → A]: each is expanded once and listed once. *)
Example two_cycle_once :
  (expansions 3 (projectPackagesOf [TwoCycle.pkg])
     (typePkgMapOf [TwoCycle.pkg]) 5 (initial_state TwoCycle.target)).*1
  = ["proj.A"; "proj.B"] ∧
  ∃ r, performRecursiveAnalysis TwoCycle.target 3 [TwoCycle.pkg]
       = Done (r, None) ∧
       dom (res_CalledFuncs r) = {["proj.A"; "proj.B"]}.
Proof.
  split; [by vm_compute|]. eexists. split; by vm_compute.
Qed.

(** The theorem at the two-cycle project. *)
Lemma termination_and_cycle_safety_witness :
  performRecursiveAnalysis TwoCycle.target 3 [TwoCycle.pkg] ≠ OutOfFuel ∧
  NoDup (expansions 3 (projectPackagesOf [TwoCycle.pkg])
           (typePkgMapOf [TwoCycle.pkg]) 5
           (initial_state TwoCycle.target)).*1.
Proof.
  destruct (termination_and_cycle_safety TwoCycle.target 3 [TwoCycle.pkg])
    as (H1 & _ & H3 & _).
  split; [exact H1|exact (H3 5)].
Defined.

(** ** Scope *)

Lemma in_scope_in_project pkgs pkg :
  in_scope (projectPackagesOf pkgs) pkg ↔ in_project pkgs pkg.
Proof.
  unfold in_scope, in_project. split.
  - intros (p & -> & (q & Hq & Hp)%projectPackagesOf_flag). by exists p, q.
  - intros (p & q & -> & Hq & Hp). exists p. split; [done|].
    apply projectPackagesOf_flag. by exists q.
Qed.

Lemma initial_origin initialTarget pkgs :
  Forall (origin_ok initialTarget pkgs
            (allCalledFuncs (initial_state initialTarget)))
    (queue (initial_state initialTarget)).
Proof. constructor; [by left|done]. Qed.

(** C5. Scope filtering.  The visitor reports only symbols whose package
    path is in the project's package set; hence every callable and every
    type of the result sets is owned by a project package, and every task
    that is expanded, other than the initial target, is a declaration of a
    project package that was located for a recorded, project-owned
    callable. *)
Theorem scope_filtering (initialTarget : AnalysisTarget) (depth : Z)
    (pkgs : list Package) (fuel : nat) (r : analysisResult) (err : error) :
  performRecursiveAnalysisFuel fuel initialTarget depth pkgs = Done (r, err) →
  (∀ info body c,
     Walk_Body info (projectPackagesOf pkgs) empty_collector body = Done c →
     Forall (λ f, in_project pkgs (func_pkg f)) (CalledFuncs c) ∧
     Forall (λ t, in_project pkgs (type_pkg t)) (ReferencedTypes c)) ∧
  (∀ k f, res_CalledFuncs r !! k = Some f → in_project pkgs (func_pkg f)) ∧
  (∀ k ti, res_ReferencedTypes r !! k = Some ti →
     in_project pkgs (type_pkg (Definition_ ti))) ∧
  (∀ x,
     x ∈ expansions depth (projectPackagesOf pkgs) (typePkgMapOf pkgs) fuel
           (initial_state initialTarget) →
     x.2 = initial_task initialTarget ∨
     (Pkg (Target x.2) ∈ pkgs ∧
      ∃ f, res_CalledFuncs r !! FullName f = Some f ∧
           in_project pkgs (func_pkg f) ∧
           findFuncDeclAt (Pkg (Target x.2)) (func_pos f)
           = Some (Fn (Target x.2)))).
Proof.
  intros (_ & st' & Hl & _ & Hc & Ht)%performRecursiveAnalysisFuel_Done.
  rewrite Hc, Ht.
  destruct (loop_results_ok depth pkgs fuel (initial_state initialTarget) st')
    as [Hcok Htok]; [done|done|done|].
  split; [|split; [|split]].
  - intros info body c [Hf Hty]%Walk_Body_scoped. split.
    + eapply Forall_impl; [done|]. intros f. by apply in_scope_in_project.
    + eapply Forall_impl; [done|]. intros t. by apply in_scope_in_project.
  - intros k f [_ Hs]%Hcok. by apply in_scope_in_project.
  - intros k ti (_ & _ & Hs)%Htok. by apply in_scope_in_project.
  - intros x Hx.
    destruct (expansions_origin depth pkgs initialTarget fuel _ st' x
                (initial_origin initialTarget pkgs) Hl Hx) as [Hi|Hq];
      [by left|right].
    pose proof (queued_for_in_project pkgs _ _ Hq) as [Hin _].
    split; [done|]. destruct Hq as (f & Hf & Hs & _ & Hn). exists f.
    split; [done|]. split; [by apply in_scope_in_project|done].
Qed.

(** The theorem on the example project, at depth 2. *)
Lemma scope_filtering_witness :
  in_project [Scenario.pkg] (func_pkg Scenario.fD).
Proof.
  assert (∃ r, performRecursiveAnalysisFuel 4 Scenario.target 2 [Scenario.pkg]
               = Done (r, None) ∧
               res_CalledFuncs r !! "proj.D" = Some Scenario.fD)
    as (r & H & Hl) by (eexists; split; vm_compute; reflexivity).
  exact (proj1 (proj2 (scope_filtering _ _ _ _ _ _ H)) _ _ Hl).
Defined.

(** ** Types are leaves *)

(** The next queue, visited set and callable set do not depend on the
    types recorded so far. *)
Lemma step_same_but_types depth pkgs t rest st1 st2 st1' st2' :
  same_but_types st1 st2 →
  step depth (projectPackagesOf pkgs) (typePkgMapOf pkgs) t rest st1
  = Done st1' →
  step depth (projectPackagesOf pkgs) (typePkgMapOf pkgs) t rest st2
  = Done st2' →
  same_but_types st1' st2'.
Proof.
  intros (Hq & Hp & Hc) H1%step_spec H2%step_spec.
  destruct H1 as [Hd1 ->|f1 c1 called1 q1 types1 Hr1 Hfl1 Hw1 Hf1 _ ->];
    destruct H2 as [Hd2 ->|f2 c2 called2 q2 types2 Hr2 Hfl2 Hw2 Hf2 _ ->].
  - done.
  - exfalso. destruct Hd1 as [Hr|(f & Hr & Hfl)]; [congruence|].
    rewrite Hr in Hr2. injection Hr2 as <-. congruence.
  - exfalso. destruct Hd2 as [Hr|(f & Hr & Hfl)]; [congruence|].
    rewrite Hr in Hr1. injection Hr1 as <-. congruence.
  - rewrite Hr1 in Hr2. injection Hr2 as <-.
    rewrite Hw1 in Hw2. injection Hw2 as <-.
    rewrite <- Hc, Hf1 in Hf2. injection Hf2 as <- <-.
    unfold same_but_types. simpl. by rewrite Hp.
Qed.

Lemma loop_same_but_types depth pkgs fuel st1 st2 st1' st2' :
  same_but_types st1 st2 →
  loop depth (projectPackagesOf pkgs) (typePkgMapOf pkgs) fuel st1
  = Done st1' →
  loop depth (projectPackagesOf pkgs) (typePkgMapOf pkgs) fuel st2
  = Done st2' →
  same_but_types st1' st2'.
Proof.
  revert st1 st2. induction fuel as [|fuel IH]; intros st1 st2 Hs; simpl;
    pose proof Hs as (Hq & _); rewrite <- Hq.
  - destruct (queue st1); [|done]. by intros [= <-] [= <-].
  - destruct (queue st1) as [|t rest]; [by intros [= <-] [= <-]|].
    rewrite !bind_Done. intros (s1 & Hs1 & Hl1) (s2 & Hs2 & Hl2).
    eapply IH; [|done|done]. by eapply step_same_but_types.
Qed.

(** C9. Types are traversal leaves.  Every entry of the type result set
    is stored once, under the qualified name of its own definition.  Every
    task that is expanded is the initial target or a declaration located
    for a recorded callable: nothing is queued for a type.  And the types
    recorded so far never influence the queue, the visited set or the
    callable set of any later state. *)
Theorem types_are_leaves (initialTarget : AnalysisTarget) (depth : Z)
    (pkgs : list Package) (fuel : nat) (r : analysisResult) (err : error) :
  performRecursiveAnalysisFuel fuel initialTarget depth pkgs = Done (r, err) →
  (∀ k ti, res_ReferencedTypes r !! k = Some ti →
     TypeInfo_Name ti = k ∧ typeKey (Definition_ ti) = k) ∧
  (∀ x,
     x ∈ expansions depth (projectPackagesOf pkgs) (typePkgMapOf pkgs) fuel
           (initial_state initialTarget) →
     x.2 = initial_task initialTarget ∨
     queued_for pkgs (res_CalledFuncs r) x.2) ∧
  (∀ n st1 st2 st1' st2',
     same_but_types st1 st2 →
     loop depth (projectPackagesOf pkgs) (typePkgMapOf pkgs) n st1
     = Done st1' →
     loop depth (projectPackagesOf pkgs) (typePkgMapOf pkgs) n st2
     = Done st2' →
     same_but_types st1' st2').
Proof.
  intros (_ & st' & Hl & _ & Hc & Ht)%performRecursiveAnalysisFuel_Done.
  rewrite Hc, Ht.
  destruct (loop_results_ok depth pkgs fuel (initial_state initialTarget) st')
    as [_ Htok]; [done|done|done|].
  split; [|split].
  - intros k ti (Hn & Hk & _)%Htok. done.
  - intros x Hx.
    apply (expansions_origin depth pkgs initialTarget fuel _ st' x
             (initial_origin initialTarget pkgs) Hl Hx).
  - intros n. apply loop_same_but_types.
Qed.

(** The theorem on the example project: the entry of type [U]. *)
Lemma types_are_leaves_witness :
  typeKey Scenario.tU = "proj.U".
Proof.
  assert (∃ r ti,
            performRecursiveAnalysisFuel 4 Scenario.target 2 [Scenario.pkg]
            = Done (r, None) ∧
            res_ReferencedTypes r !! "proj.U" = Some ti ∧
            Definition_ ti = Scenario.tU)
    as (r & ti & H & Hl & Hd)
    by (eexists _, _; split; [|split]; vm_compute; reflexivity).
  rewrite <- Hd.
  exact (proj2 (proj1 (types_are_leaves _ _ _ _ _ _ H) _ _ Hl)).
Defined.

(** ** Distinct identities *)

Lemma string_app_assoc (a b c : string) : (a +:+ b) +:+ c = a +:+ (b +:+ c).
Proof.
  induction a as [|x a IH]; [done|].
  change (String x ((a +:+ b) +:+ c) = String x (a +:+ (b +:+ c))).
  by rewrite IH.
Qed.

Lemma string_app_length (a b : string) :
  String.length (a +:+ b) = String.length a + String.length b.
Proof.
  induction a as [|x a IH]; [done|].
  change (S (String.length (a +:+ b)) = S (String.length a + String.length b)).
  by rewrite IH.
Qed.

Lemma string_app_inv_tail (a b s : string) : a +:+ s = b +:+ s → a = b.
Proof.
  revert b. induction a as [|x a IH]; intros [|y b]; [done| | |].
  - intros H. apply (f_equal String.length) in H.
    rewrite (string_app_length (String y b)) in H.
    change (String.length s = S (String.length b) + String.length s) in H.
    lia.
  - intros H. apply (f_equal String.length) in H.
    rewrite (string_app_length (String x a)) in H.
    change (S (String.length a) + String.length s = String.length s) in H.
    lia.
  - change (String x (a +:+ s) = String y (b +:+ s) → String x a = String y b).
    intros [= -> H]. f_equal. by apply IH.
Qed.

Lemma qualifier_inj (p q : TypesPackage) (s : string) :
  qualifier (Some p) +:+ s = qualifier (Some q) +:+ s → pkg_path p = pkg_path q.
Proof.
  unfold qualifier. rewrite !string_app_assoc. apply string_app_inv_tail.
Qed.

Lemma FullName_distinct (f g : Func) (p q : TypesPackage) :
  func_pkg f = Some p → func_pkg g = Some q → pkg_path p ≠ pkg_path q →
  func_name f = func_name g → func_recv f = func_recv g →
  func_recv f ≠ Some RecvInterface →
  FullName f ≠ FullName g.
Proof.
  intros Hp Hq Hne Hn Hr Hi Heq. apply Hne. unfold FullName in Heq.
  rewrite <- Hr, Hp, Hq, <- Hn in Heq.
  destruct (func_recv f) as [[ptr tname|]|]; [|done|].
  - apply (inj (String.app "(")), (inj (String.app _)) in Heq.
    by eapply qualifier_inj.
  - by eapply qualifier_inj.
Qed.

Lemma typeKey_distinct (t u : TypeName) (p q : TypesPackage) :
  type_pkg t = Some p → type_pkg u = Some q → pkg_path p ≠ pkg_path q →
  type_name t = type_name u → typeKey t ≠ typeKey u.
Proof.
  intros Hp Hq Hne Hn Heq. apply Hne. unfold typeKey in Heq.
  rewrite Hp, Hq, Hn in Heq. by eapply string_app_inv_tail.
Qed.

(** ** The first expansion *)

Section FirstExpansion.
Variable depth : Z.
Variable pkgs : list Package.
Variable initialTarget : AnalysisTarget.

Abbreviation proj := (projectPackagesOf pkgs).
Abbreviation tpm := (typePkgMapOf pkgs).

Lemma bodyFuncs_Walk_Body c :
  Walk_Body (ObjectOf (Pkg initialTarget)) proj empty_collector
    (Body (Fn initialTarget)) = Done c →
  bodyFuncs proj initialTarget = CalledFuncs c ∧
  bodyTypes proj initialTarget = ReferencedTypes c.
Proof.
  unfold Walk_Body, bodyFuncs, bodyTypes.
  destruct (Body (Fn initialTarget)); [|done]. by intros [= <-].
Qed.

(** When the target's name resolves to a function and the run returns,
    the first iteration walks the target's body, and everything it finds
    is in the final state. *)
Lemma first_expansion fuel st' f0 :
  resolved (initial_task initialTarget) = Some (ObjFunc f0) →
  loop depth proj tpm fuel (initial_state initialTarget) = Done st' →
  list_to_set (FullName <$> bodyFuncs proj initialTarget)
    ⊆ dom (allCalledFuncs st') ∧
  list_to_set (typeKey <$> bodyTypes proj initialTarget)
    ⊆ dom (allReferencedTypes st').
Proof.
  intros Hr Hl. destruct fuel as [|fuel]; [done|]. simpl in Hl.
  apply bind_Done in Hl as (st1 & Hs & Hl).
  apply loop_extends in Hl as (_ & Hc & Ht).
  apply subseteq_dom in Hc, Ht.
  apply step_spec in Hs.
  destruct Hs as [[Hn|(f & Hf & Hfl)] _|f c called q types _ _ Hw Hf Hty ->].
  - unfold initial_task in Hr. congruence.
  - unfold flag in Hfl. simpl in Hfl. by rewrite lookup_empty in Hfl.
  - simpl in *. apply bodyFuncs_Walk_Body in Hw as [-> ->].
    apply recordFuncs_dom in Hf. apply recordTypes_dom in Hty. set_solver.
Qed.
End FirstExpansion.

(** C8. Name collision independence.  Two functions with the same local
    name (and the same kind of receiver) owned by packages with different
    paths have different identities, and so do two types with the same
    local name.  When the body of the target mentions both functions, the
    callable result set has an entry for each under its own identity; the
    same holds for two such types and the type result set.  Two expansions
    under different identities leave both identities in the visited
    set. *)
Theorem name_collision_independence :
  (∀ (f g : Func) (p q : TypesPackage),
     func_pkg f = Some p → func_pkg g = Some q → pkg_path p ≠ pkg_path q →
     func_name f = func_name g → func_recv f = func_recv g →
     func_recv f ≠ Some RecvInterface →
     FullName f ≠ FullName g) ∧
  (∀ (t u : TypeName) (p q : TypesPackage),
     type_pkg t = Some p → type_pkg u = Some q → pkg_path p ≠ pkg_path q →
     type_name t = type_name u → typeKey t ≠ typeKey u) ∧
  (∀ initialTarget depth pkgs fuel r err f0,
     performRecursiveAnalysisFuel fuel initialTarget depth pkgs
     = Done (r, err) →
     resolved (initial_task initialTarget) = Some (ObjFunc f0) →
     (∀ f g, f ∈ bodyFuncs (projectPackagesOf pkgs) initialTarget →
             g ∈ bodyFuncs (projectPackagesOf pkgs) initialTarget →
             FullName f ≠ FullName g →
             ∃ f' g', res_CalledFuncs r !! FullName f = Some f' ∧
                      res_CalledFuncs r !! FullName g = Some g' ∧
                      FullName f' = FullName f ∧ FullName g' = FullName g) ∧
     (∀ t u, t ∈ bodyTypes (projectPackagesOf pkgs) initialTarget →
             u ∈ bodyTypes (projectPackagesOf pkgs) initialTarget →
             typeKey t ≠ typeKey u →
             ∃ ti ui, res_ReferencedTypes r !! typeKey t = Some ti ∧
                      res_ReferencedTypes r !! typeKey u = Some ui ∧
                      typeKey (Definition_ ti) = typeKey t ∧
                      typeKey (Definition_ ui) = typeKey u)) ∧
  (∀ initialTarget depth pkgs fuel st' x y,
     loop depth (projectPackagesOf pkgs) (typePkgMapOf pkgs) fuel
       (initial_state initialTarget) = Done st' →
     x ∈ expansions depth (projectPackagesOf pkgs) (typePkgMapOf pkgs) fuel
           (initial_state initialTarget) →
     y ∈ expansions depth (projectPackagesOf pkgs) (typePkgMapOf pkgs) fuel
           (initial_state initialTarget) →
     x.1 ≠ y.1 →
     flag (processedFuncs st') x.1 = true ∧
     flag (processedFuncs st') y.1 = true).
Proof.
  split; [apply FullName_distinct|]. split; [apply typeKey_distinct|]. split.
  - intros T depth pkgs fuel r err f0
      (_ & st' & Hl & _ & Hc & Ht)%performRecursiveAnalysisFuel_Done Hr.
    rewrite Hc, Ht.
    destruct (loop_results_ok depth pkgs fuel (initial_state T) st')
      as [Hcok Htok]; [done|done|done|].
    destruct (first_expansion depth pkgs T fuel st' f0 Hr Hl) as [Hfs Hts].
    split.
    + intros f g Hf Hg _.
      assert (∀ h, h ∈ bodyFuncs (projectPackagesOf pkgs) T →
                ∃ h', allCalledFuncs st' !! FullName h = Some h' ∧
                      FullName h' = FullName h) as Hin.
      { intros h Hh.
        assert (FullName h ∈ dom (allCalledFuncs st')) as [h' Hh']%elem_of_dom.
        { apply Hfs, elem_of_list_to_set, list_elem_of_fmap. by exists h. }
        exists h'. split; [done|]. by apply Hcok in Hh' as [? _]. }
      destruct (Hin f Hf) as (f' & ? & ?), (Hin g Hg) as (g' & ? & ?).
      by exists f', g'.
    + intros t u Htm Hum _.
      assert (∀ h, h ∈ bodyTypes (projectPackagesOf pkgs) T →
                ∃ hi, allReferencedTypes st' !! typeKey h = Some hi ∧
                      typeKey (Definition_ hi) = typeKey h) as Hin.
      { intros h Hh.
        assert (typeKey h ∈ dom (allReferencedTypes st'))
          as [hi Hhi]%elem_of_dom.
        { apply Hts, elem_of_list_to_set, list_elem_of_fmap. by exists h. }
        exists hi. split; [done|]. by apply Htok in Hhi as (_ & ? & _). }
      destruct (Hin t Htm) as (ti & ? & ?), (Hin u Hum) as (ui & ? & ?).
      by exists ti, ui.
  - intros T depth pkgs fuel st' x y Hl Hx Hy _. split.
    + by destruct (expansions_marked depth pkgs fuel _ st' x Hl Hx).
    + by destruct (expansions_marked depth pkgs fuel _ st' y Hl Hy).
Qed.

(** The two [Run] functions and the two [Config] types of the example
    project are four entries. *)
Example collision_entries :
  ∃ r, performRecursiveAnalysis Collision.target 1
         [Collision.pkgA; Collision.pkgB] = Done (r, None) ∧
       res_CalledFuncs r !! "app/a.Run" = Some Collision.fRunA ∧
       res_CalledFuncs r !! "app/b.Run" = Some Collision.fRunB ∧
       dom (res_ReferencedTypes r) = {["app/a.Config"; "app/b.Config"]} ∧
       (expansions 1 (projectPackagesOf [Collision.pkgA; Collision.pkgB])
          (typePkgMapOf [Collision.pkgA; Collision.pkgB]) 5
          (initial_state Collision.target)).*1
       = ["app/a.Main"; "app/a.Run"; "app/b.Run"].
Proof.
  eexists. split; [by vm_compute|]. repeat split; by vm_compute.
Qed.

(** The theorem at the two [Run] functions. *)
Lemma name_collision_independence_witness :
  FullName Collision.fRunA ≠ FullName Collision.fRunB.
Proof.
  apply (proj1 name_collision_independence Collision.fRunA Collision.fRunB
           Collision.tpa Collision.tpb);
    [reflexivity|reflexivity|discriminate|reflexivity|reflexivity
    |discriminate].
Defined.

(** ** Depth 0 *)

Section DepthZero.
Variable depth : Z.
Variable pkgs : list Package.

Abbreviation proj := (projectPackagesOf pkgs).
Abbreviation tpm := (typePkgMapOf pkgs).

(** At a task whose depth has reached the bound, candidates are recorded
    and nothing is queued; no iteration can panic. *)
Lemma recordFunc_at_bound d f called q :
  ¬ (d < depth)%Z →
  ∃ called', recordFunc depth proj tpm d (called, q) f = Done (called', q).
Proof.
  intros Hd. unfold recordFunc.
  destruct (called !! FullName f); [eauto|].
  destruct (Z.ltb_spec d depth); [done|eauto].
Qed.

Lemma recordFuncs_at_bound d fs called q :
  ¬ (d < depth)%Z →
  ∃ called', foldM (recordFunc depth proj tpm d) fs (called, q)
             = Done (called', q).
Proof.
  intros Hd. revert called. induction fs as [|f fs IH]; intros called.
  { by exists called. }
  rewrite foldM_cons.
  destruct (recordFunc_at_bound d f called q Hd) as [called1 ->]. apply IH.
Qed.

(** The loop over the candidate types of a walk never panics: the visitor
    only reports types that have a package. *)
Lemma recordTypes_total ts types :
  Forall (λ t, in_scope proj (type_pkg t)) ts →
  ∃ types', foldM recordType ts types = Done types'.
Proof.
  intros Hts.
  refine (foldM_total recordType (λ t, in_scope proj (type_pkg t)) ts _ Hts
            types).
  intros b t (p & Hp & _). unfold recordType, typeKeyOf. rewrite Hp. simpl.
  destruct (b !! _); eauto.
Qed.

Lemma loop_empty_queue fuel st :
  queue st = [] → loop depth proj tpm fuel st = Done st.
Proof. intros Hq. destruct fuel; simpl; by rewrite Hq. Qed.
End DepthZero.

(** C3. Depth-0 exactness.  With [maxDepth = 0], for a target whose name
    resolves to a function and that has a body, the traversal returns
    after a single expansion, that of the target, and the result sets hold
    exactly the callables and the types that the visitor finds in the
    target's own body. *)
Theorem depth0_exactness (initialTarget : AnalysisTarget)
    (pkgs : list Package) (f0 : Func) (stmts : list Node) :
  resolved (initial_task initialTarget) = Some (ObjFunc f0) →
  Body (Fn initialTarget) = Some stmts →
  ∃ r, performRecursiveAnalysis initialTarget 0 pkgs = Done (r, None) ∧
       dom (res_CalledFuncs r)
       = list_to_set (FullName <$>
                        bodyFuncs (projectPackagesOf pkgs) initialTarget) ∧
       dom (res_ReferencedTypes r)
       = list_to_set (typeKey <$>
                        bodyTypes (projectPackagesOf pkgs) initialTarget) ∧
       expansions 0 (projectPackagesOf pkgs) (typePkgMapOf pkgs)
         (traversalBound initialTarget pkgs) (initial_state initialTarget)
       = [(FullName f0, initial_task initialTarget)].
Proof.
  intros Hr Hb.
  set (proj := projectPackagesOf pkgs). set (tpm := typePkgMapOf pkgs).
  set (c := Walk (ObjectOf (Pkg initialTarget)) proj empty_collector
              (NOther stmts)).
  assert (Walk_Body (ObjectOf (Pkg initialTarget)) proj empty_collector
            (Body (Fn initialTarget)) = Done c) as Hw
    by (by rewrite Hb).
  destruct (recordFuncs_at_bound 0 pkgs 0 (CalledFuncs c) ∅ [])
    as [called Hf]; [lia|].
  pose proof (Walk_Body_scoped _ _ _ _ Hw) as [_ Hsc].
  destruct (recordTypes_total pkgs (ReferencedTypes c) ∅ Hsc) as [types Hty].
  set (st1 := {| queue := [];
                 processedFuncs := <[FullName f0 := true]> ∅;
                 allCalledFuncs := called;
                 allReferencedTypes := types |}).
  assert (step 0 proj tpm (initial_task initialTarget) []
            (initial_state initialTarget) = Done st1) as Hs.
  { unfold step. fold (resolved (initial_task initialTarget)). rewrite Hr.
    unfold flag at 1. simpl processedFuncs. rewrite lookup_empty. simpl.
    unfold expand. simpl Target. simpl Depth. fold proj.
    rewrite Hw. cbv beta iota delta [mbind outcome_bind].
    change (allCalledFuncs (initial_state initialTarget))
      with (∅ : gmap string Func).
    change (allReferencedTypes (initial_state initialTarget))
      with (∅ : gmap string TypeInfo).
    subst proj tpm. rewrite Hf, Hty. reflexivity. }
  exists {| res_CalledFuncs := called; res_ReferencedTypes := types |}.
  subst proj tpm.
  destruct (bodyFuncs_Walk_Body pkgs initialTarget c Hw) as [-> ->].
  split; [|split; [|split]].
  - unfold performRecursiveAnalysis, performRecursiveAnalysisFuel,
      traversalBound. simpl loop.
    change ({| Target := initialTarget; Depth := 0 |})
      with (initial_task initialTarget).
    rewrite Hs. simpl. by rewrite loop_empty_queue.
  - simpl. apply recordFuncs_dom in Hf. rewrite Hf, dom_empty_L. set_solver.
  - simpl. apply recordTypes_dom in Hty. rewrite Hty, dom_empty_L. set_solver.
  - unfold traversalBound.
    rewrite (expansions_step 0 pkgs _ _ (initial_task initialTarget) [] st1);
      [|done|done].
    unfold expandedKey. rewrite Hr. unfold flag. simpl processedFuncs.
    rewrite lookup_empty. simpl.
    by destruct (size (candidateKeys initialTarget pkgs)).
Qed.

(** The theorem on the example project: [B], [C] and [T], nothing from
    the body of [B]. *)
Lemma depth0_exactness_witness :
  ∃ r, performRecursiveAnalysis Scenario.target 0 [Scenario.pkg]
       = Done (r, None) ∧
       dom (res_CalledFuncs r) = {["proj.B"; "proj.C"]} ∧
       dom (res_ReferencedTypes r) = {["proj.T"]}.
Proof.
  destruct (depth0_exactness Scenario.target [Scenario.pkg] Scenario.fA
              [NOther [Scenario.use "B" 11; Scenario.use "x" 12];
               NOther [Scenario.use "C" 13]; Scenario.use "T" 14]
              eq_refl eq_refl) as (r & Hp & Hc & Ht & _).
  exists r. split; [exact Hp|]. split.
  - rewrite Hc. vm_compute. reflexivity.
  - rewrite Ht. vm_compute. reflexivity.
Defined.

(** ** The depth bound on the example project *)

(** C1. Depth bound on the scenario project ([A] calls [B] and [C] and
    mentions [T]; [B] calls [D] and mentions [U]).  With [maxDepth = 1] the
    traversal walks the bodies of [B] and [C] and records [D] and [U]:
    called is [{B, C, D}] and types is [{T, U}], the same as with
    [maxDepth = 2].  It is [maxDepth = 0] that gives [{B, C}] and [{T}]. *)
Theorem scenario_depth_bound :
  ∃ r0 r1 r2,
    performRecursiveAnalysis Scenario.target 0 [Scenario.pkg]
    = Done (r0, None) ∧
    performRecursiveAnalysis Scenario.target 1 [Scenario.pkg]
    = Done (r1, None) ∧
    performRecursiveAnalysis Scenario.target 2 [Scenario.pkg]
    = Done (r2, None) ∧
    dom (res_CalledFuncs r0) = {["proj.B"; "proj.C"]} ∧
    dom (res_ReferencedTypes r0) = {["proj.T"]} ∧
    dom (res_CalledFuncs r1) = {["proj.B"; "proj.C"; "proj.D"]} ∧
    dom (res_ReferencedTypes r1) = {["proj.T"; "proj.U"]} ∧
    dom (res_CalledFuncs r2) = {["proj.B"; "proj.C"; "proj.D"]} ∧
    dom (res_ReferencedTypes r2) = {["proj.T"; "proj.U"]} ∧
    (expansions 1 (projectPackagesOf [Scenario.pkg])
       (typePkgMapOf [Scenario.pkg]) 4 (initial_state Scenario.target)).*1
    = ["proj.A"; "proj.B"; "proj.C"].
Proof.
  eexists _, _, _. repeat split; by vm_compute.
Qed.

(** ** Declarations without a body *)

(** A task whose declaration has no body, and whose identity is not yet
    visited, makes the loop body panic. *)
Lemma step_no_body depth pkgs t rest st f :
  resolved t = Some (ObjFunc f) →
  flag (processedFuncs st) (FullName f) = false →
  Body (Fn (Target t)) = None →
  step depth (projectPackagesOf pkgs) (typePkgMapOf pkgs) t rest st
  = Panic nil_deref.
Proof.
  unfold step, resolved. intros -> -> Hb. unfold expand. by rewrite Hb.
Qed.

(** C7. A declaration without a body.  On a target declared without a
    body the traversal panics with a nil pointer dereference, at any
    depth; and a traversal that reaches such a declaration through a
    caller panics in the same way. *)
Theorem no_body_panics :
  performRecursiveAnalysis NoBody.targetAsm 0 [NoBody.pkg] = Panic nil_deref ∧
  performRecursiveAnalysis NoBody.targetA 1 [NoBody.pkg] = Panic nil_deref ∧
  (∃ r, performRecursiveAnalysis NoBody.targetA 0 [NoBody.pkg]
        = Done (r, None) ∧ dom (res_CalledFuncs r) = {["proj.Asm"]}).
Proof.
  split; [by vm_compute|]. split; [by vm_compute|].
  eexists. split; by vm_compute.
Qed.

(** ** The order of the name lists *)

Lemma range_order_list_to_map {V : Type} (kvs : list (string * V)) :
  NoDup kvs.*1 → range_order (list_to_map kvs) kvs.
Proof.
  intros Hnd. unfold range_order. symmetry. by apply map_to_list_to_map.
Qed.

Lemma range_order_perm {V : Type} (m : gmap string V) kvs1 kvs2 :
  range_order m kvs1 → range_order m kvs2 → kvs1.*1 ≡ₚ kvs2.*1.
Proof. unfold range_order. by intros -> ->. Qed.

Lemma ExtractCalledFuncs_intro target depth pkgs r kvs :
  performRecursiveAnalysis target depth pkgs = Done (r, None) →
  range_order (res_CalledFuncs r) kvs →
  ExtractCalledFuncs target depth pkgs (kvs.*1, None).
Proof. unfold ExtractCalledFuncs. intros -> Ho. by exists kvs. Qed.

Lemma ExtractTypes_intro target depth pkgs r kvs :
  performRecursiveAnalysis target depth pkgs = Done (r, None) →
  range_order (res_ReferencedTypes r) kvs →
  ExtractTypes target depth pkgs (kvs.*1, None).
Proof. unfold ExtractTypes. intros -> Ho. by exists kvs. Qed.

(** On the example project at depth 0 the call may return [B, C] and it
    may return [C, B]. *)
Lemma scenario_both_orders :
  ExtractCalledFuncs Scenario.target 0 [Scenario.pkg]
    (["proj.B"; "proj.C"], None) ∧
  ExtractCalledFuncs Scenario.target 0 [Scenario.pkg]
    (["proj.C"; "proj.B"], None).
Proof.
  assert (∀ kvs : list (string * Func),
    performRecursiveAnalysis Scenario.target 0 [Scenario.pkg]
    = Done ({| res_CalledFuncs := list_to_map kvs;
               res_ReferencedTypes :=
                 {["proj.T" := {| TypeInfo_Name := "proj.T";
                                  Definition_ := Scenario.tT;
                                  Snippet := "" |}]} |}, None) →
    NoDup kvs.*1 →
    ExtractCalledFuncs Scenario.target 0 [Scenario.pkg] (kvs.*1, None)) as H.
  { intros kvs Hp Hnd. apply (ExtractCalledFuncs_intro _ _ _ _ kvs Hp).
    by apply range_order_list_to_map. }
  split.
  - apply (H [("proj.B", Scenario.fB); ("proj.C", Scenario.fC)]).
    + by vm_compute.
    + apply (bool_decide_unpack _). by vm_compute.
  - apply (H [("proj.C", Scenario.fC); ("proj.B", Scenario.fB)]).
    + by vm_compute.
    + apply (bool_decide_unpack _). by vm_compute.
Qed.

(** C2, as stated, fails: two runs on the unchanged example project can
    return differently ordered lists, and the list can differ from the
    order of discovery ([B] before [C]). *)
Lemma output_order_counterexample :
  ¬ (∀ names1 names2 : list string,
       ExtractCalledFuncs Scenario.target 0 [Scenario.pkg] (names1, None) →
       ExtractCalledFuncs Scenario.target 0 [Scenario.pkg] (names2, None) →
       names1 = names2).
Proof.
  intros H. destruct scenario_both_orders as [H1 H2].
  apply (proj1 (bool_decide_eq_false
                  (["proj.B"; "proj.C"] = ["proj.C"; "proj.B"])));
    [by vm_compute|exact (H _ _ H1 H2)].
Qed.

Lemma AnalyzeReport_summaries target file depth pkgs r rep :
  AnalyzeReport target file depth pkgs r rep →
  ∃ sumFuncs sumTypes,
    range_order (res_CalledFuncs r) sumFuncs ∧
    range_order (res_ReferencedTypes r) sumTypes ∧
    summaryFuncs rep = sumFuncs.*1 ∧ summaryTypes rep = sumTypes.*1.
Proof.
  intros (sf & sty & bf & bt & Hsf & Hst & _ & _ & Hb).
  exists sf, sty. split; [done|]. split; [done|].
  unfold buildReport in Hb. apply bind_Done in Hb as (tb & _ & [= <-]). done.
Qed.

(** C2, amended.  The result maps keep no order.  For a fixed target and
    depth on an unchanged project the traversal result is one value, and
    every name list made from it (by [ExtractCalledFuncs], by
    [ExtractTypes], and the two summary lists of [Analyze]) holds each
    recorded name exactly once; two runs return lists that are
    permutations of each other. *)
Theorem output_names_up_to_order (target : AnalysisTarget) (file : string)
    (depth : Z) (pkgs : list Package) :
  (∀ names1 e1 names2 e2,
     ExtractCalledFuncs target depth pkgs (names1, e1) →
     ExtractCalledFuncs target depth pkgs (names2, e2) →
     names1 ≡ₚ names2 ∧ NoDup names1 ∧
     ∃ r, performRecursiveAnalysis target depth pkgs = Done (r, None) ∧
          ∀ k, k ∈ names1 ↔ k ∈ dom (res_CalledFuncs r)) ∧
  (∀ names1 e1 names2 e2,
     ExtractTypes target depth pkgs (names1, e1) →
     ExtractTypes target depth pkgs (names2, e2) →
     names1 ≡ₚ names2 ∧ NoDup names1 ∧
     ∃ r, performRecursiveAnalysis target depth pkgs = Done (r, None) ∧
          ∀ k, k ∈ names1 ↔ k ∈ dom (res_ReferencedTypes r)) ∧
  (∀ r rep1 rep2,
     AnalyzeReport target file depth pkgs r rep1 →
     AnalyzeReport target file depth pkgs r rep2 →
     summaryFuncs rep1 ≡ₚ summaryFuncs rep2 ∧
     summaryTypes rep1 ≡ₚ summaryTypes rep2 ∧
     NoDup (summaryFuncs rep1) ∧ NoDup (summaryTypes rep1) ∧
     (∀ k, k ∈ summaryFuncs rep1 ↔ k ∈ dom (res_CalledFuncs r)) ∧
     (∀ k, k ∈ summaryTypes rep1 ↔ k ∈ dom (res_ReferencedTypes r))).
Proof.
  split; [|split].
  - intros n1 e1 n2 e2
      (_ & r & kvs1 & Hp & Ho1 & ->)%ExtractCalledFuncs_inv
      (_ & r' & kvs2 & Hp' & Ho2 & ->)%ExtractCalledFuncs_inv.
    rewrite Hp in Hp'. injection Hp' as <-.
    split; [by eapply range_order_perm|].
    split; [by eapply range_order_NoDup|].
    exists r. split; [done|]. intros k. by apply range_order_elem.
  - intros n1 e1 n2 e2
      (_ & r & kvs1 & Hp & Ho1 & ->)%ExtractTypes_inv
      (_ & r' & kvs2 & Hp' & Ho2 & ->)%ExtractTypes_inv.
    rewrite Hp in Hp'. injection Hp' as <-.
    split; [by eapply range_order_perm|].
    split; [by eapply range_order_NoDup|].
    exists r. split; [done|]. intros k. by apply range_order_elem.
  - intros r rep1 rep2
      (sf1 & st1 & Hf1 & Ht1 & -> & ->)%AnalyzeReport_summaries
      (sf2 & st2 & Hf2 & Ht2 & -> & ->)%AnalyzeReport_summaries.
    split; [by eapply range_order_perm|].
    split; [by eapply range_order_perm|].
    split; [by eapply range_order_NoDup|].
    split; [by eapply range_order_NoDup|].
    split; intros k; by apply range_order_elem.
Qed.

(** The theorem at the two orders of the example project. *)
Lemma output_names_up_to_order_witness :
  ["proj.B"; "proj.C"] ≡ₚ ["proj.C"; "proj.B"].
Proof.
  destruct scenario_both_orders as [H1 H2].
  exact (proj1 (proj1 (output_names_up_to_order Scenario.target "proj/a.go"
                         0 [Scenario.pkg]) _ _ _ _ H1 H2)).
Defined.

(** ** Error results *)

Lemma Analyze_inv target file depth pkgs report e :
  Analyze target file depth pkgs (report, e) →
  e = None ∧
  ∃ r rep, performRecursiveAnalysis target depth pkgs = Done (r, None) ∧
           AnalyzeReport target file depth pkgs r rep ∧
           report = renderReport rep.
Proof.
  unfold Analyze.
  destruct (performRecursiveAnalysis target depth pkgs) as [[r e']| |] eqn:Hp;
    [|done..].
  destruct (performRecursiveAnalysisFuel_Done _ _ _ _ _ _ Hp) as [-> _].
  intros (rep & Hrep & [= -> ->]). split; [done|]. by exists r, rep.
Qed.

(** C10. Whenever one of the entry points returns, the error it returns
    is nil: the traversal has no failing return, and [Analyze],
    [ExtractCalledFuncs] and [ExtractTypes] only pass its error on. *)
Theorem entry_points_return_nil_error (target : AnalysisTarget)
    (file : string) (depth : Z) (pkgs : list Package) :
  (∀ fuel r e,
     performRecursiveAnalysisFuel fuel target depth pkgs = Done (r, e) →
     e = None) ∧
  (∀ report e, Analyze target file depth pkgs (report, e) → e = None) ∧
  (∀ names e, ExtractCalledFuncs target depth pkgs (names, e) → e = None) ∧
  (∀ names e, ExtractTypes target depth pkgs (names, e) → e = None).
Proof.
  split; [|split; [|split]].
  - intros fuel r e H. by apply performRecursiveAnalysisFuel_Done in H as [? _].
  - intros report e H. by apply Analyze_inv in H as [? _].
  - intros names e H. by apply ExtractCalledFuncs_inv in H as [? _].
  - intros names e H. by apply ExtractTypes_inv in H as [? _].
Qed.

(** The theorem at a traversal of the example project. *)
Lemma entry_points_return_nil_error_witness :
  ∃ r e, performRecursiveAnalysisFuel 4 Scenario.target 2 [Scenario.pkg]
         = Done (r, e) ∧ e = None.
Proof.
  assert (∃ r e, performRecursiveAnalysisFuel 4 Scenario.target 2
                   [Scenario.pkg] = Done (r, e)) as (r & e & H)
    by (eexists _, _; vm_compute; reflexivity).
  exists r, e. split; [exact H|].
  exact (proj1 (entry_points_return_nil_error Scenario.target "proj/a.go" 2
                  [Scenario.pkg]) 4 r e H).
Defined.

(** ** Dependency blocks of the report *)

Section ReportFacts.
Variable pkgs : list Package.

Abbreviation tpm := (typePkgMapOf pkgs).

(** A callable block is written only when the snippet was retrieved. *)
Lemma funcBlock_elem entry b :
  b ∈ funcBlock tpm entry →
  blockName b = entry.1 ∧
  ∃ defPkg, lookupPkg tpm (func_pkg entry.2) = Some defPkg ∧
            (getFuncSourceSnippet defPkg (func_pos entry.2)).2 = None.
Proof.
  destruct entry as [name f]. unfold funcBlock. cbn [fst snd].
  destruct (lookupPkg tpm (func_pkg f)) as [defPkg|]; [|by intros ?%elem_of_nil].
  destruct (getFuncSourceSnippet defPkg (func_pos f)) as [snippet [err|]]
    eqn:Hs; [by intros ?%elem_of_nil|].
  intros ->%list_elem_of_singleton. split; [done|]. exists defPkg.
  split; [done|]. by rewrite Hs.
Qed.

Lemma typeBlock_spec blocks entry blocks' :
  typeBlock tpm blocks entry = Done blocks' →
  ∃ p, lookupPkg tpm (type_pkg (Definition_ entry.2)) = Some p ∧
    (blocks' = blocks ∨
     ∃ snippet,
       getTypeSourceSnippetIn p (Syntax p) (type_pos (Definition_ entry.2))
       = (snippet, None) ∧
       blocks' = blocks ++
         [{| blockName := entry.1;
             blockFile := FileNameAt p (type_pos (Definition_ entry.2));
             blockSnippet := snippet |}]).
Proof.
  destruct entry as [name info]. unfold typeBlock. cbn [fst snd].
  destruct (lookupPkg tpm (type_pkg (Definition_ info))) as [p|]; [|done].
  unfold getTypeSourceSnippet. cbn [mbind outcome_bind].
  destruct (getTypeSourceSnippetIn p (Syntax p) (type_pos (Definition_ info)))
    as [snippet [err|]] eqn:Hs; intros [= <-]; exists p;
    (split; [reflexivity|]).
  - by left.
  - right. exists snippet. split; [exact Hs|reflexivity].
Qed.

(** A type block is written only when the snippet was retrieved. *)
Lemma typeBlocks_elem entries acc blocks b :
  foldM (typeBlock tpm) entries acc = Done blocks → b ∈ blocks →
  b ∈ acc ∨
  ∃ info p, (blockName b, info) ∈ entries ∧
    lookupPkg tpm (type_pkg (Definition_ info)) = Some p ∧
    (getTypeSourceSnippetIn p (Syntax p) (type_pos (Definition_ info))).2
    = None.
Proof.
  revert acc. induction entries as [|entry entries IH]; intros acc.
  { intros [= <-]. by left. }
  rewrite foldM_cons, bind_Done. intros (acc1 & H1 & H2) Hb.
  destruct (IH acc1 H2 Hb) as [Hin|(info & p & Hin & Hp & Hs)].
  - apply typeBlock_spec in H1 as (p & Hp & [->|(snippet & Hs & ->)]);
      [by left|].
    apply elem_of_app in Hin as [Hin|Hin]; [by left|].
    apply list_elem_of_singleton in Hin as ->.
    right. exists entry.2, p. cbn [blockName]. split; [|split; [done|]].
    + destruct entry. left.
    + by rewrite Hs.
  - right. exists info, p. split; [by right|done].
Qed.

(** The loop over the types returns when every package is indexed. *)
Lemma typeBlocks_total entries acc :
  Forall (λ e : string * TypeInfo,
            is_Some (lookupPkg tpm (type_pkg (Definition_ e.2)))) entries →
  ∃ blocks, foldM (typeBlock tpm) entries acc = Done blocks.
Proof.
  intros H. refine (foldM_total (typeBlock tpm) _ entries _ H acc).
  intros b [name info] [p Hp]. unfold typeBlock. simpl in *. rewrite Hp.
  simpl. destruct (getTypeSourceSnippetIn _ _ _) as [snippet [err|]]; eauto.
Qed.

Lemma range_order_lookup {V : Type} (m : gmap string V) kvs k v :
  range_order m kvs → (k, v) ∈ kvs ↔ m !! k = Some v.
Proof.
  unfold range_order. intros ->. apply elem_of_map_to_list.
Qed.

Lemma getFuncSourceSnippet_not_found defPkg pos :
  findFuncDeclAt defPkg pos = None →
  (getFuncSourceSnippet defPkg pos).2 ≠ None.
Proof. unfold getFuncSourceSnippet. by intros ->. Qed.
End ReportFacts.

(** C6, amended.  Suppose the traversal returns [results].  Every report
    that [Analyze] writes is returned with a nil error, and in it a
    discovered callable, or type, whose snippet cannot be retrieved (in
    particular a callable for which no function declaration is found at
    its position) is in the summary list and has no dependency block.
    When the package of every discovered type is indexed, [Analyze] does
    write a report. *)
Theorem missing_snippet_omits_block (target : AnalysisTarget) (file : string)
    (depth : Z) (pkgs : list Package) (results : analysisResult) :
  performRecursiveAnalysis target depth pkgs = Done (results, None) →
  (∀ rep,
     AnalyzeReport target file depth pkgs results rep →
     Analyze target file depth pkgs (renderReport rep, None) ∧
     (∀ name f,
        res_CalledFuncs results !! name = Some f →
        funcSnippetFails pkgs f →
        name ∈ summaryFuncs rep ∧ name ∉ blockName <$> funcBlocks rep) ∧
     (∀ name ti,
        res_ReferencedTypes results !! name = Some ti →
        typeSnippetFails pkgs (Definition_ ti) →
        name ∈ summaryTypes rep ∧ name ∉ blockName <$> typeBlocks rep)) ∧
  (∀ f,
     (∀ defPkg, lookupPkg (typePkgMapOf pkgs) (func_pkg f) = Some defPkg →
                findFuncDeclAt defPkg (func_pos f) = None) →
     funcSnippetFails pkgs f) ∧
  (typesIndexed pkgs (res_ReferencedTypes results) →
   ∃ rep, AnalyzeReport target file depth pkgs results rep).
Proof.
  intros Hp. split; [|split].
  - intros rep Hrep. split.
    { unfold Analyze. rewrite Hp. by exists rep. }
    pose proof Hrep as (sf & sty & bf & bt & Hsf & Hst & Hbf & Hbt & Hb).
    unfold buildReport in Hb. apply bind_Done in Hb as (tb & Htb & [= <-]).
    simpl. split.
    + intros name f Hl Hfail. split.
      * apply (range_order_elem _ _ _ Hsf), elem_of_dom. eauto.
      * intros (b & -> & Hbin)%list_elem_of_fmap.
        apply list_elem_of_bind in Hbin as ([name' f'] & Hbin & Hin).
        apply funcBlock_elem in Hbin as (Hn & defPkg & Hd & Hs).
        simpl in *. subst name'.
        apply (range_order_lookup _ _ _ _ Hbf) in Hin.
        rewrite Hl in Hin. injection Hin as <-. by apply (Hfail defPkg).
    + intros name ti Hl Hfail. split.
      * apply (range_order_elem _ _ _ Hst), elem_of_dom. eauto.
      * intros (b & -> & Hbin)%list_elem_of_fmap.
        destruct (typeBlocks_elem pkgs bt [] tb b Htb Hbin)
          as [?%elem_of_nil|(info & p & Hin & Hd & Hs)]; [done|].
        apply (range_order_lookup _ _ _ _ Hbt) in Hin.
        rewrite Hl in Hin. injection Hin as <-. by apply (Hfail p).
  - intros f Hnone defPkg Hd. apply getFuncSourceSnippet_not_found. by apply Hnone.
  - intros Hidx.
    destruct (typeBlocks_total pkgs (map_to_list (res_ReferencedTypes results))
                []) as [tb Htb].
    { apply Forall_forall. intros [k ti] Hin%elem_of_map_to_list.
      simpl. by eapply Hidx. }
    eexists. exists (map_to_list (res_CalledFuncs results)),
      (map_to_list (res_ReferencedTypes results)),
      (map_to_list (res_CalledFuncs results)),
      (map_to_list (res_ReferencedTypes results)).
    repeat (split; [apply range_order_exists|]).
    unfold buildReport. by rewrite Htb.
Qed.

(** ** The report on the interface call *)

Lemma interface_call_result :
  performRecursiveAnalysis InterfaceCall.target 1 [InterfaceCall.pkg]
  = Done ({| res_CalledFuncs := {["(proj.Store).Save" := InterfaceCall.fSave]};
             res_ReferencedTypes :=
               {["proj.Config" := {| TypeInfo_Name := "proj.Config";
                                     Definition_ := InterfaceCall.tConfig;
                                     Snippet := "" |}]} |}, None).
Proof. by vm_compute. Qed.

Lemma range_order_singleton {V : Type} (k : string) (v : V) kvs :
  range_order {[k := v]} kvs ↔ kvs = [(k, v)].
Proof.
  unfold range_order. rewrite map_to_list_singleton. split.
  - apply Permutation_singleton_r.
  - by intros ->.
Qed.

Lemma interface_call_save_fails :
  funcSnippetFails [InterfaceCall.pkg] InterfaceCall.fSave.
Proof.
  intros defPkg Hd. vm_compute in Hd. injection Hd as <-. by vm_compute.
Qed.

(** Whatever the visiting orders, there is one report. *)
Lemma interface_call_reports r :
  performRecursiveAnalysis InterfaceCall.target 1 [InterfaceCall.pkg]
  = Done (r, None) →
  ∀ rep,
    AnalyzeReport InterfaceCall.target "proj/a.go" 1 [InterfaceCall.pkg] r rep
    ↔ rep = interface_call_report.
Proof.
  rewrite interface_call_result. intros [= <-] rep.
  unfold AnalyzeReport. simpl res_CalledFuncs. simpl res_ReferencedTypes.
  split.
  - intros (sf & sty & bf & bt & ->%range_order_singleton
            & ->%range_order_singleton & ->%range_order_singleton
            & ->%range_order_singleton & Hb).
    vm_compute in Hb. by injection Hb as <-.
  - intros ->. eexists _, _, _, _.
    repeat (split; [by apply range_order_singleton|]). by vm_compute.
Qed.

Lemma interface_call_render :
  renderReport interface_call_report = interface_call_text.
Proof. by vm_compute. Qed.

(** C6, as stated, fails: on the example project the callable
    [(proj.Store).Save] is discovered and its snippet cannot be retrieved;
    the one report that [Analyze] returns lists it in the summary and has
    no block for it, with or without a placeholder. *)
Lemma missing_snippet_counterexample :
  ∃ r,
    performRecursiveAnalysis InterfaceCall.target 1 [InterfaceCall.pkg]
    = Done (r, None) ∧
    res_CalledFuncs r !! "(proj.Store).Save" = Some InterfaceCall.fSave ∧
    funcSnippetFails [InterfaceCall.pkg] InterfaceCall.fSave ∧
    Analyze InterfaceCall.target "proj/a.go" 1 [InterfaceCall.pkg]
      (interface_call_text, None) ∧
    (∀ ret,
       Analyze InterfaceCall.target "proj/a.go" 1 [InterfaceCall.pkg] ret →
       ret = (interface_call_text, None)) ∧
    (∀ rep,
       AnalyzeReport InterfaceCall.target "proj/a.go" 1 [InterfaceCall.pkg]
         r rep →
       funcBlocks rep = []).
Proof.
  eexists. split; [apply interface_call_result|].
  split; [by vm_compute|]. split; [apply interface_call_save_fails|].
  pose proof (interface_call_reports _ interface_call_result) as Hrep.
  split; [|split].
  - unfold Analyze. rewrite interface_call_result.
    exists interface_call_report. split; [by apply Hrep|].
    by rewrite interface_call_render.
  - intros [report e] (-> & r & rep & Hp & Hr & ->)%Analyze_inv.
    rewrite interface_call_result in Hp. injection Hp as <-.
    apply Hrep in Hr as ->. by rewrite interface_call_render.
  - by intros rep ->%Hrep.
Qed.

(** The theorem at the interface call. *)
Lemma missing_snippet_omits_block_witness :
  "(proj.Store).Save" ∈ summaryFuncs interface_call_report ∧
  "(proj.Store).Save" ∉ blockName <$> funcBlocks interface_call_report.
Proof.
  refine (proj1 (proj2
    (proj1 (missing_snippet_omits_block InterfaceCall.target "proj/a.go" 1
              [InterfaceCall.pkg] _ interface_call_result)
       interface_call_report _)) "(proj.Store).Save" InterfaceCall.fSave _ _).
  - by apply (interface_call_reports _ interface_call_result).
  - by vm_compute.
  - apply interface_call_save_fails.
Defined.

(** * Further properties *)

(** ** The visitor reports in source order *)

Lemma Node_induction (P : Node → Prop) :
  (∀ id, P (NIdent id)) →
  (∀ children, Forall P children → P (NOther children)) →
  ∀ n, P n.
Proof.
  intros Hid Hother. fix IH 1. intros [id|children]; [apply Hid|].
  apply Hother. induction children as [|c cs IHcs]; constructor; [apply IH|done].
Qed.

Lemma Walk_NOther info proj v children :
  Walk info proj v (NOther children)
  = fold_left (λ acc child, Walk info proj acc child) children v.
Proof. reflexivity. Qed.

(** X1. The visitor reports the project-owned callables and types of a
    subtree in the order in which their identifiers occur, one entry for
    every occurrence, appended to what it held before. *)
Theorem Walk_source_order (info : Ident → option Object)
    (proj : gmap string bool) (n : Node) (v : resultCollector) :
  CalledFuncs (Walk info proj v n)
  = CalledFuncs v ++ omap (keptFunc info proj) (identsOf n) ∧
  ReferencedTypes (Walk info proj v n)
  = ReferencedTypes v ++ omap (keptType info proj) (identsOf n).
Proof.
  revert v. induction n as [id|children IH] using Node_induction; intros v.
  - simpl. unfold keptFunc, keptType, keptObject.
    destruct (info id) as [obj|]; [|by rewrite !app_nil_r].
    destruct (Object_Pkg obj) as [p|]; [|by rewrite !app_nil_r].
    destruct (flag proj (pkg_path p)); simpl; [|by rewrite !app_nil_r].
    destruct obj; simpl; by rewrite ?app_nil_r.
  - rewrite Walk_NOther. simpl identsOf. revert v.
    induction IH as [|c cs Hc _ IHcs]; intros v; simpl.
    { by rewrite !app_nil_r. }
    destruct (IHcs (Walk info proj v c)) as [-> ->].
    destruct (Hc v) as [-> ->].
    by rewrite !omap_app, !(assoc_L (++)).
Qed.

(** ** The locator *)

Lemma inspectFuncDecl_None pos decls :
  inspectFuncDecl pos decls = None ↔
  ∀ fn, DFunc fn ∈ decls → NamePos (Name fn) ≠ pos.
Proof.
  unfold inspectFuncDecl.
  assert (∀ acc,
    fold_left (λ foundNode d,
       match d with
       | DFunc fn => if (NamePos (Name fn) =? pos)%Z then Some fn else foundNode
       | _ => foundNode
       end) decls acc = None ↔
    acc = None ∧ ∀ fn, DFunc fn ∈ decls → NamePos (Name fn) ≠ pos) as H.
  { induction decls as [|d ds IH]; intros acc; simpl.
    - split; [|by intros [? _]]. intros ->. split; [done|].
      by intros fn ?%elem_of_nil.
    - rewrite IH. destruct d as [fn'| |].
      + destruct (Z.eqb_spec (NamePos (Name fn')) pos) as [He|Hne].
        * split; [by intros [? _]|]. intros [_ Hall]. exfalso.
          apply (Hall fn'); [left|done].
        * split.
          -- intros [-> Hall]. split; [done|]. intros fn Hin.
             apply elem_of_cons in Hin as [[= ->]|Hin]; [done|by apply Hall].
          -- intros [-> Hall]. split; [done|]. intros fn Hin.
             apply Hall. by right.
      + split; intros [-> Hall]; (split; [done|]); intros fn Hin.
        * apply elem_of_cons in Hin as [?|Hin]; [done|by apply Hall].
        * apply Hall. by right.
      + split; intros [-> Hall]; (split; [done|]); intros fn Hin.
        * apply elem_of_cons in Hin as [?|Hin]; [done|by apply Hall].
        * apply Hall. by right. }
  rewrite H. split; [by intros [_ ?]|by split].
Qed.

Lemma findFuncDeclIn_Some files pos fn :
  findFuncDeclIn files pos = Some fn →
  ∃ f, f ∈ files ∧ (FilePos f ≤ pos)%Z ∧ (pos < FileEnd f)%Z ∧
       DFunc fn ∈ Decls f ∧ NamePos (Name fn) = pos.
Proof.
  induction files as [|f fs IH]; simpl; [done|].
  assert (findFuncDeclIn fs pos = Some fn →
          ∃ f0, f0 ∈ f :: fs ∧ (FilePos f0 ≤ pos)%Z ∧ (pos < FileEnd f0)%Z ∧
                DFunc fn ∈ Decls f0 ∧ NamePos (Name fn) = pos) as Hrest.
  { intros (f0 & Hin & Hrest)%IH. exists f0. split; [by right|done]. }
  destruct (Z.leb_spec (FilePos f) pos) as [Hlo|]; simpl; [|done].
  destruct (Z.ltb_spec pos (FileEnd f)) as [Hhi|]; simpl; [|done].
  destruct (inspectFuncDecl pos (Decls f)) as [fn'|] eqn:Hi; [|done].
  intros [= ->]. apply inspectFuncDecl_elem in Hi as [Hi Hp].
  exists f. split; [left|done].
Qed.

Lemma findFuncDeclIn_None files pos :
  findFuncDeclIn files pos = None ↔
  ∀ f fn, f ∈ files → (FilePos f ≤ pos)%Z → (pos < FileEnd f)%Z →
          DFunc fn ∈ Decls f → NamePos (Name fn) ≠ pos.
Proof.
  induction files as [|f fs IH]; simpl.
  { split; [|done]. by intros _ f fn ?%elem_of_nil. }
  assert ((∀ f0 fn, f0 ∈ f :: fs → (FilePos f0 ≤ pos)%Z →
             (pos < FileEnd f0)%Z → DFunc fn ∈ Decls f0 →
             NamePos (Name fn) ≠ pos) ↔
          (∀ fn, (FilePos f ≤ pos)%Z → (pos < FileEnd f)%Z →
                 DFunc fn ∈ Decls f → NamePos (Name fn) ≠ pos) ∧
          (∀ f0 fn, f0 ∈ fs → (FilePos f0 ≤ pos)%Z → (pos < FileEnd f0)%Z →
                    DFunc fn ∈ Decls f0 → NamePos (Name fn) ≠ pos)) as ->.
  { split.
    - intros H. split; [intros fn; apply H; left|].
      intros f0 fn Hin. apply H. by right.
    - intros [H1 H2] f0 fn [->|Hin]%elem_of_cons; [apply H1|by apply H2]. }
  rewrite <- IH.
  destruct (Z.leb_spec (FilePos f) pos) as [Hlo|Hlo]; simpl;
    [|split; [intros H; split; [intros; lia|done]|by intros [_ ?]]].
  destruct (Z.ltb_spec pos (FileEnd f)) as [Hhi|Hhi]; simpl;
    [|split; [intros H; split; [intros; lia|done]|by intros [_ ?]]].
  destruct (inspectFuncDecl pos (Decls f)) as [fn'|] eqn:Hi.
  - split; [done|]. intros [H _]. exfalso.
    apply inspectFuncDecl_elem in Hi as [Hi Hp]. by apply (H fn').
  - split; [|by intros [_ ?]]. intros H. split; [|done].
    intros fn _ _. by apply inspectFuncDecl_None.
Qed.

(** X2. The locator for functions.  A declaration it returns is a function
    declaration of a file of the package whose extent contains the
    position, with its name exactly at the position.  It returns nil
    exactly when no file whose extent contains the position declares a
    function named at the position: in particular for positions outside
    every file and for the positions of interface methods. *)
Theorem findFuncDeclAt_spec (p : Package) (pos : Z) :
  (∀ fn, findFuncDeclAt p pos = Some fn →
     ∃ f, fileAt p pos f ∧ DFunc fn ∈ Decls f ∧ NamePos (Name fn) = pos) ∧
  (findFuncDeclAt p pos = None ↔
   ∀ f fn, fileAt p pos f → DFunc fn ∈ Decls f → NamePos (Name fn) ≠ pos).
Proof.
  unfold findFuncDeclAt, fileAt. split.
  - intros fn (f & ? & ? & ? & ? & ?)%findFuncDeclIn_Some. by exists f.
  - rewrite findFuncDeclIn_None. split.
    + intros H f fn (? & ? & ?). by apply H.
    + intros H f fn ? ? ?. by apply H.
Qed.

(** X3. Finding a declaration back.  When a function declaration lies in
    a file of the package whose extent contains its name position, and no
    other function declaration of such a file has its name at that
    position, the locator returns this declaration for its name position,
    and [GetFuncCode] returns its printed text, or the printer's error. *)
Theorem GetFuncCode_own_declaration (p : Package) (f : File) (fn : FuncDecl) :
  fileAt p (NamePos (Name fn)) f →
  DFunc fn ∈ Decls f →
  (∀ f' fn', fileAt p (NamePos (Name fn)) f' → DFunc fn' ∈ Decls f' →
             NamePos (Name fn') = NamePos (Name fn) → fn' = fn) →
  findFuncDeclAt p (NamePos (Name fn)) = Some fn ∧
  GetFuncCode {| Pkg := p; Fn := fn |}
  = match formatFuncDecl p fn with
    | inl text => (text, None)
    | inr err => ("", Some err)
    end.
Proof.
  intros Hf Hin Huniq.
  destruct (findFuncDeclAt_spec p (NamePos (Name fn))) as [Hsome Hnone].
  assert (findFuncDeclAt p (NamePos (Name fn)) = Some fn) as Hfound.
  { destruct (findFuncDeclAt p (NamePos (Name fn))) as [fn'|] eqn:Hl.
    - destruct (Hsome fn' eq_refl) as (f' & Hf' & Hin' & Hp').
      f_equal. by eapply Huniq.
    - exfalso. by eapply (proj1 Hnone eq_refl f fn). }
  split; [done|]. unfold GetFuncCode, getFuncSourceSnippet. simpl.
  rewrite Hfound. by destruct (formatFuncDecl p fn).
Qed.

(** The theorem at [B] of the example project. *)
Lemma GetFuncCode_own_declaration_witness :
  GetFuncCode {| Pkg := Scenario.pkg; Fn := Scenario.declB |}
  = ("func B()", None).
Proof.
  refine (proj2 (GetFuncCode_own_declaration Scenario.pkg Scenario.file
                   Scenario.declB _ _ _)).
  - split; [left|]. by vm_compute.
  - right. left.
  - intros f' fn' [Hin _] Hd Hp.
    apply list_elem_of_singleton in Hin as ->.
    repeat (apply elem_of_cons in Hd as [Hd|Hd];
            [try discriminate Hd; injection Hd as ->;
             first [reflexivity | by vm_compute in Hp]|]).
    by apply elem_of_nil in Hd.
Defined.

(** ** Projects on which the traversal cannot panic *)

Section Total.
Variable depth : Z.
Variable pkgs : list Package.
Variable initialTarget : AnalysisTarget.
Hypothesis Hrun :
  ∀ t, t ∈ initialTarget :: projectTargets pkgs → runnable t.

Lemma recordFuncs_total d fs acc :
  Forall (λ f, in_scope (projectPackagesOf pkgs) (func_pkg f)) fs →
  ∃ acc', foldM (recordFunc depth (projectPackagesOf pkgs)
                   (typePkgMapOf pkgs) d) fs acc = Done acc'.
Proof.
  intros H.
  refine (foldM_total _ (λ f, in_scope (projectPackagesOf pkgs) (func_pkg f))
            fs _ H acc).
  intros [called q] f (p & Hp & Hfl). unfold recordFunc. rewrite Hp.
  destruct (called !! FullName f); [eauto|].
  destruct (d <? depth)%Z; [|eauto].
  cbn [Path mbind outcome_bind lookupPkg]. rewrite Hfl.
  destruct (typePkgMapOf pkgs !! pkg_addr p) as [defPkg|]; [|eauto].
  destruct (findFuncDeclAt defPkg (func_pos f)); eauto.
Qed.

Lemma step_total t rest st :
  known_task initialTarget pkgs t →
  ∃ st', step depth (projectPackagesOf pkgs) (typePkgMapOf pkgs) t rest st
         = Done st'.
Proof.
  intros Hk. destruct (Hrun _ Hk) as [[stmts Hb] Hres]. unfold step.
  destruct Hres as [->|[f ->]]; [eauto|].
  destruct (flag (processedFuncs st) (FullName f)); [eauto|].
  unfold expand. rewrite Hb. unfold Walk_Body. cbn [mbind outcome_bind].
  set (c := Walk _ _ _ _).
  assert (scoped (projectPackagesOf pkgs) c) as [Hsf Hst].
  { apply (Walk_Body_scoped (ObjectOf (Pkg (Target t))) _ (Some stmts)).
    reflexivity. }
  destruct (recordFuncs_total (Depth t) (CalledFuncs c)
              (allCalledFuncs st, rest) Hsf) as [[called q] ->].
  destruct (recordTypes_total pkgs (ReferencedTypes c)
              (allReferencedTypes st) Hst) as [types ->].
  eauto.
Qed.

Lemma loop_total fuel st :
  Forall (known_task initialTarget pkgs) (queue st) →
  missing_measure initialTarget pkgs st ≤ fuel →
  ∃ st', loop depth (projectPackagesOf pkgs) (typePkgMapOf pkgs) fuel st
         = Done st'.
Proof.
  revert st. induction fuel as [|fuel IH]; intros st Hk Hm; simpl.
  - destruct (queue st) eqn:Hq; [eauto|]. unfold missing_measure in Hm.
    rewrite Hq in Hm. simpl in Hm. lia.
  - destruct (queue st) as [|t rest] eqn:Hq; [eauto|].
    assert (known_task initialTarget pkgs t) as Ht
      by (by apply Forall_cons in Hk as [? _]).
    destruct (step_total t rest st Ht) as [st1 Hs]. rewrite Hs.
    cbn [mbind outcome_bind]. rewrite <- Hq in Hk.
    destruct (step_case_measure depth pkgs initialTarget t rest st st1 Hq Hk)
      as [Hk1 Hm1]; [by apply step_spec|].
    apply IH; [done|lia].
Qed.
End Total.

(** X4. No panic on runnable projects.  When the target and every
    function declaration of the project's packages have a body, and their
    names resolve to functions (or to nothing), the traversal returns its
    two result sets, with a nil error, for every depth. *)
Theorem traversal_returns_on_runnable_project
    (initialTarget : AnalysisTarget) (depth : Z) (pkgs : list Package) :
  (∀ t, t ∈ initialTarget :: projectTargets pkgs → runnable t) →
  ∃ r, performRecursiveAnalysis initialTarget depth pkgs = Done (r, None).
Proof.
  intros Hrun.
  destruct (loop_total depth pkgs initialTarget Hrun
              (traversalBound initialTarget pkgs)
              (initial_state initialTarget)) as [st' Hl].
  - apply initial_known.
  - by rewrite initial_measure.
  - unfold performRecursiveAnalysis, performRecursiveAnalysisFuel.
    rewrite Hl. eauto.
Qed.

(** The theorem at the two-cycle project. *)
Lemma traversal_returns_on_runnable_project_witness :
  ∃ r, performRecursiveAnalysis TwoCycle.target 5 [TwoCycle.pkg]
       = Done (r, None).
Proof.
  apply traversal_returns_on_runnable_project.
  intros t Ht. vm_compute in Ht.
  repeat (apply elem_of_cons in Ht as [->|Ht];
          [split; [by eexists|right; by eexists]|]).
  by apply elem_of_nil in Ht.
Defined.

(** ** Depths and the order of expansion *)

Section Depths.
Variable depth : Z.
Variable pkgs : list Package.

Abbreviation proj := (projectPackagesOf pkgs).
Abbreviation tpm := (typePkgMapOf pkgs).

(** The callable loop only appends tasks, one level below the task being
    expanded, and only when that task is above the bound. *)
Lemma recordFuncs_queue d fs called q called' q' :
  foldM (recordFunc depth proj tpm d) fs (called, q) = Done (called', q') →
  ∃ new, q' = q ++ new ∧
         Forall (λ t, Depth t = (d + 1)%Z ∧ (d < depth)%Z) new.
Proof.
  revert called q. induction fs as [|f fs IH]; intros called q.
  { intros [= <- <-]. exists []. by rewrite app_nil_r. }
  rewrite foldM_cons, bind_Done. intros ([c1 q1] & H1 & H2).
  apply IH in H2 as (new & -> & Hnew).
  apply recordFunc_spec in H1 as [(_ & _ & ->)|(_ & _ & Hq)];
    [by exists new|].
  destruct Hq as [->|(Hd & _ & defPkg & defNode & _ & _ & ->)];
    [by exists new|].
  eexists (_ :: new). rewrite <- (assoc_L (++)). split; [done|].
  by constructor.
Qed.

Lemma step_case_queue t rest st st' :
  step_case depth pkgs t rest st st' →
  ∃ new, queue st' = rest ++ new ∧
         Forall (λ t', Depth t' = (Depth t + 1)%Z ∧ (Depth t < depth)%Z) new.
Proof.
  intros [_ ->|f c called q types _ _ _ Hf _ ->]; simpl.
  - exists []. by rewrite app_nil_r.
  - by eapply recordFuncs_queue.
Qed.

Lemma step_case_window t rest st st' :
  queue st = t :: rest →
  bfs_window (queue st) → Forall (depth_in_bound depth) (queue st) →
  step_case depth pkgs t rest st st' →
  bfs_window (queue st') ∧ Forall (depth_in_bound depth) (queue st') ∧
  Forall (by_depth t) (queue st').
Proof.
  intros Hq [Hsort Hwin] Hb (new & -> & Hnew)%step_case_queue.
  rewrite Hq in Hsort, Hwin, Hb.
  apply StronglySorted_cons in Hsort as [Hle Hsort].
  apply Forall_cons in Hb as [[Ht0 Ht1] Hb].
  rewrite Forall_forall in Hnew, Hle.
  assert (∀ x, x ∈ rest → (Depth x ≤ Depth t + 1)%Z) as Hrest.
  { intros x Hx. apply (Hwin t x eq_refl). by right. }
  split; [split|split].
  - apply StronglySorted_app_2; [| done |].
    + intros x1 x2 H1 H2. unfold by_depth.
      destruct (Hnew _ H2) as [-> _]. by apply Hrest.
    + clear Hrest Hwin Hle Hsort Hb.
      induction new as [|n new IH]; constructor.
      * apply IH. intros y Hy. apply Hnew. by right.
      * apply Forall_forall. intros y Hy. unfold by_depth.
        destruct (Hnew n) as [-> _]; [left|].
        destruct (Hnew y) as [-> _]; [by right|]. lia.
  - intros h x Hh Hx.
    assert (Depth t ≤ Depth h)%Z as Hth.
    { destruct rest as [|r rest'].
      - destruct new as [|n new']; [done|]. injection Hh as <-.
        destruct (Hnew n) as [-> _]; [left|]. lia.
      - injection Hh as <-. apply Hle. left. }
    apply elem_of_app in Hx as [Hx|Hx].
    + specialize (Hrest _ Hx). lia.
    + destruct (Hnew _ Hx) as [-> _]. lia.
  - apply Forall_app. split; [done|]. apply Forall_forall. intros x Hx.
    destruct (Hnew _ Hx) as [Hd Hlt]. unfold depth_in_bound. lia.
  - apply Forall_app. split; [by apply Forall_forall|].
    apply Forall_forall. intros x Hx. destruct (Hnew _ Hx) as [Hd _].
    unfold by_depth. lia.
Qed.

Lemma expansions_window fuel st :
  bfs_window (queue st) → Forall (depth_in_bound depth) (queue st) →
  StronglySorted by_depth (expansions depth proj tpm fuel st).*2 ∧
  (∀ x, x ∈ expansions depth proj tpm fuel st →
        depth_in_bound depth x.2 ∧
        ∀ h, head (queue st) = Some h → by_depth h x.2).
Proof.
  revert st. induction fuel as [|fuel IH]; intros st Hw Hb.
  { simpl. destruct (queue st); (split; [constructor|by intros ? ?%elem_of_nil]). }
  destruct (queue st) as [|t rest] eqn:Hq.
  { simpl. rewrite Hq. split; [constructor|by intros ? ?%elem_of_nil]. }
  destruct (step depth proj tpm t rest st) as [st1| |] eqn:Hs;
    [|simpl; rewrite Hq, Hs;
      (split; [constructor|by intros ? ?%elem_of_nil])..].
  rewrite (expansions_step depth pkgs fuel st t rest st1 Hq Hs).
  rewrite <- Hq in Hw, Hb.
  destruct (step_case_window t rest st st1 Hq Hw Hb) as (Hw1 & Hb1 & Hge);
    [by apply step_spec|].
  destruct (IH st1 Hw1 Hb1) as [Hsorted Hall].
  assert (∀ x, x ∈ expansions depth proj tpm fuel st1 → by_depth t x.2)
    as Htail.
  { intros x Hx. destruct (Hall x Hx) as [_ Hh].
    destruct fuel as [|fuel'];
      [simpl in Hx; destruct (queue st1); by apply elem_of_nil in Hx|].
    apply expansions_elem in Hx as (h & rest1 & _ & Hq1 & _).
    specialize (Hh h). rewrite Hq1 in Hh, Hge. specialize (Hh eq_refl).
    apply Forall_cons in Hge as [Hge _]. unfold by_depth in *. lia. }
  rewrite Hq in Hb. apply Forall_cons in Hb as [Hbt _].
  split.
  - destruct (expandedKey t st); [|done]. simpl.
    constructor; [done|]. apply Forall_forall.
    intros y (x & -> & Hx)%list_elem_of_fmap. by apply Htail.
  - intros x Hx. apply elem_of_app in Hx as [Hx|Hx].
    + destruct (expandedKey t st); [|by apply elem_of_nil in Hx].
      apply list_elem_of_singleton in Hx as ->. simpl. split; [done|].
      intros h [= <-]. unfold by_depth. lia.
    + split; [by apply Hall|]. intros h [= <-]. by apply Htail.
Qed.
End Depths.

(** X5. Breadth-first order within the bound.  In every run the tasks are
    expanded in order of non-decreasing depth, and every expanded task has
    a depth between 0 and the bound (0 when the bound is negative). *)
Theorem expansions_breadth_first (initialTarget : AnalysisTarget) (depth : Z)
    (pkgs : list Package) (fuel : nat) :
  StronglySorted by_depth
    (expansions depth (projectPackagesOf pkgs) (typePkgMapOf pkgs) fuel
       (initial_state initialTarget)).*2 ∧
  ∀ x, x ∈ expansions depth (projectPackagesOf pkgs) (typePkgMapOf pkgs) fuel
             (initial_state initialTarget) →
       (0 ≤ Depth x.2)%Z ∧ (Depth x.2 ≤ Z.max 0 depth)%Z.
Proof.
  destruct (expansions_window depth pkgs fuel (initial_state initialTarget))
    as [Hs Hall].
  - split; [repeat constructor|]. simpl.
    intros h t [= <-] ->%list_elem_of_singleton. simpl. lia.
  - constructor; [|done]. unfold depth_in_bound. simpl. lia.
  - split; [done|]. intros x Hx. by destruct (Hall x Hx) as [? _].
Qed.

(** ** A bound that is not positive *)

Lemma foldM_ext {A B : Type} (f g : B → A → outcome B) (xs : list A) (b : B) :
  (∀ b x, f b x = g b x) → foldM f xs b = foldM g xs b.
Proof.
  intros Hfg. revert b. induction xs as [|x xs IH]; intros b; [done|].
  rewrite !foldM_cons, Hfg. destruct (g b x); simpl; [apply IH|done..].
Qed.

Lemma recordFunc_at_or_below depth1 depth2 proj tpm d acc f :
  ¬ (d < depth1)%Z → ¬ (d < depth2)%Z →
  recordFunc depth1 proj tpm d acc f = recordFunc depth2 proj tpm d acc f.
Proof.
  intros H1 H2. unfold recordFunc. destruct acc as [called q].
  destruct (called !! FullName f); [done|].
  destruct (Z.ltb_spec d depth1); [done|].
  by destruct (Z.ltb_spec d depth2).
Qed.

Lemma step_at_or_below depth1 depth2 proj tpm t rest st :
  ¬ (Depth t < depth1)%Z → ¬ (Depth t < depth2)%Z →
  step depth1 proj tpm t rest st = step depth2 proj tpm t rest st.
Proof.
  intros H1 H2. unfold step.
  destruct (ObjectOf _ _) as [[f| |]|]; try done.
  destruct (flag _ _); [done|]. unfold expand.
  destruct (Walk_Body _ _ _ _) as [c| |]; [|done..].
  cbn [mbind outcome_bind].
  rewrite (foldM_ext (recordFunc depth1 proj tpm (Depth t))
             (recordFunc depth2 proj tpm (Depth t))); [done|].
  intros b x. by apply recordFunc_at_or_below.
Qed.

Lemma loop_nonpositive depth pkgs fuel st :
  (depth ≤ 0)%Z → Forall (λ t, (0 ≤ Depth t)%Z) (queue st) →
  loop depth (projectPackagesOf pkgs) (typePkgMapOf pkgs) fuel st
  = loop 0 (projectPackagesOf pkgs) (typePkgMapOf pkgs) fuel st.
Proof.
  intros Hd. revert st. induction fuel as [|fuel IH]; intros st Hq; [done|].
  simpl. destruct (queue st) as [|t rest] eqn:Hqueue; [done|].
  apply Forall_cons in Hq as [Ht Hrest].
  rewrite (step_at_or_below depth 0); [|lia..].
  destruct (step 0 _ _ t rest st) as [st1| |] eqn:Hs; [|done..].
  cbn [mbind outcome_bind]. apply IH.
  apply step_spec, step_case_queue in Hs as (new & -> & Hnew).
  apply Forall_app. split; [done|].
  eapply Forall_impl; [done|]. intros x [-> _]. lia.
Qed.

(** X6. A negative bound is depth 0: for every bound that is not
    positive the traversal gives the outcome it gives for the bound 0. *)
Theorem nonpositive_depth_is_zero (initialTarget : AnalysisTarget) (depth : Z)
    (pkgs : list Package) :
  (depth ≤ 0)%Z →
  performRecursiveAnalysis initialTarget depth pkgs
  = performRecursiveAnalysis initialTarget 0 pkgs.
Proof.
  intros Hd. unfold performRecursiveAnalysis, performRecursiveAnalysisFuel.
  rewrite loop_nonpositive; [done|done|].
  constructor; [done|constructor].
Qed.

(** The theorem at the bound -3 on the example project. *)
Lemma nonpositive_depth_is_zero_witness :
  performRecursiveAnalysis Scenario.target (-3) [Scenario.pkg]
  = performRecursiveAnalysis Scenario.target 0 [Scenario.pkg].
Proof. apply nonpositive_depth_is_zero. lia. Defined.

(** ** The result sets are what the expansions find *)

Section Found.
Variable depth : Z.
Variable pkgs : list Package.

Abbreviation proj := (projectPackagesOf pkgs).
Abbreviation tpm := (typePkgMapOf pkgs).

Lemma step_case_found t rest st st1 :
  step_case depth pkgs t rest st st1 →
  (expandedKey t st = None ∧
   allCalledFuncs st1 = allCalledFuncs st ∧
   allReferencedTypes st1 = allReferencedTypes st) ∨
  (is_Some (expandedKey t st) ∧
   dom (allCalledFuncs st1)
   = list_to_set (FullName <$> bodyFuncs proj (Target t))
     ∪ dom (allCalledFuncs st) ∧
   dom (allReferencedTypes st1)
   = list_to_set (typeKey <$> bodyTypes proj (Target t))
     ∪ dom (allReferencedTypes st)).
Proof.
  unfold expandedKey.
  intros [[Hr|(f & Hr & Hfl)] ->|f c called q types Hr Hfl Hw Hf Hty ->];
    rewrite Hr; [by left|rewrite Hfl; by left|]. rewrite Hfl. right.
  split; [by eexists|]. simpl.
  destruct (bodyFuncs_Walk_Body pkgs (Target t) c Hw) as [-> ->].
  split; [by eapply recordFuncs_dom|by eapply recordTypes_dom].
Qed.

Lemma loop_found fuel st st' :
  loop depth proj tpm fuel st = Done st' →
  (∀ k, k ∈ dom (allCalledFuncs st') ↔
        k ∈ dom (allCalledFuncs st) ∨
        ∃ x f, x ∈ expansions depth proj tpm fuel st ∧
               f ∈ bodyFuncs proj (Target x.2) ∧ FullName f = k) ∧
  (∀ k, k ∈ dom (allReferencedTypes st') ↔
        k ∈ dom (allReferencedTypes st) ∨
        ∃ x t, x ∈ expansions depth proj tpm fuel st ∧
               t ∈ bodyTypes proj (Target x.2) ∧ typeKey t = k).
Proof.
  revert st. induction fuel as [|fuel IH]; intros st.
  { simpl. destruct (queue st); [|done]. intros [= <-].
    split; intros k; (split; [by left|]);
      by intros [?|(? & ? & ?%elem_of_nil & _)]. }
  destruct (queue st) as [|t rest] eqn:Hq.
  { simpl. rewrite Hq. intros [= <-].
    split; intros k; (split; [by left|]);
      by intros [?|(? & ? & ?%elem_of_nil & _)]. }
  intros Hl. pose proof Hl as Hl'. simpl in Hl'. rewrite Hq in Hl'.
  apply bind_Done in Hl' as (st1 & Hs & Hl1).
  rewrite (expansions_step depth pkgs fuel st t rest st1 Hq Hs).
  destruct (IH st1 Hl1) as [IHf IHt].
  apply step_spec, step_case_found in Hs
    as [(-> & Hc & Ht)|([key ->] & Hdf & Hdt)];
    [by rewrite Hc in IHf; rewrite Ht in IHt|].
  split; intros k.
  - rewrite IHf, Hdf, elem_of_union, elem_of_list_to_set, list_elem_of_fmap.
    split.
    + intros [[(f & -> & Hf)|?]|(x & f & Hx & Hf & <-)]; [|by left|].
      * right. exists (key, t), f. split; [left|done].
      * right. exists x, f. split; [by right|done].
    + intros [?|(x & f & Hx & Hf & <-)]; [left; by right|].
      apply elem_of_cons in Hx as [->|Hx].
      * left. left. by exists f.
      * right. by exists x, f.
  - rewrite IHt, Hdt, elem_of_union, elem_of_list_to_set, list_elem_of_fmap.
    split.
    + intros [[(f & -> & Hf)|?]|(x & f & Hx & Hf & <-)]; [|by left|].
      * right. exists (key, t), f. split; [left|done].
      * right. exists x, f. split; [by right|done].
    + intros [?|(x & f & Hx & Hf & <-)]; [left; by right|].
      apply elem_of_cons in Hx as [->|Hx].
      * left. left. by exists f.
      * right. by exists x, f.
Qed.
End Found.

(** X7. The result sets are exactly what the expansions find.  A name is
    in the callable result set if and only if the visitor reports a
    callable with that name in the body of a task that was expanded; and
    likewise for the type result set.  In particular the target itself is
    listed only when some expanded body mentions it. *)
Theorem results_are_what_expansions_find (initialTarget : AnalysisTarget)
    (depth : Z) (pkgs : list Package) (fuel : nat) (r : analysisResult)
    (err : error) :
  performRecursiveAnalysisFuel fuel initialTarget depth pkgs = Done (r, err) →
  (∀ k, k ∈ dom (res_CalledFuncs r) ↔
        ∃ x f,
          x ∈ expansions depth (projectPackagesOf pkgs) (typePkgMapOf pkgs)
                fuel (initial_state initialTarget) ∧
          f ∈ bodyFuncs (projectPackagesOf pkgs) (Target x.2) ∧
          FullName f = k) ∧
  (∀ k, k ∈ dom (res_ReferencedTypes r) ↔
        ∃ x t,
          x ∈ expansions depth (projectPackagesOf pkgs) (typePkgMapOf pkgs)
                fuel (initial_state initialTarget) ∧
          t ∈ bodyTypes (projectPackagesOf pkgs) (Target x.2) ∧
          typeKey t = k).
Proof.
  intros (_ & st' & Hl & _ & -> & ->)%performRecursiveAnalysisFuel_Done.
  destruct (loop_found depth pkgs fuel _ st' Hl) as [Hf Ht].
  split; intros k.
  - rewrite Hf. simpl. rewrite dom_empty_L. set_solver.
  - rewrite Ht. simpl. rewrite dom_empty_L. set_solver.
Qed.

(** The theorem on the example project at depth 1: [D] is listed because
    the body of [B], which was expanded, mentions it. *)
Lemma results_are_what_expansions_find_witness :
  ∃ x f,
    x ∈ expansions 1 (projectPackagesOf [Scenario.pkg])
          (typePkgMapOf [Scenario.pkg]) 4 (initial_state Scenario.target) ∧
    f ∈ bodyFuncs (projectPackagesOf [Scenario.pkg]) (Target x.2) ∧
    FullName f = "proj.D".
Proof.
  assert (∃ r, performRecursiveAnalysisFuel 4 Scenario.target 1 [Scenario.pkg]
               = Done (r, None) ∧ "proj.D" ∈ dom (res_CalledFuncs r))
    as (r & H & Hd).
  { eexists. split; [by vm_compute|]. apply elem_of_dom. eexists.
    by vm_compute. }
  exact (proj1 (proj1 (results_are_what_expansions_find _ _ _ _ _ _ H)
                  "proj.D") Hd).
Defined.

(** ** The dependency blocks of the report *)

Section Blocks.
Variable pkgs : list Package.

Abbreviation tpm := (typePkgMapOf pkgs).

Lemma funcBlock_iff name f b :
  b ∈ funcBlock tpm (name, f) ↔
  blockName b = name ∧
  ∃ defPkg, lookupPkg tpm (func_pkg f) = Some defPkg ∧
            getFuncSourceSnippet defPkg (func_pos f) = (blockSnippet b, None) ∧
            blockFile b = FileNameAt defPkg (func_pos f).
Proof.
  unfold funcBlock.
  destruct (lookupPkg tpm (func_pkg f)) as [defPkg|];
    [|split; [by intros ?%elem_of_nil|by intros (_ & p & [=] & _)]].
  destruct (getFuncSourceSnippet defPkg (func_pos f)) as [snippet [err|]]
    eqn:Hs.
  - split; [by intros ?%elem_of_nil|].
    intros (_ & p & [= <-] & Hs' & _). rewrite Hs in Hs'. discriminate Hs'.
  - rewrite list_elem_of_singleton. split.
    + intros ->. split; [done|]. exists defPkg. by rewrite Hs.
    + intros (<- & p & [= <-] & Hs' & Hfile). rewrite Hs in Hs'.
      injection Hs' as ->. destruct b. simpl in *. by rewrite Hfile.
Qed.

Lemma typeBlockOf_iff name ti b :
  b ∈ typeBlockOf tpm (name, ti) ↔
  blockName b = name ∧
  ∃ p, lookupPkg tpm (type_pkg (Definition_ ti)) = Some p ∧
       getTypeSourceSnippetIn p (Syntax p) (type_pos (Definition_ ti))
       = (blockSnippet b, None) ∧
       blockFile b = FileNameAt p (type_pos (Definition_ ti)).
Proof.
  unfold typeBlockOf. cbn [fst snd].
  destruct (lookupPkg tpm (type_pkg (Definition_ ti))) as [p|];
    [|split; [by intros ?%elem_of_nil|by intros (_ & p & [=] & _)]].
  destruct (getTypeSourceSnippetIn p (Syntax p) (type_pos (Definition_ ti)))
    as [snippet [err|]] eqn:Hs.
  - split; [by intros ?%elem_of_nil|].
    intros (_ & p' & [= <-] & Hs' & _). rewrite Hs in Hs'. discriminate Hs'.
  - rewrite list_elem_of_singleton. split.
    + intros ->. split; [done|]. exists p. by rewrite Hs.
    + intros (<- & p' & [= <-] & Hs' & Hfile). rewrite Hs in Hs'.
      injection Hs' as ->. destruct b. simpl in *. by rewrite Hfile.
Qed.

(** The loop over the types, when it returns, has appended the block of
    every entry, in order. *)
Lemma typeBlocks_are entries acc blocks :
  foldM (typeBlock tpm) entries acc = Done blocks →
  blocks = acc ++ (entries ≫= typeBlockOf tpm).
Proof.
  revert acc. induction entries as [|[name ti] entries IH]; intros acc.
  { intros [= <-]. by rewrite app_nil_r. }
  rewrite foldM_cons, bind_Done. intros (acc1 & H1 & H2).
  apply IH in H2 as ->. rewrite bind_cons, (assoc_L (++)). f_equal.
  unfold typeBlock in H1. unfold typeBlockOf. cbn [fst snd] in *.
  destruct (lookupPkg tpm (type_pkg (Definition_ ti))) as [p|]; [|done].
  unfold getTypeSourceSnippet in H1. cbn [mbind outcome_bind] in H1.
  destruct (getTypeSourceSnippetIn p (Syntax p) (type_pos (Definition_ ti)))
    as [snippet [err|]]; injection H1 as <-; [by rewrite app_nil_r|done].
Qed.

(** At most one block for each entry, under the entry's name. *)
Lemma blocks_NoDup {V : Type} (g : string * V → list Block)
    (kvs : list (string * V)) :
  (∀ e b, b ∈ g e → blockName b = e.1) →
  (∀ e, length (g e) ≤ 1) →
  NoDup kvs.*1 → NoDup (blockName <$> (kvs ≫= g)).
Proof.
  intros Hname Hone. induction kvs as [|e kvs IH]; [constructor|].
  rewrite fmap_cons, bind_cons, fmap_app. intros [Hnotin Hnd]%NoDup_cons.
  apply NoDup_app. split; [|split; [|by apply IH]].
  - specialize (Hone e). destruct (g e) as [|b [|b' l]]; simpl in *;
      [constructor|apply NoDup_singleton|lia].
  - intros k (b & -> & Hb)%list_elem_of_fmap
      (b' & Hk & (e' & Hb' & He')%list_elem_of_bind)%list_elem_of_fmap.
    apply Hnotin. apply list_elem_of_fmap. exists e'. split; [|done].
    rewrite <- (Hname e b Hb), Hk. by apply Hname.
Qed.

Lemma funcBlock_length e : length (funcBlock tpm e) ≤ 1.
Proof.
  destruct e as [name f]. unfold funcBlock.
  destruct (lookupPkg _ _); [|simpl; lia].
  destruct (getFuncSourceSnippet _ _) as [? [?|]]; simpl; lia.
Qed.

Lemma typeBlockOf_length e : length (typeBlockOf tpm e) ≤ 1.
Proof.
  unfold typeBlockOf. destruct (lookupPkg _ _); [|simpl; lia].
  destruct (getTypeSourceSnippetIn _ _ _) as [? [?|]]; simpl; lia.
Qed.
End Blocks.

(** X8. The dependency blocks of a report.  In every report that
    [Analyze] writes, the callable blocks are exactly the discovered
    callables whose snippet is retrieved: a block is present if and only
    if it is labelled with the name of a discovered callable, the snippet
    the package of that callable yields at its position, and the file
    name at that position; and no name has two blocks.  The same holds
    for the type blocks.  The two summary lists have as many lines as the
    result sets have entries. *)
Theorem report_blocks (target : AnalysisTarget) (file : string) (depth : Z)
    (pkgs : list Package) (r : analysisResult) (rep : Report) :
  AnalyzeReport target file depth pkgs r rep →
  (∀ b, b ∈ funcBlocks rep ↔
        ∃ f defPkg,
          res_CalledFuncs r !! blockName b = Some f ∧
          lookupPkg (typePkgMapOf pkgs) (func_pkg f) = Some defPkg ∧
          getFuncSourceSnippet defPkg (func_pos f) = (blockSnippet b, None) ∧
          blockFile b = FileNameAt defPkg (func_pos f)) ∧
  (∀ b, b ∈ typeBlocks rep ↔
        ∃ ti p,
          res_ReferencedTypes r !! blockName b = Some ti ∧
          lookupPkg (typePkgMapOf pkgs) (type_pkg (Definition_ ti)) = Some p ∧
          getTypeSourceSnippetIn p (Syntax p) (type_pos (Definition_ ti))
          = (blockSnippet b, None) ∧
          blockFile b = FileNameAt p (type_pos (Definition_ ti))) ∧
  NoDup (blockName <$> funcBlocks rep) ∧
  NoDup (blockName <$> typeBlocks rep) ∧
  length (summaryFuncs rep) = size (res_CalledFuncs r) ∧
  length (summaryTypes rep) = size (res_ReferencedTypes r).
Proof.
  intros (sf & sty & bf & bt & Hsf & Hst & Hbf & Hbt & Hb).
  unfold buildReport in Hb. apply bind_Done in Hb as (tb & Htb & [= <-]).
  apply typeBlocks_are in Htb as ->. simpl.
  split; [|split; [|split; [|split; [|split]]]].
  - intros b. rewrite list_elem_of_bind. split.
    + intros ([name f] & (<- & defPkg & ? & ? & ?)%funcBlock_iff & Hin).
      apply (range_order_lookup _ _ _ _ Hbf) in Hin. by exists f, defPkg.
    + intros (f & defPkg & Hl & ? & ? & ?). exists (blockName b, f).
      split; [|by apply (range_order_lookup _ _ _ _ Hbf)].
      apply funcBlock_iff. split; [done|]. by exists defPkg.
  - intros b. rewrite list_elem_of_bind. split.
    + intros ([name ti] & (<- & p & ? & ? & ?)%typeBlockOf_iff & Hin).
      apply (range_order_lookup _ _ _ _ Hbt) in Hin. by exists ti, p.
    + intros (ti & p & Hl & ? & ? & ?). exists (blockName b, ti).
      split; [|by apply (range_order_lookup _ _ _ _ Hbt)].
      apply typeBlockOf_iff. split; [done|]. by exists p.
  - apply blocks_NoDup; [|apply funcBlock_length|by eapply range_order_NoDup].
    intros [name f] b. by intros [? _]%funcBlock_iff.
  - apply blocks_NoDup;
      [|apply typeBlockOf_length|by eapply range_order_NoDup].
    intros [name ti] b. by intros [? _]%typeBlockOf_iff.
  - unfold range_order in Hsf. by rewrite length_fmap, Hsf, length_map_to_list.
  - unfold range_order in Hst. by rewrite length_fmap, Hst, length_map_to_list.
Qed.

(** The theorem at the report of the interface call: one type block. *)
Lemma report_blocks_witness :
  length (summaryTypes interface_call_report) = 1.
Proof.
  pose proof (proj2 (proj2 (proj2 (proj2 (proj2
    (report_blocks InterfaceCall.target "proj/a.go" 1 [InterfaceCall.pkg] _
       interface_call_report
       (proj2 (interface_call_reports _ interface_call_result _) eq_refl)))))))
    as H.
  rewrite H. by vm_compute.
Defined.

(** ** The locator for types *)







(** ** The target search *)

Lemma findDeclNamed_Some funcName decls fn :
  findDeclNamed funcName decls = Some fn →
  DFunc fn ∈ decls ∧ IdentName (Name fn) = funcName.
Proof.
  induction decls as [|d ds IH]; simpl; [done|].
  destruct d as [fn'| |];
    try (intros [? ?]%IH; split; [by right|done]).
  case_decide as Hn; [|intros [? ?]%IH; split; [by right|done]].
  intros [= <-]. split; [left|done].
Qed.

Lemma findDeclNamed_None funcName decls :
  findDeclNamed funcName decls = None ↔
  ∀ fn, DFunc fn ∈ decls → IdentName (Name fn) ≠ funcName.
Proof.
  induction decls as [|d ds IH]; simpl.
  { split; [|done]. by intros _ fn ?%elem_of_nil. }
  destruct d as [fn'| |].
  - case_decide as Hn.
    + split; [done|]. intros H. exfalso. apply (H fn'); [left|done].
    + rewrite IH. split.
      * intros H fn [[= ->]|Hin]%elem_of_cons; [done|by apply H].
      * intros H fn Hin. apply H. by right.
  - rewrite IH. split.
    + intros H fn [?|Hin]%elem_of_cons; [done|by apply H].
    + intros H fn Hin. apply H. by right.
  - rewrite IH. split.
    + intros H fn [?|Hin]%elem_of_cons; [done|by apply H].
    + intros H fn Hin. apply H. by right.
Qed.

Lemma findInFiles_Some p filePath funcName i goFiles fn :
  findInFiles p filePath funcName i goFiles = Done (Some fn) →
  ∃ j f, goFiles !! j = Some filePath ∧ Syntax p !! (i + j) = Some f ∧
         DFunc fn ∈ Decls f ∧ IdentName (Name fn) = funcName.
Proof.
  revert i. induction goFiles as [|file rest IH]; intros i; simpl; [done|].
  assert (findInFiles p filePath funcName (S i) rest = Done (Some fn) →
          ∃ j f, (file :: rest) !! j = Some filePath ∧
                 Syntax p !! (i + j) = Some f ∧
                 DFunc fn ∈ Decls f ∧ IdentName (Name fn) = funcName) as Hrest.
  { intros (j & f & Hj & Hf & ?)%IH. exists (S j), f. split; [done|].
    split; [|done]. by replace (i + S j) with (S i + j) by lia. }
  case_decide as Hfile; [|done].
  destruct (Syntax p !! i) as [f|] eqn:Hi; [|done].
  destruct (findDeclNamed funcName (Decls f)) as [fn'|] eqn:Hd; [|done].
  intros [= ->]. apply findDeclNamed_Some in Hd as [? ?].
  exists 0, f. rewrite Nat.add_0_r. by subst.
Qed.

Lemma findInFiles_None p filePath funcName i goFiles :
  findInFiles p filePath funcName i goFiles = Done None →
  ∀ j f fn, goFiles !! j = Some filePath → Syntax p !! (i + j) = Some f →
            DFunc fn ∈ Decls f → IdentName (Name fn) ≠ funcName.
Proof.
  revert i. induction goFiles as [|file rest IH]; intros i; simpl; [done|].
  assert (findInFiles p filePath funcName (S i) rest = Done None →
          ∀ j f fn, rest !! j = Some filePath →
                    Syntax p !! (i + S j) = Some f →
                    DFunc fn ∈ Decls f → IdentName (Name fn) ≠ funcName)
    as Hrest.
  { intros H j f fn Hj Hf. eapply IH; [done|done|].
    by replace (S i + j) with (i + S j) by lia. }
  case_decide as Hfile.
  - destruct (Syntax p !! i) as [f|] eqn:Hi; [|done].
    destruct (findDeclNamed funcName (Decls f)) as [fn'|] eqn:Hd; [done|].
    intros H [|j] f0 fn Hj Hf0; [|by eapply Hrest].
    rewrite Nat.add_0_r, Hi in Hf0. injection Hf0 as <-.
    by apply findDeclNamed_None.
  - intros H [|j] f0 fn Hj Hf0; [|by eapply Hrest].
    simpl in Hj. congruence.
Qed.

Lemma funcDecls_elem p i f fn :
  Syntax p !! i = Some f → DFunc fn ∈ Decls f → fn ∈ funcDecls p.
Proof.
  intros Hf Hd. unfold funcDecls. apply list_elem_of_bind. exists f.
  split; [|by eapply list_elem_of_lookup_2].
  unfold funcDeclsOf. apply list_elem_of_bind. exists (DFunc fn).
  split; [left|done].
Qed.

Lemma projectTargets_elem pkgs t :
  Pkg t ∈ pkgs → Fn t ∈ funcDecls (Pkg t) → t ∈ projectTargets pkgs.
Proof.
  intros Hp Hf. unfold projectTargets. apply list_elem_of_bind.
  exists (Pkg t). split; [|done]. apply list_elem_of_bind. exists (Fn t).
  split; [|done]. destruct t. left.
Qed.

Lemma FindTarget_Some pkgs filePath funcName t e :
  FindTarget pkgs filePath funcName = Done (Some t, e) →
  e = None ∧
  ∃ goFiles i f,
    (goFiles, Pkg t) ∈ pkgs ∧ goFiles !! i = Some filePath ∧
    Syntax (Pkg t) !! i = Some f ∧ DFunc (Fn t) ∈ Decls f ∧
    IdentName (Name (Fn t)) = funcName.
Proof.
  induction pkgs as [|[goFiles p] rest IH]; simpl; [done|].
  rewrite bind_Done. intros ([fn|] & Hfind & H).
  - injection H as <- <-. split; [done|].
    apply findInFiles_Some in Hfind as (j & f & Hj & Hf & Hd & Hn).
    exists goFiles, j, f. split; [left|done].
  - apply IH in H as (-> & goFiles' & i & f & Hp & ?).
    split; [done|]. exists goFiles', i, f. split; [by right|done].
Qed.

(** X10. The target search.  A target that [FindTarget] returns comes
    with a nil error, is a function declaration with the requested name in
    the syntax tree paired with a file of the requested path, in one of
    the given packages, and is therefore one of the project's targets.
    When it returns no target, the error names the function and the file,
    and no syntax tree paired with a file of that path declares a function
    of that name. *)
Theorem FindTarget_spec (pkgs : list (list string * Package))
    (filePath funcName : string) :
  (∀ t e,
     FindTarget pkgs filePath funcName = Done (Some t, e) →
     e = None ∧
     t ∈ projectTargets pkgs.*2 ∧
     ∃ goFiles i f,
       (goFiles, Pkg t) ∈ pkgs ∧ goFiles !! i = Some filePath ∧
       Syntax (Pkg t) !! i = Some f ∧ DFunc (Fn t) ∈ Decls f ∧
       IdentName (Name (Fn t)) = funcName) ∧
  (∀ e,
     FindTarget pkgs filePath funcName = Done (None, e) →
     e = Some ("function '" +:+ funcName +:+ "' not found in file '"
               +:+ filePath +:+ "'") ∧
     ∀ goFiles p i f fn,
       (goFiles, p) ∈ pkgs → goFiles !! i = Some filePath →
       Syntax p !! i = Some f → DFunc fn ∈ Decls f →
       IdentName (Name fn) ≠ funcName).
Proof.
  split.
  - intros t e (-> & goFiles & i & f & Hin & Hi & Hf & Hd & Hn)%FindTarget_Some.
    split; [done|]. split; [|by exists goFiles, i, f].
    apply projectTargets_elem; [|by eapply funcDecls_elem].
    apply list_elem_of_fmap. by exists (goFiles, Pkg t).
  - induction pkgs as [|[goFiles p] rest IH]; intros e; simpl.
    { intros [= <-]. split; [done|]. by intros ? ? ? ? ? ?%elem_of_nil. }
    rewrite bind_Done. intros ([fn|] & Hfind & H); [done|].
    apply IH in H as [-> Hno]. split; [done|].
    intros goFiles' p' i f fn [[= -> ->]|Hin]%elem_of_cons; [|by eapply Hno].
    intros Hi Hf. by eapply (findInFiles_None _ _ _ 0 _ Hfind i).
Qed.

(** The theorem at [B] of the example project. *)
Lemma FindTarget_spec_witness :
  {| Pkg := Scenario.pkg; Fn := Scenario.declB |}
  ∈ projectTargets [Scenario.pkg].
Proof.
  apply (proj1 (proj2 (proj1
    (FindTarget_spec [(["proj/a.go"], Scenario.pkg)] "proj/a.go" "B")
    {| Pkg := Scenario.pkg; Fn := Scenario.declB |} None eq_refl))).
Defined.

(** The theorem at the position of [B] in the example project. *)
Lemma findFuncDeclAt_spec_witness :
  ∃ f, fileAt Scenario.pkg 20 f ∧ DFunc Scenario.declB ∈ Decls f ∧
       NamePos (Name Scenario.declB) = 20%Z.
Proof.
  apply (proj1 (findFuncDeclAt_spec Scenario.pkg 20) Scenario.declB).
  by vm_compute.
Defined.

(** The theorem at the expansions of the example project, bound 1. *)
Lemma expansions_breadth_first_witness :
  Forall (λ x : string * AnalysisTask,
            (0 ≤ Depth x.2)%Z ∧ (Depth x.2 ≤ Z.max 0 1)%Z)
    (expansions 1 (projectPackagesOf [Scenario.pkg])
       (typePkgMapOf [Scenario.pkg]) 4 (initial_state Scenario.target)).
Proof.
  apply Forall_forall.
  exact (proj2 (expansions_breadth_first Scenario.target 1 [Scenario.pkg] 4)).
Defined.

(** X11. A listed file without a syntax tree.  When the first file of a
    package with the requested path stands at an index at which the
    package has no syntax tree, [FindTarget] panics on that package. *)
Theorem FindTarget_missing_syntax (p : Package) (goFiles : list string)
    (rest : list (list string * Package)) (filePath funcName : string)
    (i : nat) :
  goFiles !! i = Some filePath →
  (∀ j, j < i → goFiles !! j ≠ Some filePath) →
  Syntax p !! i = None →
  FindTarget ((goFiles, p) :: rest) filePath funcName
  = Panic "runtime error: index out of range".
Proof.
  intros Hi Hfirst Hnone.
  assert (∀ k files,
    files !! i = Some filePath →
    (∀ j, j < i → files !! j ≠ Some filePath) →
    Syntax p !! (k + i) = None →
    findInFiles p filePath funcName k files
    = Panic "runtime error: index out of range") as H.
  { clear Hi Hfirst Hnone. induction i as [|i IH]; intros k files Hi Hfirst Hn.
    - destruct files as [|file files]; [done|]. injection Hi as ->. simpl.
      rewrite decide_True by done. rewrite Nat.add_0_r in Hn. by rewrite Hn.
    - destruct files as [|file files]; [done|]. simpl in *.
      rewrite decide_False; [|intros ->; by apply (Hfirst 0); [lia|]].
      apply IH; [done| |by replace (S k + i) with (k + S i) by lia].
      intros j Hj. apply (Hfirst (S j)). lia. }
  simpl. by rewrite (H 0 goFiles Hi Hfirst Hnone).
Qed.

(** The theorem at a package that lists a file but holds no syntax. *)
Lemma FindTarget_missing_syntax_witness :
  FindTarget [(["proj/a.go"],
               {| PkgPath := "proj"; Types := None; Syntax := [];
                  ObjectOf := λ _, None; FileNameAt := λ _, "";
                  formatFuncDecl := λ _, inr "";
                  formatGenDecl := λ _, inr "" |})] "proj/a.go" "A"
  = Panic "runtime error: index out of range".
Proof.
  apply (FindTarget_missing_syntax _ _ _ _ _ 0); [done| |done].
  intros j Hj. lia.
Defined.

(** ** A larger bound never loses a result *)

Section Deeper.
Variable depth1 depth2 : Z.
Variable pkgs : list Package.
Hypothesis Hle : (depth1 ≤ depth2)%Z.

Abbreviation proj := (projectPackagesOf pkgs).
Abbreviation tpm := (typePkgMapOf pkgs).

(** What the callable loop records does not depend on the bound or on
    the queue. *)
Lemma recordFuncs_maps d fs called q1 q2 c1 q1' c2 q2' :
  foldM (recordFunc depth1 proj tpm d) fs (called, q1) = Done (c1, q1') →
  foldM (recordFunc depth2 proj tpm d) fs (called, q2) = Done (c2, q2') →
  c1 = c2.
Proof.
  revert called q1 q2. induction fs as [|f fs IH]; intros called q1 q2.
  { by intros [= <- _] [= <- _]. }
  rewrite !foldM_cons, !bind_Done.
  intros ([ca qa] & Ha & Ha') ([cb qb] & Hb & Hb').
  assert (ca = cb) as ->; [|by eapply IH].
  apply recordFunc_spec in Ha as [(Hs & -> & _)|(Hn & -> & _)];
    apply recordFunc_spec in Hb as [(Hs' & -> & _)|(Hn' & -> & _)];
    try done.
  - rewrite Hn' in Hs. by destruct Hs.
  - rewrite Hn in Hs'. by destruct Hs'.
Qed.

Lemma step_maps t rest1 rest2 st1 st2 st1' st2' :
  same_maps st1 st2 →
  step depth1 proj tpm t rest1 st1 = Done st1' →
  step depth2 proj tpm t rest2 st2 = Done st2' →
  same_maps st1' st2'.
Proof.
  intros (Hp & Hc & Hty) H1%step_spec H2%step_spec.
  destruct H1 as [Hd1 ->|f1 c1 called1 q1 types1 Hr1 Hfl1 Hw1 Hf1 Ht1 ->];
    destruct H2 as [Hd2 ->|f2 c2 called2 q2 types2 Hr2 Hfl2 Hw2 Hf2 Ht2 ->].
  - done.
  - exfalso. destruct Hd1 as [Hr|(f & Hr & Hfl)]; [congruence|].
    rewrite Hr in Hr2. injection Hr2 as <-. congruence.
  - exfalso. destruct Hd2 as [Hr|(f & Hr & Hfl)]; [congruence|].
    rewrite Hr in Hr1. injection Hr1 as <-. congruence.
  - rewrite Hr1 in Hr2. injection Hr2 as <-.
    rewrite Hw1 in Hw2. injection Hw2 as <-.
    rewrite <- Hc in Hf2. rewrite <- Hty, Ht1 in Ht2. injection Ht2 as <-.
    unfold same_maps. simpl. rewrite Hp.
    by rewrite (recordFuncs_maps _ _ _ _ _ _ _ _ _ Hf1 Hf2).
Qed.

Lemma step_below t rest st :
  (Depth t < depth1)%Z →
  step depth1 proj tpm t rest st = step depth2 proj tpm t rest st.
Proof.
  intros Hd. unfold step.
  destruct (ObjectOf _ _) as [[f| |]|]; try done.
  destruct (flag _ _); [done|]. unfold expand.
  destruct (Walk_Body _ _ _ _) as [c| |]; [|done..].
  cbn [mbind outcome_bind].
  rewrite (foldM_ext (recordFunc depth1 proj tpm (Depth t))
             (recordFunc depth2 proj tpm (Depth t))); [done|].
  intros [called q] x. unfold recordFunc.
  destruct (called !! FullName x); [done|].
  destruct (Z.ltb_spec (Depth t) depth1); [|lia].
  destruct (Z.ltb_spec (Depth t) depth2); [done|lia].
Qed.

Lemma deeper_simulation fuel1 fuel2 st1 st2 st1' st2' :
  ahead depth1 st1 st2 →
  bfs_window (queue st1) → Forall (depth_in_bound depth1) (queue st1) →
  loop depth1 proj tpm fuel1 st1 = Done st1' →
  loop depth2 proj tpm fuel2 st2 = Done st2' →
  allCalledFuncs st1' ⊆ allCalledFuncs st2' ∧
  allReferencedTypes st1' ⊆ allReferencedTypes st2'.
Proof.
  revert fuel2 st1 st2.
  induction fuel1 as [|fuel1 IH]; intros fuel2 st1 st2 Ha Hw Hb H1 H2.
  - simpl in H1. destruct (queue st1) eqn:Hq; [|done]. injection H1 as <-.
    destruct Ha as ((_ & -> & ->) & _).
    by apply loop_extends in H2 as (_ & ? & ?).
  - simpl in H1. destruct (queue st1) as [|t rest] eqn:Hq.
    { injection H1 as <-. destruct Ha as ((_ & -> & ->) & _).
      by apply loop_extends in H2 as (_ & ? & ?). }
    apply bind_Done in H1 as (s1 & Hs1 & Hl1).
    destruct Ha as (Hmaps & extra & Hq2 & Hextra). rewrite Hq in Hq2, Hextra.
    destruct fuel2 as [|fuel2]; [simpl in H2; by rewrite Hq2 in H2|].
    simpl in H2. rewrite Hq2 in H2. simpl in H2.
    apply bind_Done in H2 as (s2 & Hs2 & Hl2).
    rewrite <- Hq in Hw, Hb.
    destruct (step_case_window depth1 pkgs t rest st1 s1 Hq Hw Hb)
      as (Hw1 & Hb1 & _); [by apply step_spec|].
    apply (IH fuel2 s1 s2); [|done|done|done|done].
    split; [by eapply step_maps|].
    destruct (Z.lt_ge_cases (Depth t) depth1) as [Hlt|Hge].
    + assert (extra = []) as ->.
      { destruct extra as [|e extra]; [done|]. exfalso.
        assert (Forall (λ t0, (depth1 ≤ Depth t0)%Z) (t :: rest)) as Hf
          by by apply Hextra.
        apply Forall_cons in Hf as [? _]. lia. }
      rewrite app_nil_r in Hs2.
      assert (st2 = st1) as ->.
      { destruct Hmaps as (Hp & Hc & Hty). destruct st1, st2. simpl in *.
        rewrite app_nil_r in Hq2. congruence. }
      rewrite (step_below t rest st1 Hlt), Hs2 in Hs1. injection Hs1 as <-.
      exists []. by rewrite app_nil_r.
    + apply step_spec, step_case_queue in Hs1 as (new1 & Hq1 & Hnew1).
      apply step_spec, step_case_queue in Hs2 as (new2 & Hq2' & _).
      assert (new1 = []) as ->.
      { destruct new1 as [|n new1]; [done|].
        apply Forall_cons in Hnew1 as [[_ ?] _]. lia. }
      rewrite app_nil_r in Hq1. exists (extra ++ new2).
      rewrite Hq1, Hq2', (assoc_L (++)). split; [done|]. intros _.
      rewrite Hq in Hw. destruct Hw as [Hsort _].
      apply StronglySorted_cons in Hsort as [Hall _].
      eapply Forall_impl; [done|]. unfold by_depth. intros x Hx. simpl in Hx.
      lia.
Qed.
End Deeper.

(** X12. A larger bound never loses a result.  When the traversal returns
    for two bounds, every callable and every type found with the smaller
    bound is found, with the same entry, with the larger bound. *)
Theorem deeper_bound_keeps_results (initialTarget : AnalysisTarget)
    (depth1 depth2 : Z) (pkgs : list Package) (r1 r2 : analysisResult)
    (e1 e2 : error) :
  (depth1 ≤ depth2)%Z →
  performRecursiveAnalysis initialTarget depth1 pkgs = Done (r1, e1) →
  performRecursiveAnalysis initialTarget depth2 pkgs = Done (r2, e2) →
  res_CalledFuncs r1 ⊆ res_CalledFuncs r2 ∧
  res_ReferencedTypes r1 ⊆ res_ReferencedTypes r2.
Proof.
  intros Hle (_ & st1 & Hl1 & _ & -> & ->)%performRecursiveAnalysisFuel_Done
    (_ & st2 & Hl2 & _ & -> & ->)%performRecursiveAnalysisFuel_Done.
  eapply (deeper_simulation depth1 depth2 pkgs Hle); [| | |done|done].
  - split; [done|]. exists []. by rewrite app_nil_r.
  - split; [repeat constructor|]. simpl.
    intros h t [= <-] ->%list_elem_of_singleton. simpl. lia.
  - constructor; [|done]. unfold depth_in_bound. simpl. lia.
Qed.

(** The theorem at the bounds 0 and 1 on the example project. *)
Lemma deeper_bound_keeps_results_witness :
  ∃ r0 r1,
    performRecursiveAnalysis Scenario.target 0 [Scenario.pkg] = Done (r0, None) ∧
    performRecursiveAnalysis Scenario.target 1 [Scenario.pkg] = Done (r1, None) ∧
    res_CalledFuncs r0 ⊆ res_CalledFuncs r1.
Proof.
  assert (∃ r0 r1,
    performRecursiveAnalysis Scenario.target 0 [Scenario.pkg] = Done (r0, None) ∧
    performRecursiveAnalysis Scenario.target 1 [Scenario.pkg] = Done (r1, None))
    as (r0 & r1 & H0 & H1) by (eexists _, _; split; by vm_compute).
  exists r0, r1. split; [exact H0|]. split; [exact H1|].
  refine (proj1 (deeper_bound_keeps_results Scenario.target 0 1 [Scenario.pkg]
                   r0 r1 None None _ H0 H1)). lia.
Defined.

(** ** A bound that is not reached *)

Section Unreached.
Variable depth depth' : Z.
Variable pkgs : list Package.
Hypothesis Hle : (depth ≤ depth')%Z.

Abbreviation proj := (projectPackagesOf pkgs).
Abbreviation tpm := (typePkgMapOf pkgs).

(** A task that is not expanded is handled without looking at the bound,
    and so is a task whose expansion panics. *)
Lemma step_not_expanded d1 d2 t rest st :
  (∀ st1, step d1 proj tpm t rest st = Done st1 → expandedKey t st = None) →
  step d1 proj tpm t rest st = step d2 proj tpm t rest st.
Proof.
  unfold step, expandedKey, resolved.
  destruct (ObjectOf _ _) as [[f| |]|]; try done.
  destruct (flag _ _); [done|]. unfold expand, Walk_Body.
  destruct (Body _) as [stmts|]; [|done]. cbn [mbind outcome_bind].
  set (c := Walk _ _ _ _). intros Hno. exfalso.
  assert (scoped proj c) as [Hsf Hst].
  { apply (Walk_Body_scoped (ObjectOf (Pkg (Target t))) _ (Some stmts)).
    reflexivity. }
  assert (∃ acc', foldM (recordFunc d1 proj tpm (Depth t)) (CalledFuncs c)
                    (allCalledFuncs st, rest) = Done acc') as [[called q] Hf].
  { refine (foldM_total _
      (λ f, in_scope proj (func_pkg f)) (CalledFuncs c) _ Hsf _).
    intros [called q] x (p & Hp & Hfl). unfold recordFunc. rewrite Hp.
    destruct (called !! FullName x); [eauto|].
    destruct (_ <? _)%Z; [|eauto].
    cbn [Path mbind outcome_bind lookupPkg]. rewrite Hfl.
    destruct (tpm !! pkg_addr p) as [defPkg|]; [|eauto].
    destruct (findFuncDeclAt defPkg (func_pos x)); eauto. }
  destruct (recordTypes_total pkgs (ReferencedTypes c)
              (allReferencedTypes st) Hst) as [types Hty].
  rewrite Hf in Hno. cbn [mbind outcome_bind] in Hno. rewrite Hty in Hno.
  by specialize (Hno _ eq_refl).
Qed.

Lemma loop_unreached fuel st :
  (∀ x, x ∈ expansions depth proj tpm fuel st → (Depth x.2 < depth)%Z) →
  loop depth' proj tpm fuel st = loop depth proj tpm fuel st.
Proof.
  revert st. induction fuel as [|fuel IH]; intros st Hlog; [done|].
  simpl. destruct (queue st) as [|t rest] eqn:Hq; [done|].
  assert (step depth' proj tpm t rest st = step depth proj tpm t rest st)
    as ->.
  { destruct (step depth proj tpm t rest st) as [st1| |] eqn:Hs.
    - destruct (expandedKey t st) as [k|] eqn:Hk.
      + rewrite <- Hs. symmetry. apply (step_below depth depth' pkgs Hle).
        apply (Hlog (k, t)).
        rewrite (expansions_step depth pkgs fuel st t rest st1 Hq Hs), Hk.
        left.
      + rewrite <- Hs. symmetry. apply step_not_expanded.
        intros st1' _. exact Hk.
    - rewrite <- Hs. symmetry. apply step_not_expanded.
      intros st1 Hs'. congruence.
    - by apply step_not_OutOfFuel in Hs. }
  destruct (step depth proj tpm t rest st) as [st1| |] eqn:Hs; [|done..].
  cbn [mbind outcome_bind]. apply IH. intros x Hx. apply Hlog.
  rewrite (expansions_step depth pkgs fuel st t rest st1 Hq Hs).
  apply elem_of_app. by right.
Qed.
End Unreached.

(** X13. A bound that is not reached.  When every task expanded under a
    bound has a depth strictly below it (no expansion was cut off by the
    bound), every larger bound gives the same outcome: the result is the
    whole closure. *)
Theorem unreached_bound_is_closure (initialTarget : AnalysisTarget)
    (depth depth' : Z) (pkgs : list Package) :
  (depth ≤ depth')%Z →
  (∀ x,
     x ∈ expansions depth (projectPackagesOf pkgs) (typePkgMapOf pkgs)
           (traversalBound initialTarget pkgs) (initial_state initialTarget) →
     (Depth x.2 < depth)%Z) →
  performRecursiveAnalysis initialTarget depth' pkgs
  = performRecursiveAnalysis initialTarget depth pkgs.
Proof.
  intros Hle Hlog. unfold performRecursiveAnalysis, performRecursiveAnalysisFuel.
  by rewrite (loop_unreached depth depth' pkgs Hle).
Qed.

(** The theorem on the example project: the bound 3 is not reached, so
    the bound 7 gives the same result. *)
Lemma unreached_bound_is_closure_witness :
  performRecursiveAnalysis Scenario.target 7 [Scenario.pkg]
  = performRecursiveAnalysis Scenario.target 3 [Scenario.pkg].
Proof.
  apply unreached_bound_is_closure; [lia|].
  intros x Hx. vm_compute in Hx.
  repeat (apply elem_of_cons in Hx as [->|Hx]; [simpl; lia|]).
  by apply elem_of_nil in Hx.
Defined.
